(** * VyOS configuration command engine: sanitizer, command builder,
      configuration parser and transactional executor.

    A shallow embedding of
      - [sanitizeConfigValue]            (shared/validators),
      - [CommandBuilder]                 (main/services/vyos/CommandBuilder),
      - [ConfigParser]                   (main/services/vyos/ConfigParser.ts),
      - [SSHClient.shell]                (main/services/ssh/SSHClient.ts),
      - [CommandExecutor]                (main/services/vyos/CommandExecutor).

    Conventions of the embedding.
      - A JavaScript string is a [string]: a sequence of code units in the
        range U+0000..U+00FF.  Code units above U+00FF are outside the model.
      - A JavaScript [number] that the program uses as an integer is a
        [number]: either [NaN] or [Num z] with [z : Z].  The integers of
        magnitude up to [2^53 - 1] ([safe_integer]) are numbers of the
        source exactly; printing and [parseInt] are those of the source on
        them.
      - An optional field [f?: T] is an [option T]; a field holding
        [undefined] and an absent field are both [None].
      - String-literal union types are erased at run time (the parser casts
        arbitrary keys with [as]); such fields are [string]s.
      - A plain JavaScript object used as a dictionary is an association list
        of its own properties in insertion order.  The properties that every
        object inherits from [Object.prototype] are not modelled: reading and
        writing a key are those of the source for the keys of [own_name],
        which excludes the twelve inherited names ([constructor],
        [__proto__], [toString], ...).
      - Exceptions are values of [error]; fallible code returns a [result].
      - Calls to [electron-log] have no effect on any value and are omitted. *)

From Stdlib Require Import String Ascii List ZArith NArith Bool Lia.
Import ListNotations.
Local Open Scope string_scope.
Local Open Scope list_scope.

(** String concatenation, written as in ML. *)
Notation "a ^ b" := (String.append a b) : string_scope.

(* ================================================================== *)
(** ** JavaScript string primitives *)
(* ================================================================== *)

Definition nl : ascii := ascii_of_nat 10.
Definition cr : ascii := ascii_of_nat 13.
Definition tab : ascii := ascii_of_nat 9.
Definition space : ascii := " "%char.
Definition squote : ascii := "'"%char.
Definition dquote : ascii :=
  Ascii false true false false false true false false.
Definition backslash : ascii := ascii_of_nat 92.

(** [WhiteSpace] and [LineTerminator] code units below U+0100: the characters
    [String.prototype.trim] strips and the regular expression class [\s]
    matches. *)
Definition is_whitespace (c : ascii) : bool :=
  let n := nat_of_ascii c in
  (Nat.eqb n 9 || Nat.eqb n 10 || Nat.eqb n 11 || Nat.eqb n 12
   || Nat.eqb n 13 || Nat.eqb n 32 || Nat.eqb n 160)%bool.

(** The characters the regular expression [.] does not match. *)
Definition is_line_terminator (c : ascii) : bool :=
  (Ascii.eqb c nl || Ascii.eqb c cr)%bool.

(** [s.startsWith(p)] *)
Definition startsWith (s p : string) : bool := String.prefix p s.

(** [s.includes(p)] *)
Fixpoint includes (s p : string) : bool :=
  (String.prefix p s ||
   match s with
   | EmptyString => false
   | String _ s' => includes s' p
   end)%bool.

(** [s.substring(n)] *)
Fixpoint substring_from (n : nat) (s : string) : string :=
  match n, s with
  | O, _ => s
  | S _, EmptyString => EmptyString
  | S n', String _ s' => substring_from n' s'
  end.

Fixpoint trimStart (s : string) : string :=
  match s with
  | EmptyString => EmptyString
  | String c s' => if is_whitespace c then trimStart s' else s
  end.

Fixpoint trimEnd (s : string) : string :=
  match s with
  | EmptyString => EmptyString
  | String c s' =>
      match trimEnd s' with
      | EmptyString => if is_whitespace c then EmptyString else String c EmptyString
      | r => String c r
      end
  end.

(** [s.trim()] *)
Definition trim (s : string) : string := trimEnd (trimStart s).

(** [s.split('\n')] *)
Fixpoint split_lines (s : string) : list string :=
  match s with
  | EmptyString => [EmptyString]
  | String c s' =>
      match split_lines s' with
      | [] => [String c EmptyString]
      | l :: ls => if Ascii.eqb c nl then EmptyString :: l :: ls
                   else String c l :: ls
      end
  end.

(** [xs.join(sep)] *)
Definition join (sep : string) (xs : list string) : string :=
  String.concat sep xs.

(** [value.replace(/'/g, "\\'")] *)
Fixpoint escape_quotes (s : string) : string :=
  match s with
  | EmptyString => EmptyString
  | String c s' =>
      if Ascii.eqb c squote
      then String backslash (String squote (escape_quotes s'))
      else String c (escape_quotes s')
  end.

Definition non_empty (s : string) : bool :=
  match s with EmptyString => false | String _ _ => true end.

(* ================================================================== *)
(** ** Numbers *)
(* ================================================================== *)

(** The numbers of the model: [NaN] and the integers.  [Num z] stands for the
    JavaScript number of value [z]; every integer of magnitude up to
    [2^53 - 1] is such a number, exactly.  Numbers with a fraction, the
    infinities and the negative zero are not in the model. *)
Inductive number : Type :=
| NaN
| Num (z : Z).

(** [Number.MAX_SAFE_INTEGER] *)
Definition MAX_SAFE_INTEGER : Z := 9007199254740991.

(** [Number.isSafeInteger(n)]: the integers that are numbers of the source
    exactly, that [number_to_string] prints as the source does and that
    [parseInt] reads back without rounding. *)
Definition safe_integer (n : number) : bool :=
  match n with
  | NaN => false
  | Num z => ((- MAX_SAFE_INTEGER <=? z) && (z <=? MAX_SAFE_INTEGER))%Z%bool
  end.

Definition digit_char (d : N) : ascii := ascii_of_N (48 + d).

Definition digit_of (c : ascii) : option N :=
  let n := N_of_ascii c in
  if ((48 <=? n) && (n <=? 57))%N%bool then Some (n - 48)%N else None.

Fixpoint to_digits (fuel : nat) (n : N) (acc : string) : string :=
  match fuel with
  | O => acc
  | S fuel' =>
      let acc' := String (digit_char (n mod 10)) acc in
      if (n <? 10)%N then acc' else to_digits fuel' (n / 10) acc'
  end.

(** Decimal digits of a natural number, most significant first. *)
Definition N_to_string (n : N) : string :=
  to_digits (S (N.to_nat (N.log2 n))) n EmptyString.

Definition Z_to_string (z : Z) : string :=
  if (z <? 0)%Z then String "-"%char (N_to_string (Z.abs_N z))
  else N_to_string (Z.abs_N z).

(** Template-literal interpolation [`${n}`] of a number: the decimal digits
    of an integer, with a sign when it is negative.  The source prints a
    number of magnitude [10^21] or more in exponent form; the embedding is
    that of the source for the integers below that, the safe integers among
    them. *)
Definition number_to_string (n : number) : string :=
  match n with
  | NaN => "NaN"
  | Num z => Z_to_string z
  end.

(** Truthiness of a number: [NaN] and [0] are falsy. *)
Definition number_truthy (n : number) : bool :=
  match n with
  | NaN => false
  | Num z => negb (z =? 0)%Z
  end.

(** The longest prefix of decimal digits, accumulated left to right;
    [None] when the string starts with no digit. *)
Fixpoint digits_acc (s : string) (acc : option N) : option N :=
  match s with
  | EmptyString => acc
  | String c s' =>
      match digit_of c with
      | Some d =>
          digits_acc s' (Some (10 * match acc with Some a => a | None => 0 end + d)%N)
      | None => acc
      end
  end.

(** [parseInt(s, 10)]: leading white space, an optional sign, then the
    longest run of decimal digits.  The source returns the number nearest to
    the digits' value, which is that value itself up to [2^53]; the embedding
    is that of the source for digit runs of a value up to [2^53]. *)
Definition parseInt (s : string) : number :=
  let s1 := trimStart s in
  let '(neg, s2) :=
    match s1 with
    | String c r =>
        if Ascii.eqb c "-"%char then (true, r)
        else if Ascii.eqb c "+"%char then (false, r)
        else (false, s1)
    | EmptyString => (false, s1)
    end in
  match digits_acc s2 None with
  | None => NaN
  | Some n => Num (if neg then - Z.of_N n else Z.of_N n)%Z
  end.

(** [parseInt(x, 10)] where [x] may be [undefined]: the argument is first
    converted to the string ["undefined"], which has no digits. *)
Definition parseInt_opt (x : option string) : number :=
  match x with
  | None => NaN
  | Some s => parseInt s
  end.

(* ================================================================== *)
(** ** Sanitizer (shared/validators) *)
(* ================================================================== *)

Definition sanitizeConfigValue (value : string) : string :=
  if (includes value " " || includes value "'")%bool
  then "'" ^ escape_quotes value ^ "'"
  else value.

(* ================================================================== *)
(** ** Objects used as dictionaries *)
(* ================================================================== *)

(** A key is an array index when it is the canonical decimal form of an
    integer below [2^32 - 1]. *)
Definition array_index (k : string) : option N :=
  match k with
  | EmptyString => None
  | String c r =>
      match digits_acc k None with
      | Some n =>
          if (String.eqb (N_to_string n) k && (n <? 4294967295)%N)%bool
          then Some n else None
      | None => None
      end
  end.

Definition is_index {A} (e : string * A) : bool :=
  match array_index (fst e) with Some _ => true | None => false end.

Definition index_of {A} (e : string * A) : N :=
  match array_index (fst e) with Some n => n | None => 0%N end.

Fixpoint insert_by_index {A} (e : string * A) (l : list (string * A))
  : list (string * A) :=
  match l with
  | [] => [e]
  | x :: l' =>
      if (index_of e <=? index_of x)%N then e :: x :: l'
      else x :: insert_by_index e l'
  end.

Fixpoint sort_by_index {A} (l : list (string * A)) : list (string * A) :=
  match l with
  | [] => []
  | e :: l' => insert_by_index e (sort_by_index l')
  end.

(** [Object.entries(o)]: array-index keys in ascending numeric order, then
    the other keys in insertion order. *)
Definition entries {A} (props : list (string * A)) : list (string * A) :=
  sort_by_index (filter is_index props)
  ++ filter (fun e => negb (is_index e)) props.

Fixpoint lookup {A} (k : string) (props : list (string * A)) : option A :=
  match props with
  | [] => None
  | (k', v) :: props' => if String.eqb k k' then Some v else lookup k props'
  end.

(** [o[k] = v]: an existing property keeps its position, a new one is
    added last. *)
Fixpoint assign {A} (k : string) (v : A) (props : list (string * A))
  : list (string * A) :=
  match props with
  | [] => [(k, v)]
  | (k', v') :: props' =>
      if String.eqb k k' then (k, v) :: props'
      else (k', v') :: assign k v props'
  end.

(** [xs.forEach((x, index) => ...)] collecting what each call pushes. *)
Fixpoint flat_mapi {A B} (f : nat -> A -> list B) (i : nat) (xs : list A)
  : list B :=
  match xs with
  | [] => []
  | x :: xs' => f i x ++ flat_mapi f (S i) xs'
  end.

(* ================================================================== *)
(** ** Domain models (shared/types) *)
(* ================================================================== *)

Module AddressConfig.
Record t : Type := mk
  { ipv4 : list string; ipv6 : list string; dhcp : bool; dhcpv6 : bool }.
End AddressConfig.

Module VLANConfig.
Record t : Type := mk { id : number; parentInterface : string }.
End VLANConfig.

Module BondConfig.
Record t : Type := mk
  { mode : string;
    members : list string;
    primaryInterface : option string;
    hashPolicy : option string }.
End BondConfig.

Module BridgeConfig.
Record t : Type := mk
  { members : list string;
    stp : bool;
    aging : option number;
    maxAge : option number }.
End BridgeConfig.

Module NetworkInterface.
Record t : Type := mk
  { name : string;
    type : string;
    description : option string;
    enabled : bool;
    mtu : option number;
    mac : option string;
    addresses : AddressConfig.t;
    vlan : option VLANConfig.t;
    bond : option BondConfig.t;
    bridge : option BridgeConfig.t }.
End NetworkInterface.

Module StaticRoute.
Record t : Type := mk
  { network : string;
    nextHop : option string;
    interface : option string;
    distance : option number;
    description : option string }.
End StaticRoute.

Module ZoneFirewall.
Record t : Type := mk { name : option string; ipv6Name : option string }.
End ZoneFirewall.

Module FirewallZone.
Record t : Type := mk
  { name : string;
    description : option string;
    defaultAction : string;
    interfaces : list string;
    from : list (string * ZoneFirewall.t) }.
End FirewallZone.

Module AddressGroup.
Record t : Type := mk
  { addressGroup : option string;
    networkGroup : option string;
    portGroup : option string }.
End AddressGroup.

Module FirewallAddress.
Record t : Type := mk
  { address : option string;
    port : option string;
    group : option AddressGroup.t }.
End FirewallAddress.

Module RuleState.
Record t : Type := mk
  { established : option bool;
    related : option bool;
    new : option bool;
    invalid : option bool }.
End RuleState.

Module FirewallRule.
Record t : Type := mk
  { number : number;
    action : string;
    description : option string;
    protocol : option string;
    source : option FirewallAddress.t;
    destination : option FirewallAddress.t;
    state : option RuleState.t;
    log : option bool;
    disabled : option bool }.
End FirewallRule.

Module FirewallRuleset.
Record t : Type := mk
  { name : string;
    description : option string;
    defaultAction : string;
    enableDefaultLog : option bool;
    rules : list FirewallRule.t }.
End FirewallRuleset.

Module NATAddress.
Record t : Type := mk { address : option string; port : option string }.
End NATAddress.

Module NATRule.
Record t : Type := mk
  { number : number;
    type : string;
    description : option string;
    disabled : option bool;
    outboundInterface : option string;
    inboundInterface : option string;
    source : option NATAddress.t;
    destination : option NATAddress.t;
    translation : option NATAddress.t;
    protocol : option string }.
End NATRule.

Module IKEProposal.
Record t : Type := mk
  { encryption : string; hash : string; dhGroup : string }.
End IKEProposal.

Module ESPProposal.
Record t : Type := mk { encryption : string; hash : string }.
End ESPProposal.

Module IKEGroup.
Record t : Type := mk
  { name : string; proposal : list IKEProposal.t; lifeTime : option number }.
End IKEGroup.

Module ESPGroup.
Record t : Type := mk
  { name : string;
    proposal : list ESPProposal.t;
    lifeTime : option number;
    pfs : option string }.
End ESPGroup.

Module IPSecAuth.
Record t : Type := mk
  { mode : string;
    preSharedSecret : option string;
    remoteId : option string;
    localId : option string }.
End IPSecAuth.

Module IPSecTunnel.
Record t : Type := mk
  { id : number;
    localSubnet : string;
    remoteSubnet : string;
    protocol : option string }.
End IPSecTunnel.

Module IPSecSite.
Record t : Type := mk
  { name : string;
    authMode : string;
    description : option string;
    localAddress : string;
    remoteAddress : string;
    authentication : IPSecAuth.t;
    ikeGroup : IKEGroup.t;
    espGroup : ESPGroup.t;
    tunnels : list IPSecTunnel.t }.
End IPSecSite.

Module UserAuth.
Record t : Type := mk
  { encryptedPassword : option string;
    plaintextPassword : option string;
    publicKeys : option (list string) }.
End UserAuth.

Module SystemUser.
Record t : Type := mk
  { name : string;
    fullName : option string;
    authentication : UserAuth.t;
    level : option string }.
End SystemUser.

Module NTPConfig.
Record t : Type := mk
  { servers : list string; allowClients : option (list string) }.
End NTPConfig.

Module LoginConfig.
Record t : Type := mk { users : list SystemUser.t }.
End LoginConfig.

(** [Partial<SystemConfig>]: every top-level field may be absent. *)
Module SystemConfig.
Record t : Type := mk
  { hostName : option string;
    domainName : option string;
    timeZone : option string;
    nameServer : option (list string);
    ntp : option NTPConfig.t;
    login : option LoginConfig.t }.
End SystemConfig.

(** Errors (shared/types), together with the engine's [TypeError]. *)
Inductive error : Type :=
| TypeError (message : string)
| SSHConnectionError (message : string)
| VyOSCommandError (message command output : string)
| VyOSCommitError (message output : string).

Definition error_message (e : error) : string :=
  match e with
  | TypeError m => m
  | SSHConnectionError m => m
  | VyOSCommandError m _ _ => m
  | VyOSCommitError m _ => m
  end.

Inductive result (A : Type) : Type :=
| Ok (a : A)
| Throw (e : error).
Arguments Ok {A} a.
Arguments Throw {A} e.

(* ================================================================== *)
(** ** Command Builder (main/services/vyos/CommandBuilder) *)
(* ================================================================== *)

(** The value of an optional string when it is truthy: absent and empty
    strings are falsy. *)
Definition truthy_string (o : option string) : option string :=
  match o with
  | Some s => if non_empty s then Some s else None
  | None => None
  end.

(** [if (s) { ... }] on an optional string. *)
Definition if_string (o : option string) (f : string -> list string)
  : list string :=
  match truthy_string o with
  | Some s => f s
  | None => []
  end.

(** [if (n) { ... }] on an optional number. *)
Definition if_number (o : option number) (f : number -> list string)
  : list string :=
  match o with
  | Some n => if number_truthy n then f n else []
  | None => []
  end.

(** [if (b) { ... }] on an optional boolean. *)
Definition if_flag (o : option bool) (cmds : list string) : list string :=
  match o with
  | Some true => cmds
  | _ => []
  end.

(** [if (o) { ... }] on an optional object: every object is truthy. *)
Definition if_object {A} (o : option A) (f : A -> list string) : list string :=
  match o with
  | Some a => f a
  | None => []
  end.

Definition buildInterfaceCommands (iface : NetworkInterface.t) : list string :=
  let name := NetworkInterface.name iface in
  let type := NetworkInterface.type iface in
  let basePath := "interfaces " ^ type ^ " " ^ name in
  let addresses := NetworkInterface.addresses iface in
  if_string (NetworkInterface.description iface) (fun d =>
    ["set " ^ basePath ^ " description " ^ sanitizeConfigValue d])
  ++ if_number (NetworkInterface.mtu iface) (fun n =>
    ["set " ^ basePath ^ " mtu " ^ number_to_string n])
  ++ if_string (NetworkInterface.mac iface) (fun m =>
    ["set " ^ basePath ^ " mac " ^ m])
  ++ map (fun addr => "set " ^ basePath ^ " address " ^ sanitizeConfigValue addr)
       (AddressConfig.ipv4 addresses)
  ++ map (fun addr => "set " ^ basePath ^ " address " ^ sanitizeConfigValue addr)
       (AddressConfig.ipv6 addresses)
  ++ (if AddressConfig.dhcp addresses
      then ["set " ^ basePath ^ " address dhcp"] else [])
  ++ (if AddressConfig.dhcpv6 addresses
      then ["set " ^ basePath ^ " address dhcpv6"] else [])
  ++ (if String.eqb type "vlan"
      then if_object (NetworkInterface.vlan iface) (fun v =>
        ["set " ^ basePath ^ " vlan id " ^ number_to_string (VLANConfig.id v)])
      else [])
  ++ (if String.eqb type "bond"
      then if_object (NetworkInterface.bond iface) (fun b =>
        ["set " ^ basePath ^ " mode " ^ BondConfig.mode b]
        ++ map (fun member => "set " ^ basePath ^ " member interface " ^ member)
             (BondConfig.members b)
        ++ if_string (BondConfig.primaryInterface b) (fun p =>
             ["set " ^ basePath ^ " primary " ^ p])
        ++ if_string (BondConfig.hashPolicy b) (fun h =>
             ["set " ^ basePath ^ " hash-policy " ^ h]))
      else [])
  ++ (if String.eqb type "bridge"
      then if_object (NetworkInterface.bridge iface) (fun b =>
        map (fun member => "set " ^ basePath ^ " member interface " ^ member)
          (BridgeConfig.members b)
        ++ (if BridgeConfig.stp b then ["set " ^ basePath ^ " stp"] else [])
        ++ if_number (BridgeConfig.aging b) (fun n =>
             ["set " ^ basePath ^ " aging " ^ number_to_string n])
        ++ if_number (BridgeConfig.maxAge b) (fun n =>
             ["set " ^ basePath ^ " max-age " ^ number_to_string n]))
      else [])
  ++ (if NetworkInterface.enabled iface
      then ["delete " ^ basePath ^ " disable"]
      else ["set " ^ basePath ^ " disable"]).

Definition buildStaticRouteCommands (route : StaticRoute.t) : list string :=
  let basePath := "protocols static route " ^ StaticRoute.network route in
  let with_distance (path : string) :=
    ["set " ^ path]
    ++ if_number (StaticRoute.distance route) (fun n =>
         ["set " ^ path ^ " distance " ^ number_to_string n]) in
  let hops :=
    match truthy_string (StaticRoute.nextHop route) with
    | Some h => with_distance (basePath ^ " next-hop " ^ h)
    | None =>
        match truthy_string (StaticRoute.interface route) with
        | Some i => with_distance (basePath ^ " interface " ^ i)
        | None => []
        end
    end in
  hops
  ++ if_string (StaticRoute.description route) (fun d =>
       ["set " ^ basePath ^ " description " ^ sanitizeConfigValue d]).

Definition buildFirewallZoneCommands (zone : FirewallZone.t) : list string :=
  let basePath := "zone-policy zone " ^ FirewallZone.name zone in
  if_string (FirewallZone.description zone) (fun d =>
    ["set " ^ basePath ^ " description " ^ sanitizeConfigValue d])
  ++ ["set " ^ basePath ^ " default-action " ^ FirewallZone.defaultAction zone]
  ++ map (fun iface => "set " ^ basePath ^ " interface " ^ iface)
       (FirewallZone.interfaces zone)
  ++ flat_map (fun e =>
       let fromPath := basePath ^ " from " ^ fst e in
       if_string (ZoneFirewall.name (snd e)) (fun n =>
         ["set " ^ fromPath ^ " firewall name " ^ n])
       ++ if_string (ZoneFirewall.ipv6Name (snd e)) (fun n =>
         ["set " ^ fromPath ^ " firewall ipv6-name " ^ n]))
       (entries (FirewallZone.from zone)).

Definition buildFirewallRuleCommands (rulesetName : string)
  (rule : FirewallRule.t) : list string :=
  let basePath :=
    "firewall name " ^ rulesetName ^ " rule "
    ^ number_to_string (FirewallRule.number rule) in
  let group_of (a : FirewallAddress.t) (f : AddressGroup.t -> option string) :=
    match FirewallAddress.group a with
    | Some g => f g
    | None => None
    end in
  ["set " ^ basePath ^ " action " ^ FirewallRule.action rule]
  ++ if_string (FirewallRule.description rule) (fun d =>
       ["set " ^ basePath ^ " description " ^ sanitizeConfigValue d])
  ++ if_string (FirewallRule.protocol rule) (fun p =>
       ["set " ^ basePath ^ " protocol " ^ p])
  ++ if_object (FirewallRule.source rule) (fun src =>
       if_string (FirewallAddress.address src) (fun a =>
         ["set " ^ basePath ^ " source address " ^ a])
       ++ if_string (FirewallAddress.port src) (fun p =>
         ["set " ^ basePath ^ " source port " ^ p])
       ++ if_string (group_of src AddressGroup.addressGroup) (fun g =>
         ["set " ^ basePath ^ " source group address-group " ^ g])
       ++ if_string (group_of src AddressGroup.networkGroup) (fun g =>
         ["set " ^ basePath ^ " source group network-group " ^ g]))
  ++ if_object (FirewallRule.destination rule) (fun dst =>
       if_string (FirewallAddress.address dst) (fun a =>
         ["set " ^ basePath ^ " destination address " ^ a])
       ++ if_string (FirewallAddress.port dst) (fun p =>
         ["set " ^ basePath ^ " destination port " ^ p])
       ++ if_string (group_of dst AddressGroup.addressGroup) (fun g =>
         ["set " ^ basePath ^ " destination group address-group " ^ g])
       ++ if_string (group_of dst AddressGroup.portGroup) (fun g =>
         ["set " ^ basePath ^ " destination group port-group " ^ g]))
  ++ if_object (FirewallRule.state rule) (fun st =>
       if_flag (RuleState.established st)
         ["set " ^ basePath ^ " state established enable"]
       ++ if_flag (RuleState.related st)
         ["set " ^ basePath ^ " state related enable"]
       ++ if_flag (RuleState.new st)
         ["set " ^ basePath ^ " state new enable"]
       ++ if_flag (RuleState.invalid st)
         ["set " ^ basePath ^ " state invalid enable"])
  ++ if_flag (FirewallRule.log rule) ["set " ^ basePath ^ " log enable"]
  ++ if_flag (FirewallRule.disabled rule) ["set " ^ basePath ^ " disable"].

Definition buildFirewallRulesetCommands (ruleset : FirewallRuleset.t)
  : list string :=
  let basePath := "firewall name " ^ FirewallRuleset.name ruleset in
  if_string (FirewallRuleset.description ruleset) (fun d =>
    ["set " ^ basePath ^ " description " ^ sanitizeConfigValue d])
  ++ ["set " ^ basePath ^ " default-action "
      ^ FirewallRuleset.defaultAction ruleset]
  ++ if_flag (FirewallRuleset.enableDefaultLog ruleset)
       ["set " ^ basePath ^ " enable-default-log"]
  ++ flat_map (buildFirewallRuleCommands (FirewallRuleset.name ruleset))
       (FirewallRuleset.rules ruleset).

Definition buildNATRuleCommands (rule : NATRule.t) : list string :=
  let basePath :=
    "nat " ^ NATRule.type rule ^ " rule "
    ^ number_to_string (NATRule.number rule) in
  let section (label : string) (o : option NATAddress.t) :=
    if_object o (fun x =>
      if_string (NATAddress.address x) (fun a =>
        ["set " ^ basePath ^ " " ^ label ^ " address " ^ a])
      ++ if_string (NATAddress.port x) (fun p =>
        ["set " ^ basePath ^ " " ^ label ^ " port " ^ p])) in
  if_string (NATRule.description rule) (fun d =>
    ["set " ^ basePath ^ " description " ^ sanitizeConfigValue d])
  ++ (if String.eqb (NATRule.type rule) "source"
      then if_string (NATRule.outboundInterface rule) (fun i =>
        ["set " ^ basePath ^ " outbound-interface " ^ i])
      else [])
  ++ (if String.eqb (NATRule.type rule) "destination"
      then if_string (NATRule.inboundInterface rule) (fun i =>
        ["set " ^ basePath ^ " inbound-interface " ^ i])
      else [])
  ++ if_string (NATRule.protocol rule) (fun p =>
       ["set " ^ basePath ^ " protocol " ^ p])
  ++ section "source" (NATRule.source rule)
  ++ section "destination" (NATRule.destination rule)
  ++ section "translation" (NATRule.translation rule)
  ++ if_flag (NATRule.disabled rule) ["set " ^ basePath ^ " disable"].

Definition buildIPSecCommands (site : IPSecSite.t) : list string :=
  let ike := IPSecSite.ikeGroup site in
  let esp := IPSecSite.espGroup site in
  let auth := IPSecSite.authentication site in
  let ikeGroupName := IKEGroup.name ike in
  let ikeBasePath := "vpn ipsec ike-group " ^ ikeGroupName in
  let espGroupName := ESPGroup.name esp in
  let espBasePath := "vpn ipsec esp-group " ^ espGroupName in
  let peerPath := "vpn ipsec site-to-site peer " ^ IPSecSite.remoteAddress site in
  flat_mapi (fun index proposal =>
    let propPath :=
      ikeBasePath ^ " proposal " ^ N_to_string (N.of_nat (index + 1)) in
    ["set " ^ propPath ^ " encryption " ^ IKEProposal.encryption proposal;
     "set " ^ propPath ^ " hash " ^ IKEProposal.hash proposal;
     "set " ^ propPath ^ " dh-group " ^ IKEProposal.dhGroup proposal])
    0 (IKEGroup.proposal ike)
  ++ if_number (IKEGroup.lifeTime ike) (fun n =>
       ["set " ^ ikeBasePath ^ " lifetime " ^ number_to_string n])
  ++ flat_mapi (fun index proposal =>
    let propPath :=
      espBasePath ^ " proposal " ^ N_to_string (N.of_nat (index + 1)) in
    ["set " ^ propPath ^ " encryption " ^ ESPProposal.encryption proposal;
     "set " ^ propPath ^ " hash " ^ ESPProposal.hash proposal])
    0 (ESPGroup.proposal esp)
  ++ if_number (ESPGroup.lifeTime esp) (fun n =>
       ["set " ^ espBasePath ^ " lifetime " ^ number_to_string n])
  ++ if_string (ESPGroup.pfs esp) (fun p =>
       ["set " ^ espBasePath ^ " pfs " ^ p])
  ++ ["set " ^ peerPath ^ " authentication mode " ^ IPSecAuth.mode auth]
  ++ (if String.eqb (IPSecAuth.mode auth) "pre-shared-secret"
      then if_string (IPSecAuth.preSharedSecret auth) (fun s =>
        ["set " ^ peerPath ^ " authentication pre-shared-secret "
         ^ sanitizeConfigValue s])
      else [])
  ++ if_string (IPSecAuth.remoteId auth) (fun r =>
       ["set " ^ peerPath ^ " authentication remote-id " ^ sanitizeConfigValue r])
  ++ if_string (IPSecAuth.localId auth) (fun l =>
       ["set " ^ peerPath ^ " authentication local-id " ^ sanitizeConfigValue l])
  ++ ["set " ^ peerPath ^ " ike-group " ^ ikeGroupName;
      "set " ^ peerPath ^ " local-address " ^ IPSecSite.localAddress site]
  ++ if_string (IPSecSite.description site) (fun d =>
       ["set " ^ peerPath ^ " description " ^ sanitizeConfigValue d])
  ++ flat_map (fun tunnel =>
       let tunnelPath :=
         peerPath ^ " tunnel " ^ number_to_string (IPSecTunnel.id tunnel) in
       ["set " ^ tunnelPath ^ " local prefix " ^ IPSecTunnel.localSubnet tunnel;
        "set " ^ tunnelPath ^ " remote prefix " ^ IPSecTunnel.remoteSubnet tunnel;
        "set " ^ tunnelPath ^ " esp-group " ^ espGroupName]
       ++ if_string (IPSecTunnel.protocol tunnel) (fun p =>
            ["set " ^ tunnelPath ^ " protocol " ^ p]))
       (IPSecSite.tunnels site).

Definition buildUserCommands (user : SystemUser.t) : list string :=
  let basePath := "system login user " ^ SystemUser.name user in
  let auth := SystemUser.authentication user in
  if_string (SystemUser.fullName user) (fun f =>
    ["set " ^ basePath ^ " full-name " ^ sanitizeConfigValue f])
  ++ if_string (UserAuth.plaintextPassword auth) (fun p =>
    ["set " ^ basePath ^ " authentication plaintext-password "
     ^ sanitizeConfigValue p])
  ++ if_string (UserAuth.encryptedPassword auth) (fun p =>
    ["set " ^ basePath ^ " authentication encrypted-password "
     ^ sanitizeConfigValue p])
  ++ if_object (UserAuth.publicKeys auth) (fun keys =>
    flat_mapi (fun index key =>
      let keyPath :=
        basePath ^ " authentication public-keys key-"
        ^ N_to_string (N.of_nat index) in
      ["set " ^ keyPath ^ " key " ^ sanitizeConfigValue key;
       "set " ^ keyPath ^ " type ssh-rsa"]) 0 keys)
  ++ if_string (SystemUser.level user) (fun l =>
    ["set " ^ basePath ^ " level " ^ l]).

Definition buildSystemCommands (system : SystemConfig.t) : list string :=
  if_string (SystemConfig.hostName system) (fun h =>
    ["set system host-name " ^ sanitizeConfigValue h])
  ++ if_string (SystemConfig.domainName system) (fun d =>
    ["set system domain-name " ^ sanitizeConfigValue d])
  ++ if_string (SystemConfig.timeZone system) (fun z =>
    ["set system time-zone " ^ sanitizeConfigValue z])
  ++ if_object (SystemConfig.nameServer system) (fun servers =>
    map (fun ns => "set system name-server " ^ ns) servers)
  ++ if_object (SystemConfig.ntp system) (fun ntp =>
    map (fun server => "set system ntp server " ^ server) (NTPConfig.servers ntp)
    ++ if_object (NTPConfig.allowClients ntp) (fun clients =>
         map (fun client => "set system ntp allow-clients address " ^ client)
           clients))
  ++ if_object (SystemConfig.login system) (fun login =>
    flat_map buildUserCommands (LoginConfig.users login)).


(* ================================================================== *)
(** ** Configuration tree *)
(* ================================================================== *)

(** A value of the configuration tree as the parser's [any]-typed code sees
    it: [Leaf] is the value [true] that ends a statement path, [Branch] is an
    object keyed by path segments, and [Null] stands for [null] (which
    [parse] never produces but a caller can pass). *)
#[local] Set Warnings "-register-all".
Inductive node : Type :=
| Null
| Leaf
| Branch (props : list (string * node)).

Definition bind {A B} (r : result A) (k : A -> result B) : result B :=
  match r with
  | Ok a => k a
  | Throw e => Throw e
  end.

Notation "x <- r ;; k" := (bind r (fun x => k))
  (at level 61, r at next level, right associativity).

(** [typeof n === 'object'] *)
Definition typeof_object (n : node) : bool :=
  match n with
  | Leaf => false
  | Null | Branch _ => true
  end.

(** A value is truthy unless it is [undefined] or [null]. *)
Definition truthy (o : option node) : option node :=
  match o with
  | Some Null => None
  | other => other
  end.

(** [n[k]] for a receiver [n] that is not [null]; [None] is [undefined]. *)
Definition get (n : node) (k : string) : option node :=
  match n with
  | Branch props => lookup k props
  | _ => None
  end.

(** [o?.[k]]: [undefined] when the receiver is [undefined] or [null]. *)
Definition oget (o : option node) (k : string) : option node :=
  match truthy o with
  | Some n => get n k
  | None => None
  end.

(** The value of [n[k]] when it is truthy. *)
Definition field (n : node) (k : string) : option node := truthy (get n k).

(** [Object.entries(n)] for a receiver that is not [null]. *)
Definition entries_of (n : node) : list (string * node) :=
  match n with
  | Branch props => entries props
  | _ => []
  end.

(** [Object.keys(n)] for a receiver that is not [null]. *)
Definition keys (n : node) : list string := map fst (entries_of n).

(** [Object.keys(n)[0]] *)
Definition first_key (n : node) : option string := hd_error (keys n).

(** [Object.keys(o || {})[0]] *)
Definition first_key_or_empty (o : option node) : option string :=
  match truthy o with
  | Some n => first_key n
  | None => None
  end.

(** [s || dflt] on an optional string. *)
Definition or_default (o : option string) (dflt : string) : string :=
  match truthy_string o with
  | Some s => s
  | None => dflt
  end.

(** [!!x] *)
Definition is_truthy (o : option node) : bool :=
  match truthy o with Some _ => true | None => false end.

(** The names of the properties that every object inherits from
    [Object.prototype].  Reading [n[k]] for such a [k] that [n] does not hold
    itself yields a built-in object of the engine, and assigning to
    [n["__proto__"]] does not create a property. *)
Definition inherited_names : list string :=
  ["constructor"; "__defineGetter__"; "__defineSetter__"; "hasOwnProperty";
   "__lookupGetter__"; "__lookupSetter__"; "isPrototypeOf";
   "propertyIsEnumerable"; "toString"; "valueOf"; "__proto__";
   "toLocaleString"].

(** A key that names no inherited property: for such keys an object is the
    dictionary of the properties it holds itself. *)
Definition own_name (k : string) : bool :=
  negb (existsb (String.eqb k) inherited_names).

(** [n[k] = v] in strict-mode code (class bodies are strict): assignment to a
    property of [null] or of a boolean throws.  The embedding is that of the
    source for the keys of [own_name]. *)
Definition set_prop (n : node) (k : string) (v : node) : result node :=
  match n with
  | Branch props => Ok (Branch (assign k v props))
  | Null =>
      Throw (TypeError ("Cannot set properties of null (setting '" ^ k ^ "')"))
  | Leaf =>
      Throw (TypeError ("Cannot create property '" ^ k ^ "' on boolean 'true'"))
  end.

(* ================================================================== *)
(** ** Configuration Parser (main/services/vyos/ConfigParser.ts) *)
(* ================================================================== *)

(** The tokenizer loop of [addToTree]: [current] and [inQuotes] are the
    loop's variables, the result is the final [parts]. *)
Fixpoint split_parts (path : string) (current : string) (inQuotes : bool)
  : list string :=
  match path with
  | EmptyString => if non_empty current then [current] else []
  | String char rest =>
      if (Ascii.eqb char squote || Ascii.eqb char dquote)%bool
      then split_parts rest current (negb inQuotes)
      else if (Ascii.eqb char space && negb inQuotes)%bool
      then if non_empty current
           then current :: split_parts rest EmptyString inQuotes
           else split_parts rest current inQuotes
      else split_parts rest (current ^ String char EmptyString) inQuotes
  end.

(** The tree-building half of [addToTree].  For an empty [parts] the source
    reads [parts[-1]], which is [undefined], and sets the key ["undefined"].
    The walk looks a segment up among the properties a node holds itself: the
    embedding is that of the source for segments of [own_name] (through an
    inherited name the source's walk leaves the tree for a built-in object of
    the engine). *)
Fixpoint add_parts (n : node) (parts : list string) : result node :=
  match parts with
  | [] => if typeof_object n then set_prop n "undefined" Leaf else Ok n
  | [lastPart] => if typeof_object n then set_prop n lastPart Leaf else Ok n
  | part :: rest =>
      match n with
      | Null =>
          Throw (TypeError
                   ("Cannot read properties of null (reading '" ^ part ^ "')"))
      | Leaf =>
          Throw (TypeError
                   ("Cannot create property '" ^ part ^ "' on boolean 'true'"))
      | Branch props =>
          let child :=
            match truthy (lookup part props) with
            | Some c => c
            | None => Branch []
            end in
          child' <- add_parts child rest ;;
          Ok (Branch (assign part child' props))
      end
  end.

Definition addToTree (tree : node) (path : string) : result node :=
  add_parts tree (split_parts path EmptyString false).

Definition parse_line (tree : node) (line : string) : result node :=
  let trimmed := trim line in
  if (negb (non_empty trimmed) || negb (startsWith trimmed "set "))%bool
  then Ok tree
  else addToTree tree (substring_from 4 trimmed).

Fixpoint parse_lines (tree : node) (lines : list string) : result node :=
  match lines with
  | [] => Ok tree
  | line :: lines' => tree' <- parse_line tree line ;; parse_lines tree' lines'
  end.

Definition parse (configText : string) : result node :=
  parse_lines (Branch []) (split_lines configText).

(** The pattern [xs.forEach(x => { try { out.push(f(x)) } catch { log } })]:
    an element whose reconstruction throws contributes nothing. *)
Definition try_each {A B} (f : A -> result B) (xs : list A) : list B :=
  flat_map (fun x => match f x with Ok b => [b] | Throw _ => [] end) xs.

(** [xs.forEach(x => { out.push(...f(x)) })] without a handler: the first
    exception ends the loop and propagates. *)
Fixpoint for_each {A B} (f : A -> result (list B)) (xs : list A)
  : result (list B) :=
  match xs with
  | [] => Ok []
  | x :: xs' => bs <- f x ;; rest <- for_each f xs' ;; Ok (bs ++ rest)
  end.

(** [name.split('.')[0]] *)
Fixpoint before_dot (s : string) : string :=
  match s with
  | EmptyString => EmptyString
  | String c s' => if Ascii.eqb c "."%char then EmptyString
                   else String c (before_dot s')
  end.

(** One step of the address loop of [parseInterface]. *)
Definition add_address (a : AddressConfig.t) (addr : string) : AddressConfig.t :=
  if String.eqb addr "dhcp" then
    AddressConfig.mk (AddressConfig.ipv4 a) (AddressConfig.ipv6 a)
      true (AddressConfig.dhcpv6 a)
  else if String.eqb addr "dhcpv6" then
    AddressConfig.mk (AddressConfig.ipv4 a) (AddressConfig.ipv6 a)
      (AddressConfig.dhcp a) true
  else if includes addr ":" then
    AddressConfig.mk (AddressConfig.ipv4 a) (AddressConfig.ipv6 a ++ [addr])
      (AddressConfig.dhcp a) (AddressConfig.dhcpv6 a)
  else
    AddressConfig.mk (AddressConfig.ipv4 a ++ [addr]) (AddressConfig.ipv6 a)
      (AddressConfig.dhcp a) (AddressConfig.dhcpv6 a).

(** [config.member?.interface ? Object.keys(config.member.interface) : []] *)
Definition member_interfaces (config : node) : list string :=
  match truthy (oget (get config "member") "interface") with
  | Some m => keys m
  | None => []
  end.

Definition parseInterface (name type : string) (config : node)
  : result NetworkInterface.t :=
  match config with
  | Null => Throw (TypeError "Cannot read properties of null (reading 'disable')")
  | _ =>
      Ok (NetworkInterface.mk
            name
            type
            (match field config "description" with
             | Some d => Some (or_default (first_key d) "")
             | None => None
             end)
            (negb (is_truthy (get config "disable")))
            (match field config "mtu" with
             | Some m => Some (parseInt_opt (first_key m))
             | None => None
             end)
            (match field config "mac" with
             | Some m => first_key m
             | None => None
             end)
            (match field config "address" with
             | Some a =>
                 fold_left add_address (keys a)
                   (AddressConfig.mk [] [] false false)
             | None => AddressConfig.mk [] [] false false
             end)
            (if String.eqb type "vlan" then
               match field config "vlan" with
               | Some v =>
                   Some (VLANConfig.mk
                           (parseInt_opt (first_key_or_empty (get v "id")))
                           (before_dot name))
               | None => None
               end
             else None)
            (if String.eqb type "bond" then
               Some (BondConfig.mk
                       (or_default (first_key_or_empty (get config "mode")) "802.3ad")
                       (member_interfaces config)
                       (match field config "primary" with
                        | Some p => first_key p
                        | None => None
                        end)
                       (match field config "hash-policy" with
                        | Some h => first_key h
                        | None => None
                        end))
             else None)
            (if String.eqb type "bridge" then
               Some (BridgeConfig.mk
                       (member_interfaces config)
                       (is_truthy (get config "stp"))
                       (match field config "aging" with
                        | Some a => Some (parseInt_opt (first_key a))
                        | None => None
                        end)
                       (match field config "max-age" with
                        | Some a => Some (parseInt_opt (first_key a))
                        | None => None
                        end))
             else None))
  end.

Definition parseInterfaces (config : node) : result (list NetworkInterface.t) :=
  match config with
  | Null => Throw (TypeError "Cannot read properties of null (reading 'interfaces')")
  | _ =>
      match field config "interfaces" with
      | None => Ok []
      | Some all =>
          for_each (fun '(type, ifaces) =>
            match ifaces with
            | Leaf => Ok []
            | Null => Throw (TypeError "Cannot convert undefined or null to object")
            | Branch _ =>
                Ok (try_each (fun '(name, ifaceConfig) =>
                      parseInterface name type ifaceConfig) (entries_of ifaces))
            end) (entries_of all)
      end
  end.

(** The next-hop and interface blocks of [parseStaticRoutes]: the first key
    of [routeConfig[label]] and the distance stored below it. *)
Definition route_target (routeConfig : node) (label : string)
  : option (string * option number) :=
  match field routeConfig label with
  | Some targets =>
      match keys targets with
      | first :: _ =>
          Some (first,
                match truthy (oget (get targets first) "distance") with
                | Some d => Some (parseInt_opt (first_key d))
                | None => None
                end)
      | [] => None
      end
  | None => None
  end.

Definition parseStaticRoute (network : string) (routeConfig : node)
  : result StaticRoute.t :=
  match routeConfig with
  | Null => Throw (TypeError "Cannot read properties of null (reading 'description')")
  | _ =>
      let hop := route_target routeConfig "next-hop" in
      let ifc := route_target routeConfig "interface" in
      Ok (StaticRoute.mk
            network
            (option_map fst hop)
            (option_map fst ifc)
            (match ifc with
             | Some (_, Some d) => Some d
             | _ => match hop with
                    | Some (_, d) => d
                    | None => None
                    end
             end)
            (match field routeConfig "description" with
             | Some d => first_key d
             | None => None
             end))
  end.

Definition parseStaticRoutes (config : node) : result (list StaticRoute.t) :=
  match config with
  | Null => Throw (TypeError "Cannot read properties of null (reading 'protocols')")
  | _ =>
      match truthy (oget (oget (get config "protocols") "static") "route") with
      | None => Ok []
      | Some routes =>
          Ok (try_each (fun '(network, routeConfig) =>
                parseStaticRoute network routeConfig) (entries_of routes))
      end
  end.

Definition parseZoneFrom (fromZone : string) (fromConfig : node)
  : result (list (string * ZoneFirewall.t)) :=
  match fromConfig with
  | Null => Throw (TypeError "Cannot read properties of null (reading 'firewall')")
  | _ =>
      let fw := get fromConfig "firewall" in
      Ok [(fromZone,
           ZoneFirewall.mk (first_key_or_empty (oget fw "name"))
                           (first_key_or_empty (oget fw "ipv6-name")))]
  end.

(** [zone.from[fromZone] = ...] for each entry in turn. *)
Fixpoint assign_all {A} (kvs : list (string * A)) (o : list (string * A))
  : list (string * A) :=
  match kvs with
  | [] => o
  | (k, v) :: kvs' => assign_all kvs' (assign k v o)
  end.

Definition parseFirewallZone (name : string) (zoneConfig : node)
  : result FirewallZone.t :=
  match zoneConfig with
  | Null => Throw (TypeError "Cannot read properties of null (reading 'default-action')")
  | _ =>
      from <- match field zoneConfig "from" with
              | Some f =>
                  kvs <- for_each (fun '(fromZone, fromConfig) =>
                           parseZoneFrom fromZone fromConfig) (entries_of f) ;;
                  Ok (assign_all kvs [])
              | None => Ok []
              end ;;
      Ok (FirewallZone.mk
            name
            (match field zoneConfig "description" with
             | Some d => first_key d
             | None => None
             end)
            (or_default (first_key_or_empty (get zoneConfig "default-action")) "drop")
            (match truthy (get zoneConfig "interface") with
             | Some i => keys i
             | None => []
             end)
            from)
  end.

Definition parseFirewallZones (config : node) : result (list FirewallZone.t) :=
  match config with
  | Null => Throw (TypeError "Cannot read properties of null (reading 'zone-policy')")
  | _ =>
      match truthy (oget (get config "zone-policy") "zone") with
      | None => Ok []
      | Some zones =>
          Ok (try_each (fun '(name, zoneConfig) =>
                parseFirewallZone name zoneConfig) (entries_of zones))
      end
  end.

(** A [source] / [destination] / [translation] block holding at most an
    address and a port. *)
Definition parse_address_port (o : option node) : option (option string * option string) :=
  match truthy o with
  | Some s =>
      Some (match field s "address" with
            | Some a => first_key a
            | None => None
            end,
            match field s "port" with
            | Some p => first_key p
            | None => None
            end)
  | None => None
  end.

Definition parseFirewallRule (number : number) (config : node)
  : result FirewallRule.t :=
  match config with
  | Null => Throw (TypeError "Cannot read properties of null (reading 'action')")
  | _ =>
      let endpoint (k : string) :=
        option_map (fun '(a, p) => FirewallAddress.mk a p None)
          (parse_address_port (get config k)) in
      Ok (FirewallRule.mk
            number
            (or_default (first_key_or_empty (get config "action")) "drop")
            (match field config "description" with
             | Some d => first_key d
             | None => None
             end)
            (match field config "protocol" with
             | Some p => first_key p
             | None => None
             end)
            (endpoint "source")
            (endpoint "destination")
            (match field config "state" with
             | Some st =>
                 Some (RuleState.mk
                         (Some (is_truthy (get st "established")))
                         (Some (is_truthy (get st "related")))
                         (Some (is_truthy (get st "new")))
                         (Some (is_truthy (get st "invalid"))))
             | None => None
             end)
            (Some (is_truthy (get config "log")))
            (Some (is_truthy (get config "disable"))))
  end.

Definition parseFirewallRuleset (name : string) (rulesetConfig : node)
  : result FirewallRuleset.t :=
  match rulesetConfig with
  | Null => Throw (TypeError "Cannot read properties of null (reading 'default-action')")
  | _ =>
      Ok (FirewallRuleset.mk
            name
            (match field rulesetConfig "description" with
             | Some d => first_key d
             | None => None
             end)
            (or_default (first_key_or_empty (get rulesetConfig "default-action")) "drop")
            (Some (is_truthy (get rulesetConfig "enable-default-log")))
            (match field rulesetConfig "rule" with
             | Some rules =>
                 try_each (fun '(number, ruleConfig) =>
                   parseFirewallRule (parseInt number) ruleConfig) (entries_of rules)
             | None => []
             end))
  end.

Definition parseFirewallRulesets (config : node)
  : result (list FirewallRuleset.t) :=
  match config with
  | Null => Throw (TypeError "Cannot read properties of null (reading 'firewall')")
  | _ =>
      match truthy (oget (get config "firewall") "name") with
      | None => Ok []
      | Some rulesets =>
          Ok (try_each (fun '(name, rulesetConfig) =>
                parseFirewallRuleset name rulesetConfig) (entries_of rulesets))
      end
  end.

Definition parseNATRule (type : string) (number : number) (config : node)
  : result NATRule.t :=
  match config with
  | Null => Throw (TypeError "Cannot read properties of null (reading 'description')")
  | _ =>
      let block (k : string) :=
        option_map (fun '(a, p) => NATAddress.mk a p)
          (parse_address_port (get config k)) in
      let scalar (k : string) :=
        match field config k with
        | Some x => first_key x
        | None => None
        end in
      Ok (NATRule.mk
            number
            type
            (scalar "description")
            (Some (is_truthy (get config "disable")))
            (scalar "outbound-interface")
            (scalar "inbound-interface")
            (block "source")
            (block "destination")
            (block "translation")
            (scalar "protocol"))
  end.

Definition parseNATRules (config : node)
  : result (list NATRule.t * list NATRule.t) :=
  match config with
  | Null => Throw (TypeError "Cannot read properties of null (reading 'nat')")
  | _ =>
      match field config "nat" with
      | None => Ok ([], [])
      | Some nat =>
          let rules_of (type : string) :=
            match truthy (oget (get nat type) "rule") with
            | Some rules =>
                try_each (fun '(number, ruleConfig) =>
                  parseNATRule type (parseInt number) ruleConfig) (entries_of rules)
            | None => []
            end in
          Ok (rules_of "source", rules_of "destination")
      end
  end.

Definition parseIPSecSites (config : node) : result (list IPSecSite.t) :=
  match config with
  | Null => Throw (TypeError "Cannot read properties of null (reading 'vpn')")
  | _ =>
      match truthy (oget (oget (oget (get config "vpn") "ipsec") "site-to-site") "peer") with
      | None => Ok []
      | Some peers =>
          (* each peer only logs a warning; nothing is pushed *)
          Ok (flat_map (fun _ : string * node => []) (entries_of peers))
      end
  end.

Definition parseSystemConfig (config : node) : result SystemConfig.t :=
  match config with
  | Null => Throw (TypeError "Cannot read properties of null (reading 'system')")
  | _ =>
      match field config "system" with
      | None =>
          Ok (SystemConfig.mk None None None (Some [])
                (Some (NTPConfig.mk [] None)) (Some (LoginConfig.mk [])))
      | Some sysConfig =>
          let scalar (k : string) :=
            match field sysConfig k with
            | Some x => first_key x
            | None => None
            end in
          Ok (SystemConfig.mk
                (scalar "host-name")
                (scalar "domain-name")
                (scalar "time-zone")
                (Some (match field sysConfig "name-server" with
                       | Some ns => keys ns
                       | None => []
                       end))
                (Some (NTPConfig.mk
                         (match truthy (oget (get sysConfig "ntp") "server") with
                          | Some s => keys s
                          | None => []
                          end)
                         None))
                (Some (LoginConfig.mk
                         (match truthy (oget (get sysConfig "login") "user") with
                          | Some us =>
                              map (fun '(username, _) =>
                                     SystemUser.mk username None
                                       (UserAuth.mk None None None) None)
                                (entries_of us)
                          | None => []
                          end))))
      end
  end.

(* ================================================================== *)
(** ** Interactive shell (main/services/ssh/SSHClient.ts) *)
(* ================================================================== *)

Definition VYOS_COMMAND_TIMEOUT : Z := 30000.
Definition VYOS_COMMIT_TIMEOUT : Z := 60000.

Module VYOS_COMMANDS.
Definition ENTER_CONFIG : string := "configure".
Definition EXIT_CONFIG : string := "exit".
Definition COMMIT : string := "commit".
Definition SAVE : string := "save".
Definition ROLLBACK : string := "rollback".
End VYOS_COMMANDS.

(** The variables of the promise body of [SSHClient.shell], together with
    what has been written to the stream and whether [stream.end()] was
    called. *)
Record shell_state : Type := mk_shell_state
  { sh_output : string;
    sh_commandIndex : nat;
    sh_shellReady : bool;
    sh_written : list string;
    sh_ended : bool }.

Definition shell_start : shell_state :=
  mk_shell_state EmptyString 0 false [] false.

Definition has_prompt (text : string) : bool :=
  (includes text "$" || includes text "#")%bool.

(** The ['data'] handler of [SSHClient.shell]. *)
Definition on_data (commands : list string) (st : shell_state) (text : string)
  : shell_state :=
  let output := sh_output st ^ text in
  let shellReady := (sh_shellReady st || has_prompt text)%bool in
  let send :=
    (shellReady && (sh_commandIndex st <? length commands)%nat
     && (has_prompt text || includes text "[edit]"))%bool in
  let commandIndex :=
    if send then S (sh_commandIndex st) else sh_commandIndex st in
  let written :=
    if send
    then sh_written st ++ [nth (sh_commandIndex st) commands EmptyString ^ String nl EmptyString]
    else sh_written st in
  let ended :=
    (sh_ended st || ((length commands <=? commandIndex)%nat && has_prompt text))%bool in
  mk_shell_state output commandIndex shellReady written ended.

(** The handler run over the chunks the device sends, stopping once the
    stream has been ended. *)
Fixpoint shell_run (commands : list string) (st : shell_state)
  (chunks : list string) : shell_state :=
  match chunks with
  | [] => st
  | text :: chunks' =>
      if sh_ended st then st
      else shell_run commands (on_data commands st text) chunks'
  end.

(* ================================================================== *)
(** ** Command Executor (main/services/vyos/CommandExecutor) *)
(* ================================================================== *)

(** One invocation of [sshClient.shell(commands, timeout)]. *)
Record shell_call : Type := mk_shell_call
  { call_commands : list string; call_timeout : Z }.

(** The device behind the SSH client: what a shell invocation resolves to
    (the transcript) or rejects with, given the invocations made before. *)
Definition device : Type := list shell_call -> shell_call -> result string.

(** Executor code runs against the log of shell invocations issued so far. *)
Definition exec (A : Type) : Type :=
  list shell_call -> result A * list shell_call.

Definition ret {A} (a : A) : exec A := fun log => (Ok a, log).

Definition throw {A} (e : error) : exec A := fun log => (Throw e, log).

Definition bind_exec {A B} (m : exec A) (k : A -> exec B) : exec B :=
  fun log =>
    match m log with
    | (Ok a, log') => k a log'
    | (Throw e, log') => (Throw e, log')
    end.

Notation "x <~ m ;; k" := (bind_exec m (fun x => k))
  (at level 61, m at next level, right associativity).

(** [try { body } catch (e) { handler(e) }] *)
Definition try_catch {A} (body : exec A) (handler : error -> exec A) : exec A :=
  fun log =>
    match body log with
    | (Ok a, log') => (Ok a, log')
    | (Throw e, log') => handler e log'
    end.

Definition shell (dev : device) (commands : list string) (timeout : Z)
  : exec string :=
  fun log =>
    let call := mk_shell_call commands timeout in
    (dev log call, log ++ [call]).

Record ExecutionOptions : Type := mk_options
  { commit : option bool; save : option bool; timeout : option Z }.

(** The parameter default [options = {}]. *)
Definition default_options : ExecutionOptions := mk_options None None None.

(** A destructuring default [{ x = d }]. *)
Definition or_else {A} (o : option A) (d : A) : A :=
  match o with Some a => a | None => d end.

(** The regular expression [/\[.*\]\s*ERROR/], from just after a [[]: some
    characters other than line terminators, a []], white space, [ERROR]. *)
Fixpoint matches_close_error (s : string) : bool :=
  match s with
  | EmptyString => false
  | String c s' =>
      ((Ascii.eqb c "]"%char && String.prefix "ERROR" (trimStart s'))
       || (negb (is_line_terminator c) && matches_close_error s'))%bool
  end.

Fixpoint matches_bracket_error (s : string) : bool :=
  match s with
  | EmptyString => false
  | String c s' =>
      ((Ascii.eqb c "["%char && matches_close_error s')
       || matches_bracket_error s')%bool
  end.

Definition is_error_line (trimmed : string) : bool :=
  (includes trimmed "Error:"
   || includes trimmed "Invalid"
   || includes trimmed "Failed"
   || includes trimmed "Configuration path:"
   || matches_bracket_error trimmed)%bool.

Definition parseErrors (output : string) : list string :=
  filter is_error_line (map trim (split_lines output)).

Definition failurePatterns : list string :=
  ["Commit failed";
   "Configuration commit aborted";
   "Pre-commit check failed";
   "Error: Configuration path";
   "Validation failed"].

Definition hasCommitFailed (output : string) : bool :=
  existsb (fun pattern => includes output pattern) failurePatterns.

Definition rollback_commands (revision : number) : list string :=
  [VYOS_COMMANDS.ENTER_CONFIG;
   VYOS_COMMANDS.ROLLBACK ^ " " ^ number_to_string revision;
   VYOS_COMMANDS.COMMIT;
   VYOS_COMMANDS.SAVE;
   VYOS_COMMANDS.EXIT_CONFIG].

Definition rollback (dev : device) (revision : number) : exec unit :=
  try_catch
    (output <~ shell dev (rollback_commands revision) VYOS_COMMAND_TIMEOUT ;;
     if hasCommitFailed output
     then throw (VyOSCommitError "Rollback commit failed" output)
     else ret tt)
    (fun error => throw error).

Definition fullCommands (commands : list string) (options : ExecutionOptions)
  : list string :=
  [VYOS_COMMANDS.ENTER_CONFIG] ++ commands
  ++ (if or_else (commit options) true then [VYOS_COMMANDS.COMMIT] else [])
  ++ (if or_else (save options) true then [VYOS_COMMANDS.SAVE] else [])
  ++ [VYOS_COMMANDS.EXIT_CONFIG].

Definition executeWithRollback (dev : device) (commands : list string)
  (options : ExecutionOptions) : exec unit :=
  try_catch
    (output <~ shell dev (fullCommands commands options)
                 (or_else (timeout options) VYOS_COMMIT_TIMEOUT) ;;
     let errors := parseErrors output in
     if (0 <? length errors)%nat
     then throw (VyOSCommandError
                   ("Command execution failed: " ^ join ", " errors)
                   (join (String nl EmptyString) commands)
                   output)
     else if (or_else (commit options) true && hasCommitFailed output)%bool
     then throw (VyOSCommitError "Commit failed" output)
     else ret tt)
    (fun error =>
       _ <~ try_catch (rollback dev (Num 0))
              (fun rollbackError =>
                 throw (VyOSCommandError
                          ("Command execution failed and rollback also failed: "
                           ^ error_message rollbackError)
                          (join (String nl EmptyString) commands)
                          (error_message error))) ;;
       throw error).

(** [render]: a statement list as the text of a configuration dump, one
    statement per line. *)
Definition render (statements : list string) : string :=
  join (String nl EmptyString) statements.

(* ================================================================== *)
(** ** Vocabulary of the specifications *)
(* ================================================================== *)

(** The characters of a string. *)
Definition chars (s : string) : list ascii := list_ascii_of_string s.

(** What the sanitizer wraps a value into when it quotes it. *)
Definition quoted (value : string) : string :=
  "'" ^ escape_quotes value ^ "'".

(** The replacement the sanitizer applies to one character. *)
Definition escape_char (c : ascii) : string :=
  if Ascii.eqb c squote then String backslash (String squote EmptyString)
  else String c EmptyString.

(** A value with a tab between two letters: white space, but no space. *)
Definition tabbed_value : string := String "a"%char (String tab "b").

(** The model of the end-to-end scenario: ethernet interface eth1,
    description "LAN Interface", one IPv4 address, enabled. *)
Definition eth1_lan : NetworkInterface.t :=
  NetworkInterface.mk "eth1" "ethernet" (Some "LAN Interface") true None None
    (AddressConfig.mk ["192.168.1.1/24"] [] false false) None None None.

(** Commit and save both requested. *)
Definition commit_and_save : ExecutionOptions :=
  mk_options (Some true) (Some true) None.

(** The shell invocation that carries a batch. *)
Definition batch_call (commands : list string) (options : ExecutionOptions)
  : shell_call :=
  mk_shell_call (fullCommands commands options)
    (or_else (timeout options) VYOS_COMMIT_TIMEOUT).

(** The shell invocation that carries the compensating rollback. *)
Definition rollback_call : shell_call :=
  mk_shell_call (rollback_commands (Num 0)) VYOS_COMMAND_TIMEOUT.

(** A statement as written to the stream. *)
Definition with_newline (command : string) : string :=
  command ^ String nl EmptyString.

(** A device that answers its n-th shell invocation with the n-th scripted
    response, and with an empty transcript afterwards. *)
Definition scripted (responses : list (result string)) : device :=
  fun log _ => nth (length log) responses (Ok EmptyString).

(** A transcript in which the commit statement is answered by an error line
    followed by the text "Commit failed". *)
Definition failed_commit_transcript : string :=
  "vyos@vyos# commit" ^ String nl
  ("Error: interface eth9 does not exist" ^ String nl
  ("Commit failed" ^ String nl "[edit]")).

(** The configuration paths of the objects that carry an enabled/disabled
    flag. *)
Definition interface_path (iface : NetworkInterface.t) : string :=
  "interfaces " ^ NetworkInterface.type iface ^ " " ^ NetworkInterface.name iface.

Definition firewall_rule_path (rulesetName : string) (rule : FirewallRule.t)
  : string :=
  "firewall name " ^ rulesetName ^ " rule "
  ^ number_to_string (FirewallRule.number rule).

Definition nat_rule_path (rule : NATRule.t) : string :=
  "nat " ^ NATRule.type rule ^ " rule " ^ number_to_string (NATRule.number rule).

(** An enable/disable statement for the object at [path]. *)
Definition is_toggle (path statement : string) : bool :=
  (String.eqb statement ("delete " ^ path ^ " disable")
   || String.eqb statement ("set " ^ path ^ " disable"))%bool.

(** A firewall rule that is enabled: rule 10 of ruleset WAN, accepting TCP
    from source ports "80, 443" (a caller-supplied literal with a space). *)
Definition wan_rule_10 : FirewallRule.t :=
  FirewallRule.mk (Num 10) "accept" None (Some "tcp")
    (Some (FirewallAddress.mk None (Some "80, 443") None))
    None None None (Some false).

(** A source NAT rule that is enabled. *)
Definition snat_rule_100 : NATRule.t :=
  NATRule.mk (Num 100) "source" None (Some false) (Some "eth0") None
    None None (Some (NATAddress.mk (Some "masquerade") None)) None.

(** A configuration tree with one IPsec site-to-site peer. *)
Definition ipsec_peer_tree : node :=
  Branch
    [("vpn",
      Branch
        [("ipsec",
          Branch
            [("site-to-site",
              Branch
                [("peer",
                  Branch
                    [("203.0.113.7",
                      Branch
                        [("authentication",
                          Branch [("mode", Branch [("pre-shared-secret", Leaf)])]);
                         ("ike-group", Branch [("IKE-1", Leaf)]);
                         ("local-address", Branch [("198.51.100.1", Leaf)])])])])])])].

(** A tree of static routes in which the configuration of the first route is
    [null]. *)
Definition routes_with_null : node :=
  Branch
    [("protocols",
      Branch
        [("static",
          Branch
            [("route",
              Branch
                [("10.0.0.0/8", Null);
                 ("10.1.0.0/16",
                  Branch [("next-hop", Branch [("192.0.2.1", Leaf)])])])])])].

(** The node a statement path leads to, following truthy children. *)
Fixpoint at_path (n : node) (path : list string) : option node :=
  match path with
  | [] => Some n
  | k :: rest =>
      match field n k with
      | Some child => at_path child rest
      | None => None
      end
  end.

(** The tree of the single statement [set service ssh]. *)
Definition ssh_leaf_tree : node :=
  Branch [("service", Branch [("ssh", Leaf)])].

(** The tree of the single statement [set service ssh port]. *)
Definition ssh_port_tree : node :=
  Branch [("service", Branch [("ssh", Branch [("port", Leaf)])])].

(** *** Round trip: well-formed literals *)

(** A character that is neither white space nor a quote. *)
Definition plain_char (c : ascii) : bool :=
  negb (is_whitespace c || Ascii.eqb c squote || Ascii.eqb c dquote).

(** A character of a free-text value: a space or a plain character. *)
Definition text_char (c : ascii) : bool :=
  (Ascii.eqb c space || plain_char c)%bool.

Definition all_chars (p : ascii -> bool) (s : string) : bool :=
  forallb p (chars s).

(** A literal that is embedded as it is and read back as one token: not
    empty, no white space, no quote. *)
Definition plain_token (s : string) : bool :=
  (non_empty s && all_chars plain_char s)%bool.

(** A free-text literal: not empty, made of spaces and plain characters. *)
Definition text_value (s : string) : bool :=
  (non_empty s && all_chars text_char s)%bool.

(** A string without line feed. *)
Definition no_nl (s : string) : bool :=
  all_chars (fun c => negb (Ascii.eqb c nl)) s.

(** A string whose last character is not white space. *)
Definition ends_well (s : string) : bool :=
  (non_empty s && String.eqb (trimEnd s) s)%bool.

(** *** Round trip: statements as token lists *)

(** The tokens of a configuration line, when the parser keeps the line. *)
Definition lex_line (line : string) : option (list string) :=
  let trimmed := trim line in
  if (negb (non_empty trimmed) || negb (startsWith trimmed "set "))%bool
  then None
  else Some (split_parts (substring_from 4 trimmed) EmptyString false).

Definition lex (lines : list string) : list (list string) :=
  flat_map (fun line => match lex_line line with
                        | Some parts => [parts]
                        | None => []
                        end) lines.

(** The tree-building half of [parse] over token lists. *)
Fixpoint add_all (tree : node) (paths : list (list string)) : result node :=
  match paths with
  | [] => Ok tree
  | parts :: paths' => tree' <- add_parts tree parts ;; add_all tree' paths'
  end.

(** The chain of single-key branches that a path prefix builds. *)
Fixpoint wrap (prefix : list string) (n : node) : node :=
  match prefix with
  | [] => n
  | k :: prefix' => Branch [(k, wrap prefix' n)]
  end.

(** [props] with key [k] set when a value is given. *)
Definition opt_assign (k : string) (o : option node) (props : list (string * node))
  : list (string * node) :=
  match o with
  | Some v => assign k v props
  | None => props
  end.

(** The node holding one scalar value: the value is its only key. *)
Definition scalar (value : string) : node := Branch [(value, Leaf)].

(** The node holding a set of values: each value is a key. *)
Definition leaves (values : list string) : node :=
  Branch (map (fun v => (v, Leaf)) values).

(** *** Round trip: trees and their statement paths *)

(** The statement paths of a tree, in key order: one path per leaf. *)
Fixpoint paths_of (n : node) : list (list string) :=
  match n with
  | Null => []
  | Leaf => [[]]
  | Branch props =>
      flat_map (fun kc => map (cons (fst kc)) (paths_of (snd kc))) props
  end.

Fixpoint distinct (ks : list string) : bool :=
  match ks with
  | [] => true
  | k :: ks' => (negb (existsb (String.eqb k) ks') && distinct ks')%bool
  end.

(** A tree as a list of statements builds it: no [null], no empty branch,
    no key twice in a branch. *)
Fixpoint canonical (n : node) : bool :=
  match n with
  | Null => false
  | Leaf => true
  | Branch props =>
      (match props with [] => false | _ => true end
       && distinct (map fst props)
       && forallb (fun kc => canonical (snd kc)) props)%bool
  end.

(** The properties that are present among optional ones. *)
Definition present (opts : list (string * option node)) : list (string * node) :=
  flat_map (fun ko => match snd ko with
                      | Some v => [(fst ko, v)]
                      | None => []
                      end) opts.

(** Induction on trees, with the hypothesis available for every child. *)
Section NodeInduction.
Variable P : node -> Prop.
Hypothesis HNull : P Null.
Hypothesis HLeaf : P Leaf.
Hypothesis HBranch :
  forall props, Forall (fun kc => P (snd kc)) props -> P (Branch props).

Fixpoint node_induction (n : node) : P n :=
  match n with
  | Null => HNull
  | Leaf => HLeaf
  | Branch props =>
      HBranch props
        ((fix children (l : list (string * node))
            : Forall (fun kc => P (snd kc)) l :=
            match l with
            | [] => Forall_nil _
            | kc :: l' => Forall_cons kc (node_induction (snd kc)) (children l')
            end) props)
  end.
End NodeInduction.

(** A statement list together with the token lists the parser reads from
    it. *)
Definition lexes (statements : list string) (paths : list (list string)) : Prop :=
  Forall (fun s => no_nl s = true) statements
  /\ lex statements = paths
  /\ (existsb (fun s => startsWith s "set ") statements = true -> paths <> []).

(** The first value among the options stored under a key. *)
Fixpoint lookup_opt (k : string) (opts : list (string * option node))
  : option node :=
  match opts with
  | [] => None
  | (k', o) :: opts' =>
      if String.eqb k k'
      then match o with
           | Some v => Some v
           | None => lookup_opt k opts'
           end
      else lookup_opt k opts'
  end.

(** *** Round trip: network interfaces *)

(** The token of an optional number, when the builder emits it. *)
Definition number_token (o : option number) : option string :=
  match o with
  | Some n => if number_truthy n then Some (number_to_string n) else None
  | None => None
  end.

(** The keys below [address], in statement order. *)
Definition address_tokens (a : AddressConfig.t) : list string :=
  AddressConfig.ipv4 a ++ AddressConfig.ipv6 a
  ++ (if AddressConfig.dhcp a then ["dhcp"] else [])
  ++ (if AddressConfig.dhcpv6 a then ["dhcpv6"] else []).

Definition some_leaves (values : list string) : option node :=
  match values with
  | [] => None
  | _ => Some (leaves values)
  end.

Definition member_node (members : list string) : option node :=
  option_map (fun l => Branch [("interface", l)]) (some_leaves members).

(** The properties of an interface's configuration node, in the order the
    builder's statements create them. *)
Definition interface_options (iface : NetworkInterface.t)
  : list (string * option node) :=
  let type := NetworkInterface.type iface in
  let bond :=
    if String.eqb type "bond" then NetworkInterface.bond iface else None in
  let bridge :=
    if String.eqb type "bridge" then NetworkInterface.bridge iface else None in
  [("description",
    option_map scalar (truthy_string (NetworkInterface.description iface)));
   ("mtu", option_map scalar (number_token (NetworkInterface.mtu iface)));
   ("mac", option_map scalar (truthy_string (NetworkInterface.mac iface)));
   ("address", some_leaves (address_tokens (NetworkInterface.addresses iface)));
   ("vlan",
    if String.eqb type "vlan"
    then option_map
           (fun v => Branch [("id", scalar (number_to_string (VLANConfig.id v)))])
           (NetworkInterface.vlan iface)
    else None);
   ("mode", option_map (fun b => scalar (BondConfig.mode b)) bond);
   ("member",
    match bond, bridge with
    | Some b, _ => member_node (BondConfig.members b)
    | None, Some b => member_node (BridgeConfig.members b)
    | None, None => None
    end);
   ("primary",
    match bond with
    | Some b => option_map scalar (truthy_string (BondConfig.primaryInterface b))
    | None => None
    end);
   ("hash-policy",
    match bond with
    | Some b => option_map scalar (truthy_string (BondConfig.hashPolicy b))
    | None => None
    end);
   ("stp",
    match bridge with
    | Some b => if BridgeConfig.stp b then Some Leaf else None
    | None => None
    end);
   ("aging",
    match bridge with
    | Some b => option_map scalar (number_token (BridgeConfig.aging b))
    | None => None
    end);
   ("max-age",
    match bridge with
    | Some b => option_map scalar (number_token (BridgeConfig.maxAge b))
    | None => None
    end);
   ("disable", if NetworkInterface.enabled iface then None else Some Leaf)].

Definition interface_prefix (iface : NetworkInterface.t) : list string :=
  ["interfaces"; NetworkInterface.type iface; NetworkInterface.name iface].

(** The tree that the statements of an interface build. *)
Definition interface_tree (iface : NetworkInterface.t) : node :=
  wrap (interface_prefix iface) (Branch (present (interface_options iface))).

(** An optional literal that, when present, satisfies [p]. *)
Definition opt_holds (p : string -> bool) (o : option string) : bool :=
  match o with
  | Some s => p s
  | None => true
  end.

(** An optional number that, when present, is truthy (neither [NaN] nor 0). *)
Definition opt_truthy_number (o : option number) : bool :=
  match o with
  | Some n => number_truthy n
  | None => true
  end.

(** A key that [Object.keys] leaves in insertion order. *)
Definition not_index (k : string) : bool :=
  match array_index k with Some _ => false | None => true end.

(** A list of member names that round-trips: plain tokens, none an array
    index, no duplicate. *)
Definition plain_set (values : list string) : bool :=
  (forallb (fun v => plain_token v && not_index v)%bool values
   && distinct values)%bool.

(** The value of an optional field, if any. *)
Definition opt_list {A} (o : option A) : list A :=
  match o with
  | Some a => [a]
  | None => []
  end.

(** Words none of which names an inherited property: as segments of a
    statement path they are looked up and created as the source does. *)
Definition own_names (words : list string) : bool := forallb own_name words.

(** Numbers all of which are safe integers. *)
Definition safe_integers (numbers : list number) : bool :=
  forallb safe_integer numbers.

(** The words of an interface that its statements carry. *)
Definition interface_words (iface : NetworkInterface.t) : list string :=
  [NetworkInterface.name iface; NetworkInterface.type iface]
  ++ opt_list (NetworkInterface.description iface)
  ++ opt_list (NetworkInterface.mac iface)
  ++ AddressConfig.ipv4 (NetworkInterface.addresses iface)
  ++ AddressConfig.ipv6 (NetworkInterface.addresses iface)
  ++ match NetworkInterface.bond iface with
     | Some b =>
         BondConfig.mode b :: BondConfig.members b
         ++ opt_list (BondConfig.primaryInterface b)
         ++ opt_list (BondConfig.hashPolicy b)
     | None => []
     end
  ++ match NetworkInterface.bridge iface with
     | Some b => BridgeConfig.members b
     | None => []
     end.

(** The numbers of an interface that its statements carry. *)
Definition interface_numbers (iface : NetworkInterface.t) : list number :=
  opt_list (NetworkInterface.mtu iface)
  ++ match NetworkInterface.vlan iface with
     | Some v => [VLANConfig.id v]
     | None => []
     end
  ++ match NetworkInterface.bridge iface with
     | Some b => opt_list (BridgeConfig.aging b) ++ opt_list (BridgeConfig.maxAge b)
     | None => []
     end.

(** The interface models whose fields the statement syntax can carry. *)
Record interface_wf (iface : NetworkInterface.t) : Prop := mk_interface_wf
  { wf_name : plain_token (NetworkInterface.name iface) = true;
    wf_type : plain_token (NetworkInterface.type iface) = true;
    wf_description :
      opt_holds text_value (NetworkInterface.description iface) = true;
    wf_mtu : opt_truthy_number (NetworkInterface.mtu iface) = true;
    wf_mac : opt_holds plain_token (NetworkInterface.mac iface) = true;
    wf_ipv4 :
      forallb (fun a => plain_token a && not_index a && negb (includes a ":")
                        && negb (String.eqb a "dhcp")
                        && negb (String.eqb a "dhcpv6"))%bool
        (AddressConfig.ipv4 (NetworkInterface.addresses iface)) = true;
    wf_ipv6 :
      forallb (fun a => plain_token a && not_index a && includes a ":")%bool
        (AddressConfig.ipv6 (NetworkInterface.addresses iface)) = true;
    wf_addresses :
      distinct (AddressConfig.ipv4 (NetworkInterface.addresses iface)
                ++ AddressConfig.ipv6 (NetworkInterface.addresses iface)) = true;
    wf_vlan :
      match NetworkInterface.vlan iface with
      | Some v =>
          NetworkInterface.type iface = "vlan"
          /\ VLANConfig.parentInterface v = before_dot (NetworkInterface.name iface)
      | None => True
      end;
    wf_bond :
      match NetworkInterface.bond iface with
      | Some b =>
          NetworkInterface.type iface = "bond"
          /\ plain_token (BondConfig.mode b) = true
          /\ plain_set (BondConfig.members b) = true
          /\ opt_holds plain_token (BondConfig.primaryInterface b) = true
          /\ opt_holds plain_token (BondConfig.hashPolicy b) = true
      | None => NetworkInterface.type iface <> "bond"
      end;
    wf_bridge :
      match NetworkInterface.bridge iface with
      | Some b =>
          NetworkInterface.type iface = "bridge"
          /\ plain_set (BridgeConfig.members b) = true
          /\ opt_truthy_number (BridgeConfig.aging b) = true
          /\ opt_truthy_number (BridgeConfig.maxAge b) = true
      | None => NetworkInterface.type iface <> "bridge"
      end;
    wf_set :
      existsb (fun s => startsWith s "set ") (buildInterfaceCommands iface) = true;
    wf_own : own_names (interface_words iface) = true;
    wf_safe : safe_integers (interface_numbers iface) = true }.

(** A site-to-site tunnel with one proposal per group and one tunnel. *)
Definition office_vpn : IPSecSite.t :=
  IPSecSite.mk "office" "pre-shared-secret" None "203.0.113.1" "198.51.100.7"
    (IPSecAuth.mk "pre-shared-secret" (Some "s3cret") None None)
    (IKEGroup.mk "IKE-A" [IKEProposal.mk "aes256" "sha256" "14"] None)
    (ESPGroup.mk "ESP-A" [ESPProposal.mk "aes256" "sha256"] None None)
    [IPSecTunnel.mk (Num 1) "10.0.0.0/24" "10.1.0.0/24" None].

(** An interface whose description carries a single quote. *)
Definition eth0_quoted : NetworkInterface.t :=
  NetworkInterface.mk "eth0" "ethernet" (Some "it's") true None None
    (AddressConfig.mk [] [] false false) None None None.

(** An enabled interface with no optional field. *)
Definition eth2_bare : NetworkInterface.t :=
  NetworkInterface.mk "eth2" "ethernet" None true None None
    (AddressConfig.mk [] [] false false) None None None.

(** A static route with a next hop and an administrative distance. *)
Definition backup_route : StaticRoute.t :=
  StaticRoute.mk "10.9.0.0/16" (Some "192.0.2.1") None (Some (Num 20)) None.

(** *** Round trip: static routes *)

(** The properties of a route's node, in the order the builder's statements
    create them; the builder takes the interface only when there is no next
    hop. *)
Definition route_options (route : StaticRoute.t) : list (string * option node) :=
  [("next-hop", option_map scalar (truthy_string (StaticRoute.nextHop route)));
   ("interface",
    match truthy_string (StaticRoute.nextHop route) with
    | Some _ => None
    | None => option_map scalar (truthy_string (StaticRoute.interface route))
    end);
   ("description",
    option_map scalar (truthy_string (StaticRoute.description route)))].

Definition route_prefix (route : StaticRoute.t) : list string :=
  ["protocols"; "static"; "route"; StaticRoute.network route].

Definition route_tree (route : StaticRoute.t) : node :=
  wrap (route_prefix route) (Branch (present (route_options route))).

(** The words of a static route that its statements carry. *)
Definition route_words (route : StaticRoute.t) : list string :=
  [StaticRoute.network route]
  ++ opt_list (StaticRoute.nextHop route)
  ++ opt_list (StaticRoute.interface route)
  ++ opt_list (StaticRoute.description route).

(** The static routes whose fields the statement syntax can carry. *)
Record route_wf (route : StaticRoute.t) : Prop := mk_route_wf
  { rwf_network : plain_token (StaticRoute.network route) = true;
    rwf_nextHop : opt_holds plain_token (StaticRoute.nextHop route) = true;
    rwf_interface : opt_holds plain_token (StaticRoute.interface route) = true;
    rwf_one_target :
      StaticRoute.nextHop route = None \/ StaticRoute.interface route = None;
    rwf_distance : StaticRoute.distance route = None;
    rwf_description :
      opt_holds text_value (StaticRoute.description route) = true;
    rwf_set :
      existsb (fun s => startsWith s "set ") (buildStaticRouteCommands route)
      = true;
    rwf_own : own_names (route_words route) = true }.

(** *** Round trip: NAT rules *)

(** The properties of an address/port block. *)
Definition block_options (address port : option string)
  : list (string * option node) :=
  [("address", option_map scalar (truthy_string address));
   ("port", option_map scalar (truthy_string port))].

(** The node of an address/port block; there is none when the block has no
    statement. *)
Definition block_node (address port : option string) : option node :=
  match present (block_options address port) with
  | [] => None
  | props => Some (Branch props)
  end.

Definition nat_block (o : option NATAddress.t) : option node :=
  match o with
  | Some x => block_node (NATAddress.address x) (NATAddress.port x)
  | None => None
  end.

(** The properties of a NAT rule's node, in the order the builder's statements
    create them. *)
Definition nat_options (rule : NATRule.t) : list (string * option node) :=
  [("description",
    option_map scalar (truthy_string (NATRule.description rule)));
   ("outbound-interface",
    if String.eqb (NATRule.type rule) "source"
    then option_map scalar (truthy_string (NATRule.outboundInterface rule))
    else None);
   ("inbound-interface",
    if String.eqb (NATRule.type rule) "destination"
    then option_map scalar (truthy_string (NATRule.inboundInterface rule))
    else None);
   ("protocol", option_map scalar (truthy_string (NATRule.protocol rule)));
   ("source", nat_block (NATRule.source rule));
   ("destination", nat_block (NATRule.destination rule));
   ("translation", nat_block (NATRule.translation rule));
   ("disable",
    match NATRule.disabled rule with
    | Some true => Some Leaf
    | _ => None
    end)].

Definition nat_prefix (rule : NATRule.t) : list string :=
  ["nat"; NATRule.type rule; "rule"; number_to_string (NATRule.number rule)].

Definition nat_tree (rule : NATRule.t) : node :=
  wrap (nat_prefix rule) (Branch (present (nat_options rule))).

Definition is_some {A} (o : option A) : bool :=
  match o with Some _ => true | None => false end.

(** An address/port block that round-trips: plain tokens, at least one of
    them. *)
Definition block_wf (address port : option string) : bool :=
  (opt_holds plain_token address && opt_holds plain_token port
   && (is_some address || is_some port))%bool.

Definition nat_block_wf (o : option NATAddress.t) : bool :=
  match o with
  | Some x => block_wf (NATAddress.address x) (NATAddress.port x)
  | None => true
  end.

Definition nat_block_words (o : option NATAddress.t) : list string :=
  match o with
  | Some x => opt_list (NATAddress.address x) ++ opt_list (NATAddress.port x)
  | None => []
  end.

(** The words of a NAT rule that its statements carry. *)
Definition nat_words (rule : NATRule.t) : list string :=
  opt_list (NATRule.description rule)
  ++ opt_list (NATRule.outboundInterface rule)
  ++ opt_list (NATRule.inboundInterface rule)
  ++ opt_list (NATRule.protocol rule)
  ++ nat_block_words (NATRule.source rule)
  ++ nat_block_words (NATRule.destination rule)
  ++ nat_block_words (NATRule.translation rule).

(** The NAT rules whose fields the statement syntax can carry. *)
Record nat_wf (rule : NATRule.t) : Prop := mk_nat_wf
  { nwf_type : NATRule.type rule = "source" \/ NATRule.type rule = "destination";
    nwf_description : opt_holds text_value (NATRule.description rule) = true;
    nwf_disabled : is_some (NATRule.disabled rule) = true;
    nwf_outbound :
      if String.eqb (NATRule.type rule) "source"
      then opt_holds plain_token (NATRule.outboundInterface rule) = true
      else NATRule.outboundInterface rule = None;
    nwf_inbound :
      if String.eqb (NATRule.type rule) "destination"
      then opt_holds plain_token (NATRule.inboundInterface rule) = true
      else NATRule.inboundInterface rule = None;
    nwf_protocol : opt_holds plain_token (NATRule.protocol rule) = true;
    nwf_source : nat_block_wf (NATRule.source rule) = true;
    nwf_destination : nat_block_wf (NATRule.destination rule) = true;
    nwf_translation : nat_block_wf (NATRule.translation rule) = true;
    nwf_set :
      existsb (fun s => startsWith s "set ") (buildNATRuleCommands rule) = true;
    nwf_own : own_names (nat_words rule) = true;
    nwf_safe : safe_integer (NATRule.number rule) = true }.

(** *** Round trip: firewall zones *)

(** The node of one [from] entry. *)
Definition zone_firewall_node (fw : ZoneFirewall.t) : node :=
  Branch [("firewall",
           Branch (present
             [("name", option_map scalar (truthy_string (ZoneFirewall.name fw)));
              ("ipv6-name",
               option_map scalar (truthy_string (ZoneFirewall.ipv6Name fw)))]))].

Definition from_node (from : list (string * ZoneFirewall.t)) : option node :=
  match from with
  | [] => None
  | _ => Some (Branch (map (fun e => (fst e, zone_firewall_node (snd e))) from))
  end.

(** The properties of a zone's node, in the order the builder's statements
    create them. *)
Definition zone_options (zone : FirewallZone.t) : list (string * option node) :=
  [("description",
    option_map scalar (truthy_string (FirewallZone.description zone)));
   ("default-action", Some (scalar (FirewallZone.defaultAction zone)));
   ("interface", some_leaves (FirewallZone.interfaces zone));
   ("from", from_node (FirewallZone.from zone))].

Definition zone_prefix (zone : FirewallZone.t) : list string :=
  ["zone-policy"; "zone"; FirewallZone.name zone].

Definition zone_tree (zone : FirewallZone.t) : node :=
  wrap (zone_prefix zone) (Branch (present (zone_options zone))).

(** A [from] entry that round-trips: the zone name is a plain token and no
    array index, the ruleset names are plain tokens, at least one is there. *)
Definition from_wf (e : string * ZoneFirewall.t) : bool :=
  (plain_token (fst e) && not_index (fst e)
   && opt_holds plain_token (ZoneFirewall.name (snd e))
   && opt_holds plain_token (ZoneFirewall.ipv6Name (snd e))
   && (is_some (ZoneFirewall.name (snd e))
       || is_some (ZoneFirewall.ipv6Name (snd e))))%bool.

(** The words of a zone that its statements carry. *)
Definition zone_words (zone : FirewallZone.t) : list string :=
  [FirewallZone.name zone; FirewallZone.defaultAction zone]
  ++ opt_list (FirewallZone.description zone)
  ++ FirewallZone.interfaces zone
  ++ flat_map (fun e =>
       fst e :: opt_list (ZoneFirewall.name (snd e))
       ++ opt_list (ZoneFirewall.ipv6Name (snd e)))
       (FirewallZone.from zone).

(** The zones whose fields the statement syntax can carry. *)
Record zone_wf (zone : FirewallZone.t) : Prop := mk_zone_wf
  { zwf_name : plain_token (FirewallZone.name zone) = true;
    zwf_description :
      opt_holds text_value (FirewallZone.description zone) = true;
    zwf_defaultAction : plain_token (FirewallZone.defaultAction zone) = true;
    zwf_interfaces : plain_set (FirewallZone.interfaces zone) = true;
    zwf_from : forallb from_wf (FirewallZone.from zone) = true;
    zwf_from_distinct : distinct (map fst (FirewallZone.from zone)) = true;
    zwf_own : own_names (zone_words zone) = true }.

(** A static route via a next hop, with a description. *)
Definition branch_route : StaticRoute.t :=
  StaticRoute.mk "10.9.0.0/16" (Some "192.0.2.1") None None
    (Some "to the branch office").

(** A zone with two interfaces and one policy for traffic from another zone. *)
Definition lan_zone : FirewallZone.t :=
  FirewallZone.mk "LAN" (Some "inside hosts") "drop" ["eth1"; "eth2"]
    [("WAN", ZoneFirewall.mk (Some "WAN-TO-LAN") None)].

(** *** Round trip: system configuration *)

Definition ntp_node (ntp : NTPConfig.t) : option node :=
  option_map (fun l => Branch [("server", l)]) (some_leaves (NTPConfig.servers ntp)).

(** The properties of the [system] node, in the order the builder's
    statements create them, for a configuration without users and without
    NTP client networks. *)
Definition system_options (system : SystemConfig.t)
  : list (string * option node) :=
  [("host-name",
    option_map scalar (truthy_string (SystemConfig.hostName system)));
   ("domain-name",
    option_map scalar (truthy_string (SystemConfig.domainName system)));
   ("time-zone",
    option_map scalar (truthy_string (SystemConfig.timeZone system)));
   ("name-server",
    match SystemConfig.nameServer system with
    | Some servers => some_leaves servers
    | None => None
    end);
   ("ntp",
    match SystemConfig.ntp system with
    | Some ntp => ntp_node ntp
    | None => None
    end)].

(** The tree that the statements of a system configuration build: empty when
    there is no statement. *)
Definition system_tree (system : SystemConfig.t) : node :=
  match present (system_options system) with
  | [] => Branch []
  | props => Branch [("system", Branch props)]
  end.

(** The words of a system configuration that its statements carry. *)
Definition system_words (system : SystemConfig.t) : list string :=
  opt_list (SystemConfig.hostName system)
  ++ opt_list (SystemConfig.domainName system)
  ++ opt_list (SystemConfig.timeZone system)
  ++ match SystemConfig.nameServer system with
     | Some servers => servers
     | None => []
     end
  ++ match SystemConfig.ntp system with
     | Some ntp => NTPConfig.servers ntp
     | None => []
     end.

(** The system configurations that the parser reads back in full. *)
Record system_wf (system : SystemConfig.t) : Prop := mk_system_wf
  { swf_hostName : opt_holds text_value (SystemConfig.hostName system) = true;
    swf_domainName :
      opt_holds text_value (SystemConfig.domainName system) = true;
    swf_timeZone : opt_holds text_value (SystemConfig.timeZone system) = true;
    swf_nameServer :
      exists servers,
        SystemConfig.nameServer system = Some servers
        /\ plain_set servers = true;
    swf_ntp :
      exists servers,
        SystemConfig.ntp system = Some (NTPConfig.mk servers None)
        /\ plain_set servers = true;
    swf_login : SystemConfig.login system = Some (LoginConfig.mk []);
    swf_own : own_names (system_words system) = true }.

(** A system configuration with host name, domain, time zone, two name
    servers and one NTP server. *)
Definition edge_system : SystemConfig.t :=
  SystemConfig.mk (Some "edge-router") (Some "example.net")
    (Some "Europe/Berlin") (Some ["192.0.2.53"; "2001:db8::53"])
    (Some (NTPConfig.mk ["pool.ntp.org"] None)) (Some (LoginConfig.mk [])).

(** *** Round trip: firewall rulesets *)

(** The node of a flag written as [<flag> enable]. *)
Definition enable_node (flag : option bool) : option node :=
  match flag with
  | Some true => Some (Branch [("enable", Leaf)])
  | _ => None
  end.

(** The node of a flag written as a bare word. *)
Definition flag_leaf (flag : option bool) : option node :=
  match flag with
  | Some true => Some Leaf
  | _ => None
  end.

Definition state_options (st : RuleState.t) : list (string * option node) :=
  [("established", enable_node (RuleState.established st));
   ("related", enable_node (RuleState.related st));
   ("new", enable_node (RuleState.new st));
   ("invalid", enable_node (RuleState.invalid st))].

Definition state_node (o : option RuleState.t) : option node :=
  match o with
  | Some st =>
      match present (state_options st) with
      | [] => None
      | props => Some (Branch props)
      end
  | None => None
  end.

Definition endpoint_node (o : option FirewallAddress.t) : option node :=
  match o with
  | Some a => block_node (FirewallAddress.address a) (FirewallAddress.port a)
  | None => None
  end.

(** The properties of a rule's node, in the order the builder's statements
    create them, for a rule without address groups. *)
Definition rule_options (rule : FirewallRule.t) : list (string * option node) :=
  [("action", Some (scalar (FirewallRule.action rule)));
   ("description",
    option_map scalar (truthy_string (FirewallRule.description rule)));
   ("protocol", option_map scalar (truthy_string (FirewallRule.protocol rule)));
   ("source", endpoint_node (FirewallRule.source rule));
   ("destination", endpoint_node (FirewallRule.destination rule));
   ("state", state_node (FirewallRule.state rule));
   ("log", enable_node (FirewallRule.log rule));
   ("disable", flag_leaf (FirewallRule.disabled rule))].

Definition rule_node (rule : FirewallRule.t) : node :=
  Branch (present (rule_options rule)).

Definition rule_entry (rule : FirewallRule.t) : string * node :=
  (number_to_string (FirewallRule.number rule), rule_node rule).

Definition rules_node (rules : list FirewallRule.t) : option node :=
  match rules with
  | [] => None
  | _ => Some (Branch (map rule_entry rules))
  end.

(** The properties of a ruleset's node, in the order the builder's statements
    create them. *)
Definition ruleset_options (ruleset : FirewallRuleset.t)
  : list (string * option node) :=
  [("description",
    option_map scalar (truthy_string (FirewallRuleset.description ruleset)));
   ("default-action", Some (scalar (FirewallRuleset.defaultAction ruleset)));
   ("enable-default-log", flag_leaf (FirewallRuleset.enableDefaultLog ruleset));
   ("rule", rules_node (FirewallRuleset.rules ruleset))].

Definition ruleset_prefix (ruleset : FirewallRuleset.t) : list string :=
  ["firewall"; "name"; FirewallRuleset.name ruleset].

Definition ruleset_tree (ruleset : FirewallRuleset.t) : node :=
  wrap (ruleset_prefix ruleset) (Branch (present (ruleset_options ruleset))).

(** An endpoint that round-trips: an address or a port, both plain tokens,
    and no group. *)
Definition endpoint_wf (o : option FirewallAddress.t) : bool :=
  match o with
  | Some a =>
      (block_wf (FirewallAddress.address a) (FirewallAddress.port a)
       && negb (is_some (FirewallAddress.group a)))%bool
  | None => true
  end.

(** A state record that round-trips: every flag is given and one is set. *)
Definition state_wf (o : option RuleState.t) : bool :=
  match o with
  | Some st =>
      match RuleState.established st, RuleState.related st,
            RuleState.new st, RuleState.invalid st with
      | Some e, Some r, Some n, Some i => (e || r || n || i)%bool
      | _, _, _, _ => false
      end
  | None => true
  end.

(** A rule number that is an array index: the parser lists such rules in
    ascending order. *)
Definition rule_index (rule : FirewallRule.t) : option N :=
  match FirewallRule.number rule with
  | Num z =>
      if ((0 <=? z) && (z <? 4294967295))%Z%bool then Some (Z.to_N z) else None
  | NaN => None
  end.

Definition endpoint_words (o : option FirewallAddress.t) : list string :=
  match o with
  | Some a =>
      opt_list (FirewallAddress.address a) ++ opt_list (FirewallAddress.port a)
  | None => []
  end.

(** The words of a rule that its statements carry. *)
Definition rule_words (rule : FirewallRule.t) : list string :=
  [FirewallRule.action rule]
  ++ opt_list (FirewallRule.description rule)
  ++ opt_list (FirewallRule.protocol rule)
  ++ endpoint_words (FirewallRule.source rule)
  ++ endpoint_words (FirewallRule.destination rule).

Definition rule_wf (rule : FirewallRule.t) : bool :=
  (is_some (rule_index rule)
   && plain_token (FirewallRule.action rule)
   && opt_holds text_value (FirewallRule.description rule)
   && opt_holds plain_token (FirewallRule.protocol rule)
   && endpoint_wf (FirewallRule.source rule)
   && endpoint_wf (FirewallRule.destination rule)
   && state_wf (FirewallRule.state rule)
   && is_some (FirewallRule.log rule)
   && is_some (FirewallRule.disabled rule)
   && own_names (rule_words rule))%bool.

(** Rule numbers in strictly ascending order. *)
Fixpoint ascending (rules : list FirewallRule.t) : bool :=
  match rules with
  | [] => true
  | r :: rules' =>
      (match rules' with
       | [] => true
       | r' :: _ =>
           match rule_index r, rule_index r' with
           | Some a, Some b => (a <? b)%N
           | _, _ => false
           end
       end && ascending rules')%bool
  end.

(** The rulesets whose fields the statement syntax can carry. *)
Record ruleset_wf (ruleset : FirewallRuleset.t) : Prop := mk_ruleset_wf
  { fwf_name : plain_token (FirewallRuleset.name ruleset) = true;
    fwf_description :
      opt_holds text_value (FirewallRuleset.description ruleset) = true;
    fwf_defaultAction :
      plain_token (FirewallRuleset.defaultAction ruleset) = true;
    fwf_enableDefaultLog :
      is_some (FirewallRuleset.enableDefaultLog ruleset) = true;
    fwf_rules : forallb rule_wf (FirewallRuleset.rules ruleset) = true;
    fwf_ascending : ascending (FirewallRuleset.rules ruleset) = true;
    fwf_own :
      own_names
        ([FirewallRuleset.name ruleset; FirewallRuleset.defaultAction ruleset]
         ++ opt_list (FirewallRuleset.description ruleset)) = true }.

(** Properties whose keys are array indices in strictly ascending order:
    [Object.entries] lists them as they are stored. *)
Fixpoint index_sorted {A} (props : list (string * A)) : bool :=
  match props with
  | [] => true
  | e :: props' =>
      (is_index e
       && forallb (fun e' => (index_of e <? index_of e')%N) props'
       && index_sorted props')%bool
  end.

(** A ruleset with two rules: established traffic, and SSH from one network
    with logging. *)
Definition wan_in : FirewallRuleset.t :=
  FirewallRuleset.mk "WAN-IN" (Some "from the internet") "drop" (Some true)
    [FirewallRule.mk (Num 10) "accept" (Some "established traffic") None
       None None
       (Some (RuleState.mk (Some true) (Some true) (Some false) (Some false)))
       (Some false) (Some false);
     FirewallRule.mk (Num 20) "accept" None (Some "tcp")
       (Some (FirewallAddress.mk (Some "198.51.100.0/24") None None))
       (Some (FirewallAddress.mk None (Some "22") None))
       None (Some true) (Some false)].

(** *** Invocations in flight at the same time *)

(** [SSHClient.shell] opens a stream of its own for every invocation, with
    variables and a ['data'] handler of its own, and neither it nor the
    executor holds a lock.  Two invocations in flight on one client are two
    such sessions; the event loop hands one chunk at a time to the handler of
    the stream it arrived on. *)
Inductive session : Type :=
| First
| Second.

Record sessions : Type := mk_sessions
  { first_state : shell_state; second_state : shell_state }.

(** The handler of one session, which no longer reads once its stream has
    been ended. *)
Definition receive (commands : list string) (st : shell_state) (text : string)
  : shell_state :=
  if sh_ended st then st else on_data commands st text.

(** One chunk delivered to the session it is addressed to. *)
Definition deliver (commandsA commandsB : list string) (st : sessions)
  (event : session * string) : sessions :=
  match fst event with
  | First =>
      mk_sessions (receive commandsA (first_state st) (snd event))
        (second_state st)
  | Second =>
      mk_sessions (first_state st)
        (receive commandsB (second_state st) (snd event))
  end.

(** Two sessions run over the chunks in their order of arrival. *)
Definition run_sessions (commandsA commandsB : list string)
  (events : list (session * string)) : sessions :=
  fold_left (deliver commandsA commandsB) events
    (mk_sessions shell_start shell_start).

Definition is_first (s : session) : bool :=
  match s with First => true | Second => false end.

(** The chunks addressed to one session, in their order of arrival. *)
Definition chunks_of (first : bool) (events : list (session * string))
  : list string :=
  map snd (filter (fun e => Bool.eqb (is_first (fst e)) first) events).

(** A chunk that ends in a shell prompt. *)
Definition prompt_chunk : string := "vyos@vyos:~$ ".

(* ================================================================== *)
(** * Properties *)
(* ================================================================== *)

(** ** Strings *)

Lemma append_assoc (a b c : string) : (a ^ b) ^ c = a ^ (b ^ c).
Proof.
  induction a as [|x a IH]; simpl; [reflexivity|].
  now rewrite IH.
Qed.

Lemma append_nil_r (a : string) : a ^ EmptyString = a.
Proof.
  induction a as [|x a IH]; simpl; [reflexivity|].
  now rewrite IH.
Qed.

Lemma append_cancel_l (a x y : string) : a ^ x = a ^ y -> x = y.
Proof.
  induction a as [|c a IH]; simpl; intros H; [exact H|].
  injection H as H. now apply IH.
Qed.

Lemma chars_append (a b : string) : chars (a ^ b) = chars a ++ chars b.
Proof.
  induction a as [|x a IH]; simpl; [reflexivity|].
  unfold chars in *. simpl. now rewrite IH.
Qed.

(** Searching for a one-character pattern is membership of the character. *)
Lemma includes_char (s : string) (c : ascii) :
  includes s (String c EmptyString) = existsb (Ascii.eqb c) (chars s).
Proof.
  induction s as [|x s IH]; simpl; [reflexivity|].
  rewrite IH. unfold chars. simpl.
  destruct (ascii_dec c x) as [->|Hne].
  - rewrite Ascii.eqb_refl. now destruct s.
  - apply Ascii.eqb_neq in Hne. rewrite Hne. reflexivity.
Qed.

(** ** Sanitizer *)

Lemma escape_quotes_flat (v : string) :
  escape_quotes v = String.concat EmptyString (map escape_char (chars v)).
Proof.
  induction v as [|c v IH]; [reflexivity|].
  unfold chars in *. simpl. rewrite IH. unfold escape_char.
  destruct (list_ascii_of_string v) eqn:E; simpl;
    destruct (Ascii.eqb c squote); simpl; reflexivity.
Qed.

(** In an escaped value every single quote directly follows a backslash. *)
Lemma escape_quotes_guarded (v pre post : string) :
  escape_quotes v = pre ^ String squote post ->
  exists pre', pre = pre' ^ String backslash EmptyString.
Proof.
  revert pre post. induction v as [|c v IH]; intros pre post H; simpl in H.
  - destruct pre; discriminate.
  - destruct (Ascii.eqb c squote) eqn:Ec.
    + destruct pre as [|p pre]; simpl in H.
      * injection H as Hc _. discriminate Hc.
      * injection H as Hp H. destruct pre as [|q pre]; simpl in H.
        -- exists EmptyString. now subst.
        -- injection H as Hq H. apply IH in H as [pre' ->].
           exists (String p (String q pre')). reflexivity.
    + destruct pre as [|p pre]; simpl in H.
      * injection H as Hc _. subst c. rewrite Ascii.eqb_refl in Ec. discriminate.
      * injection H as Hp H. apply IH in H as [pre' ->].
        exists (String p pre'). reflexivity.
Qed.

(** C7 (as amended).  [sanitizeConfigValue] is a total function of its
    argument alone.  It returns the value wrapped in single quotes, each
    single quote of the value replaced by backslash-quote, exactly when the
    value contains a space character (U+0020) or a single quote; every other
    value, including one that contains other white space such as a tab, is
    returned unchanged.  In particular "simple" stays "simple", "has space"
    becomes "'has space'" and "it's" becomes "'it\'s'". *)
Theorem sanitizeConfigValue_spec :
  (forall v : string,
     sanitizeConfigValue v =
       if existsb (fun c => (Ascii.eqb c space || Ascii.eqb c squote)%bool) (chars v)
       then "'" ^ String.concat EmptyString (map escape_char (chars v)) ^ "'"
       else v)
  /\ sanitizeConfigValue "simple" = "simple"
  /\ sanitizeConfigValue "has space" = "'has space'"
  /\ sanitizeConfigValue "it's" = "'it\'s'".
Proof.
  split; [|repeat split; reflexivity].
  intros v. unfold sanitizeConfigValue.
  change " " with (String space EmptyString).
  change "'" with (String squote EmptyString) at 1.
  rewrite !includes_char, <- escape_quotes_flat.
  assert (E : (existsb (Ascii.eqb space) (chars v)
               || existsb (Ascii.eqb squote) (chars v))%bool
              = existsb (fun c => (Ascii.eqb c space || Ascii.eqb c squote)%bool)
                  (chars v)).
  { induction (chars v) as [|c l IH]; cbn [existsb]; [reflexivity|].
    rewrite <- IH, (Ascii.eqb_sym space c), (Ascii.eqb_sym squote c).
    destruct (Ascii.eqb c space), (Ascii.eqb c squote),
      (existsb (Ascii.eqb space) l), (existsb (Ascii.eqb squote) l); reflexivity. }
  rewrite E. reflexivity.
Qed.

(** C7 (as stated) fails: a value with a tab contains white space, yet it is
    returned unchanged, not quoted. *)
Lemma sanitizeConfigValue_tab_unquoted :
  (exists c, In c (chars tabbed_value) /\ is_whitespace c = true)
  /\ sanitizeConfigValue tabbed_value = tabbed_value
  /\ sanitizeConfigValue tabbed_value <> quoted tabbed_value.
Proof.
  split; [|split].
  - exists tab. split; [right; left; reflexivity | reflexivity].
  - reflexivity.
  - discriminate.
Qed.

(** ** Interactive shell *)

Lemma firstn_S_nth {A} (d : A) (l : list A) (i : nat) :
  i < length l -> firstn (S i) l = firstn i l ++ [nth i l d].
Proof.
  revert i. induction l as [|x l IH]; intros i Hi; simpl in Hi; [lia|].
  destruct i as [|i]; [reflexivity|].
  change (x :: firstn (S i) l = x :: (firstn i l ++ [nth i l d])).
  f_equal. apply IH. lia.
Qed.

(** When every chunk the device sends carries a prompt, each chunk triggers
    the next statement: after as many chunks as there are statements, all of
    them have been written, in order, and the stream has been ended. *)
Lemma shell_run_prompted (commands : list string) :
  forall (chunks : list string) (st : shell_state),
    sh_ended st = false ->
    sh_commandIndex st + length chunks = length commands ->
    Forall (fun text => has_prompt text = true) chunks ->
    sh_written st = map with_newline (firstn (sh_commandIndex st) commands) ->
    sh_written (shell_run commands st chunks) = map with_newline commands.
Proof.
  induction chunks as [|text chunks IH]; intros st Hend Hlen Hall Hw.
  - simpl in *. rewrite Hw. replace (sh_commandIndex st) with (length commands) by lia.
    now rewrite firstn_all.
  - simpl in Hlen. cbn [shell_run]. rewrite Hend.
    inversion Hall as [|? ? Hp Hall']; subst.
    assert (Hlt : (sh_commandIndex st <? length commands)%nat = true)
      by (apply Nat.ltb_lt; lia).
    assert (Hstep : on_data commands st text =
              mk_shell_state (sh_output st ^ text) (S (sh_commandIndex st)) true
                (sh_written st ++ [with_newline (nth (sh_commandIndex st) commands EmptyString)])
                (length commands <=? S (sh_commandIndex st))%nat).
    { unfold on_data. rewrite Hp, Hlt, Hend, !orb_true_r. cbn.
      now rewrite andb_true_r. }
    rewrite Hstep.
    destruct chunks as [|text' chunks'].
    + cbn [shell_run sh_written]. rewrite Hw, <- map_last.
      rewrite <- (firstn_S_nth EmptyString) by (apply Nat.ltb_lt; exact Hlt).
      simpl in Hlen. replace (S (sh_commandIndex st)) with (length commands) by lia.
      now rewrite firstn_all.
    + apply IH; cbn [sh_ended sh_commandIndex sh_written].
      * apply Nat.leb_gt. simpl in Hlen. lia.
      * simpl in *. lia.
      * exact Hall'.
      * rewrite Hw, <- map_last.
        now rewrite <- (firstn_S_nth EmptyString) by (apply Nat.ltb_lt; exact Hlt).
Qed.

(** ** Command Executor *)

(** What remains of a failed execution: the rollback is issued, and the
    error is the original one unless the rollback itself fails. *)
Lemma executeWithRollback_unfold (dev : device) (commands : list string)
  (options : ExecutionOptions) (log : list shell_call) :
  let log1 := log ++ [batch_call commands options] in
  let log2 := log1 ++ [rollback_call] in
  let also_failed (original rollbackError : error) :=
    VyOSCommandError
      ("Command execution failed and rollback also failed: "
       ^ error_message rollbackError)
      (join (String nl EmptyString) commands)
      (error_message original) in
  let recover (original : error) : result unit * list shell_call :=
    match dev log1 rollback_call with
    | Ok out2 =>
        if hasCommitFailed out2
        then (Throw (also_failed original
                       (VyOSCommitError "Rollback commit failed" out2)), log2)
        else (Throw original, log2)
    | Throw e2 => (Throw (also_failed original e2), log2)
    end in
  executeWithRollback dev commands options log =
    match dev log (batch_call commands options) with
    | Ok output =>
        if (0 <? length (parseErrors output))%nat
        then recover (VyOSCommandError
                        ("Command execution failed: " ^ join ", " (parseErrors output))
                        (join (String nl EmptyString) commands) output)
        else if (or_else (commit options) true && hasCommitFailed output)%bool
        then recover (VyOSCommitError "Commit failed" output)
        else (Ok tt, log1)
    | Throw e => recover e
    end.
Proof.
  cbv zeta.
  unfold executeWithRollback, rollback, try_catch, bind_exec, shell, throw, ret.
  fold (batch_call commands options). fold rollback_call.
  destruct (dev log (batch_call commands options)) as [output|e].
  - destruct (0 <? length (parseErrors output))%nat.
    + destruct (dev (log ++ [batch_call commands options]) rollback_call) as [out2|e2];
        [destruct (hasCommitFailed out2)|]; reflexivity.
    + destruct (or_else (commit options) true && hasCommitFailed output)%bool;
        [|reflexivity].
      destruct (dev (log ++ [batch_call commands options]) rollback_call) as [out2|e2];
        [destruct (hasCommitFailed out2)|]; reflexivity.
  - destruct (dev (log ++ [batch_call commands options]) rollback_call) as [out2|e2];
      [destruct (hasCommitFailed out2)|]; reflexivity.
Qed.

(** The first shell invocation of an execution always carries the batch. *)
Lemma executeWithRollback_first_call (dev : device) (commands : list string)
  (options : ExecutionOptions) (log : list shell_call) :
  exists rest,
    snd (executeWithRollback dev commands options log)
    = log ++ batch_call commands options :: rest.
Proof.
  rewrite executeWithRollback_unfold.
  destruct (dev log (batch_call commands options)) as [output|e];
    [destruct (0 <? length (parseErrors output))%nat;
      [|destruct (or_else (commit options) true && hasCommitFailed output)%bool]|];
    try (exists []; reflexivity);
    destruct (dev (log ++ [batch_call commands options]) rollback_call) as [out2|e2];
    try destruct (hasCommitFailed out2);
    exists [rollback_call]; cbn [snd]; now rewrite <- app_assoc.
Qed.

(** C2 (as amended).  For the scenario's model, [buildInterfaceCommands]
    returns exactly three statements in order: the description (quoted,
    because it contains a space), the address (not quoted: it contains
    neither a space nor a quote), and the enable toggle.  Executing that batch
    with commit and save enabled hands the channel exactly configure, the
    three statements, commit, save, exit, in that order, as the first shell
    invocation; and when every chunk the device sends carries a prompt, these
    seven statements are what is written to the stream, in that order. *)
Theorem eth1_lan_batch :
  let statements :=
    ["set interfaces ethernet eth1 description 'LAN Interface'";
     "set interfaces ethernet eth1 address 192.168.1.1/24";
     "delete interfaces ethernet eth1 disable"] in
  let batch := ["configure"] ++ statements ++ ["commit"; "save"; "exit"] in
  buildInterfaceCommands eth1_lan = statements
  /\ (forall (dev : device) (log : list shell_call),
        exists rest,
          snd (executeWithRollback dev (buildInterfaceCommands eth1_lan)
                 commit_and_save log)
          = log ++ mk_shell_call batch VYOS_COMMIT_TIMEOUT :: rest)
  /\ (forall chunks : list string,
        length chunks = length batch ->
        Forall (fun text => has_prompt text = true) chunks ->
        sh_written (shell_run batch shell_start chunks) = map with_newline batch).
Proof.
  cbv zeta. split; [reflexivity|]. split.
  - intros dev log.
    exact (executeWithRollback_first_call dev (buildInterfaceCommands eth1_lan)
             commit_and_save log).
  - intros chunks Hlen Hall.
    apply shell_run_prompted; [reflexivity | exact Hlen | exact Hall | reflexivity].
Qed.

Lemma eth1_lan_batch_witness :
  sh_written
    (shell_run
       (["configure"]
        ++ ["set interfaces ethernet eth1 description 'LAN Interface'";
            "set interfaces ethernet eth1 address 192.168.1.1/24";
            "delete interfaces ethernet eth1 disable"]
        ++ ["commit"; "save"; "exit"])
       shell_start (repeat "vyos@vyos:~$ " 7))
  = ["configure" ^ String nl "";
     "set interfaces ethernet eth1 description 'LAN Interface'" ^ String nl "";
     "set interfaces ethernet eth1 address 192.168.1.1/24" ^ String nl "";
     "delete interfaces ethernet eth1 disable" ^ String nl "";
     "commit" ^ String nl ""; "save" ^ String nl ""; "exit" ^ String nl ""].
Proof.
  apply (proj2 (proj2 eth1_lan_batch) (repeat "vyos@vyos:~$ " 7)).
  - reflexivity.
  - repeat constructor.
Defined.

(** C2 (as stated) fails: the address statement of the scenario's batch does
    not carry a quoted literal. *)
Lemma eth1_lan_address_not_quoted :
  buildInterfaceCommands eth1_lan <>
    ["set interfaces ethernet eth1 description 'LAN Interface'";
     "set interfaces ethernet eth1 address '192.168.1.1/24'";
     "delete interfaces ethernet eth1 disable"].
Proof.
  intros H. vm_compute in H. discriminate H.
Qed.

(** C4 (as amended).  The compensating sequence is configure, rollback 0,
    commit, save, exit.  For a batch whose shell invocation returns a
    transcript:
    - if no line of the transcript carries an error marker and (when commit is
      requested) the transcript carries no commit-failure marker, success is
      reported and no rollback is issued;
    - if some line carries an error marker, or commit is requested and the
      transcript carries a commit-failure marker anywhere, exactly one further
      shell invocation is issued, carrying the compensating sequence, and an
      error is returned;
    - that error is a command error when a line carries an error marker
      (whether or not a commit-failure marker is present too), and a commit
      error when only a commit-failure marker is present, provided the
      rollback transcript carries no commit-failure marker;
    - when the rollback transcript carries a commit-failure marker, the error
      returned is a command error in both cases. *)
Theorem executeWithRollback_outcomes (dev : device) (commands : list string)
  (options : ExecutionOptions) (log : list shell_call) (output : string) :
  let call := batch_call commands options in
  let log1 := log ++ [call] in
  let run := executeWithRollback dev commands options log in
  let marker := negb (length (parseErrors output) =? 0)%nat in
  let commit_marker :=
    (or_else (commit options) true && hasCommitFailed output)%bool in
  dev log call = Ok output ->
  rollback_commands (Num 0) = ["configure"; "rollback 0"; "commit"; "save"; "exit"]
  /\ (marker = false -> commit_marker = false -> run = (Ok tt, log1))
  /\ ((marker || commit_marker)%bool = true ->
      exists e, run = (Throw e, log1 ++ [rollback_call]))
  /\ (forall out2,
        dev log1 rollback_call = Ok out2 -> hasCommitFailed out2 = false ->
        (marker = true ->
         run = (Throw (VyOSCommandError
                         ("Command execution failed: " ^ join ", " (parseErrors output))
                         (join (String nl EmptyString) commands) output),
                log1 ++ [rollback_call]))
        /\ (marker = false -> commit_marker = true ->
            run = (Throw (VyOSCommitError "Commit failed" output),
                   log1 ++ [rollback_call])))
  /\ (forall out2,
        dev log1 rollback_call = Ok out2 -> hasCommitFailed out2 = true ->
        (marker || commit_marker)%bool = true ->
        exists message original,
          run = (Throw (VyOSCommandError message
                          (join (String nl EmptyString) commands) original),
                 log1 ++ [rollback_call])).
Proof.
  cbv zeta. intros Hdev.
  rewrite executeWithRollback_unfold, Hdev.
  assert (Hm : (0 <? length (parseErrors output))%nat
               = negb (length (parseErrors output) =? 0)%nat)
    by (destruct (length (parseErrors output)); reflexivity).
  rewrite Hm.
  split; [reflexivity|].
  split; [intros -> ->; reflexivity|].
  split.
  { intros H.
    destruct (negb (length (parseErrors output) =? 0)%nat);
      [|simpl in H; rewrite H];
      (destruct (dev (log ++ [batch_call commands options]) rollback_call) as [out2|e2];
       [destruct (hasCommitFailed out2)|]; eexists; reflexivity). }
  split.
  { intros out2 H2 Hok. rewrite H2, Hok.
    split; [intros ->; reflexivity | intros -> ->; reflexivity]. }
  intros out2 H2 Hbad H. rewrite H2, Hbad.
  destruct (negb (length (parseErrors output) =? 0)%nat);
    [|simpl in H; rewrite H]; eexists; eexists; reflexivity.
Qed.

Lemma executeWithRollback_outcomes_witness :
  executeWithRollback
    (scripted [Ok ("vyos@vyos# commit" ^ String nl "Commit failed"); Ok "vyos@vyos# "])
    ["set interfaces ethernet eth1 mtu 9000"] default_options []
  = (Throw (VyOSCommitError "Commit failed"
              ("vyos@vyos# commit" ^ String nl "Commit failed")),
     [batch_call ["set interfaces ethernet eth1 mtu 9000"] default_options;
      rollback_call]).
Proof.
  refine (proj2 (proj1 (proj2 (proj2 (proj2
    (executeWithRollback_outcomes
       (scripted [Ok ("vyos@vyos# commit" ^ String nl "Commit failed");
                  Ok "vyos@vyos# "])
       ["set interfaces ethernet eth1 mtu 9000"] default_options []
       ("vyos@vyos# commit" ^ String nl "Commit failed") _)))) "vyos@vyos# " _ _) _ _);
    reflexivity.
Defined.

(** C4 (as stated) fails.  A transcript in which the text "Commit failed"
    follows the commit statement, next to an error line, yields a command
    error, not a commit error; and a transcript with the commit-failure marker
    alone yields a command error when the rollback fails as well. *)
Lemma commit_marker_without_commit_error :
  hasCommitFailed failed_commit_transcript = true
  /\ fst (executeWithRollback
            (scripted [Ok failed_commit_transcript; Ok "vyos@vyos# "])
            ["set interfaces ethernet eth9 mtu 9000"] default_options [])
     = Throw (VyOSCommandError
                "Command execution failed: Error: interface eth9 does not exist"
                "set interfaces ethernet eth9 mtu 9000"
                failed_commit_transcript)
  /\ parseErrors "Commit failed" = []
  /\ fst (executeWithRollback
            (scripted [Ok "Commit failed"; Ok "Commit failed"])
            ["set interfaces ethernet eth9 mtu 9000"] default_options [])
     = Throw (VyOSCommandError
                "Command execution failed and rollback also failed: Rollback commit failed"
                "set interfaces ethernet eth9 mtu 9000"
                "Commit failed").
Proof.
  repeat split; reflexivity.
Qed.

(** ** Command Builder *)

Lemma set_not_toggle (path tail : string) :
  tail <> " disable" -> is_toggle path ("set " ^ path ^ tail) = false.
Proof.
  intros Hne. unfold is_toggle. apply orb_false_intro.
  - apply String.eqb_neq. intros H. simpl in H. discriminate H.
  - apply String.eqb_neq. intros H. simpl in H.
    injection H as H. apply append_cancel_l in H. now apply Hne.
Qed.

Ltac no_toggle :=
  repeat match goal with
  | |- Forall _ (_ ++ _) => apply Forall_app; split
  | |- Forall _ [] => constructor
  | |- Forall _ (_ :: _) => constructor
  | |- Forall _ (map _ _) =>
      let s := fresh "s" in
      let Hin := fresh "Hin" in
      let a := fresh "a" in
      apply Forall_forall; intros s Hin;
      apply in_map_iff in Hin as [a [<- _]]
  | |- Forall _ (if_string ?o _) => unfold if_string; destruct (truthy_string o)
  | |- Forall _ (if_number ?o _) =>
      let n := fresh "n" in
      unfold if_number; destruct o as [n|]; [destruct (number_truthy n)|]
  | |- Forall _ (if_flag ?o _) => unfold if_flag; destruct o as [[|]|]
  | |- Forall _ (if_object ?o _) => unfold if_object; destruct o
  | |- Forall _ (if ?b then _ else _) => destruct b
  | |- is_toggle _ _ = false => apply set_not_toggle; simpl; discriminate
  end.

Lemma interface_toggle_last (iface : NetworkInterface.t) :
  exists before,
    buildInterfaceCommands iface
    = before ++ [if NetworkInterface.enabled iface
                 then "delete " ^ interface_path iface ^ " disable"
                 else "set " ^ interface_path iface ^ " disable"]
    /\ Forall (fun s => is_toggle (interface_path iface) s = false) before.
Proof.
  unfold buildInterfaceCommands, interface_path. cbv zeta.
  rewrite !app_assoc.
  destruct (NetworkInterface.enabled iface);
    (eexists; split; [reflexivity|]); no_toggle.
Qed.

Lemma firewall_rule_toggle_last (rulesetName : string) (rule : FirewallRule.t) :
  exists before,
    buildFirewallRuleCommands rulesetName rule
    = before ++ if_flag (FirewallRule.disabled rule)
                  ["set " ^ firewall_rule_path rulesetName rule ^ " disable"]
    /\ Forall (fun s => is_toggle (firewall_rule_path rulesetName rule) s = false)
         before.
Proof.
  unfold buildFirewallRuleCommands, firewall_rule_path. cbv zeta.
  rewrite !app_assoc.
  eexists; split; [reflexivity|].
  no_toggle.
Qed.

Lemma nat_rule_toggle_last (rule : NATRule.t) :
  exists before,
    buildNATRuleCommands rule
    = before ++ if_flag (NATRule.disabled rule)
                  ["set " ^ nat_rule_path rule ^ " disable"]
    /\ Forall (fun s => is_toggle (nat_rule_path rule) s = false) before.
Proof.
  unfold buildNATRuleCommands, nat_rule_path. cbv zeta.
  rewrite !app_assoc.
  eexists; split; [reflexivity|].
  no_toggle.
Qed.

(** C3 (as amended).  A network interface always gets exactly one
    enable/disable statement, and it is the last statement of the list:
    [delete <path> disable] when the interface is enabled, [set <path> disable]
    when it is disabled.  A firewall rule and a NAT rule get the statement
    [set <path> disable], as the last statement of the list, exactly when
    their [disabled] flag is set; for an enabled rule the list holds no
    enable/disable statement at all. *)
Theorem enable_disable_statement :
  (forall iface : NetworkInterface.t,
     exists before,
       buildInterfaceCommands iface
       = before ++ [if NetworkInterface.enabled iface
                    then "delete " ^ interface_path iface ^ " disable"
                    else "set " ^ interface_path iface ^ " disable"]
       /\ Forall (fun s => is_toggle (interface_path iface) s = false) before)
  /\ (forall (rulesetName : string) (rule : FirewallRule.t),
        exists before,
          buildFirewallRuleCommands rulesetName rule
          = before ++ match FirewallRule.disabled rule with
                      | Some true =>
                          ["set " ^ firewall_rule_path rulesetName rule ^ " disable"]
                      | _ => []
                      end
          /\ Forall (fun s => is_toggle (firewall_rule_path rulesetName rule) s = false)
               before)
  /\ (forall rule : NATRule.t,
        exists before,
          buildNATRuleCommands rule
          = before ++ match NATRule.disabled rule with
                      | Some true => ["set " ^ nat_rule_path rule ^ " disable"]
                      | _ => []
                      end
          /\ Forall (fun s => is_toggle (nat_rule_path rule) s = false) before).
Proof.
  split; [exact interface_toggle_last|].
  split; [exact firewall_rule_toggle_last | exact nat_rule_toggle_last].
Qed.

(** C3 (as stated) fails: the statements of an enabled firewall rule and of
    an enabled NAT rule hold no enable/disable statement, so in particular no
    [delete <path> disable]. *)
Lemma enabled_rule_without_toggle :
  FirewallRule.disabled wan_rule_10 = Some false
  /\ filter (is_toggle (firewall_rule_path "WAN" wan_rule_10))
       (buildFirewallRuleCommands "WAN" wan_rule_10) = []
  /\ ~ In "delete firewall name WAN rule 10 disable"
         (buildFirewallRuleCommands "WAN" wan_rule_10)
  /\ NATRule.disabled snat_rule_100 = Some false
  /\ filter (is_toggle (nat_rule_path snat_rule_100))
       (buildNATRuleCommands snat_rule_100) = []
  /\ ~ In "delete nat source rule 100 disable" (buildNATRuleCommands snat_rule_100).
Proof.
  repeat split; try reflexivity.
  - vm_compute. intuition discriminate.
  - vm_compute. intuition discriminate.
Qed.

Ltac pick_statement :=
  unfold if_string, if_object;
  repeat match goal with
  | H : truthy_string ?o = Some _ |- context [truthy_string ?o] => rewrite H
  | H : ?o = Some _ |- context [match ?o with Some _ => _ | None => _ end] =>
      rewrite H
  | H : String.eqb ?a ?b = true |- context [String.eqb ?a ?b] => rewrite H
  end;
  rewrite ?in_app_iff; cbn [In];
  auto 30 using in_map.

Lemma interface_literals_sanitized (iface : NetworkInterface.t) :
  (forall d,
     truthy_string (NetworkInterface.description iface) = Some d ->
     In ("set " ^ interface_path iface ^ " description " ^ sanitizeConfigValue d)
        (buildInterfaceCommands iface))
  /\ (forall addr,
        In addr (AddressConfig.ipv4 (NetworkInterface.addresses iface)
                 ++ AddressConfig.ipv6 (NetworkInterface.addresses iface)) ->
        In ("set " ^ interface_path iface ^ " address " ^ sanitizeConfigValue addr)
           (buildInterfaceCommands iface)).
Proof.
  unfold buildInterfaceCommands, interface_path. cbv zeta. split.
  - intros d Hd. pick_statement.
  - intros addr Hin. apply in_app_or in Hin. rewrite !in_app_iff.
    destruct Hin as [Hin|Hin].
    + do 3 right. left.
      apply in_map_iff. exists addr. split; [reflexivity | exact Hin].
    + do 4 right. left.
      apply in_map_iff. exists addr. split; [reflexivity | exact Hin].
Qed.

Lemma route_description_sanitized (route : StaticRoute.t) (d : string) :
  truthy_string (StaticRoute.description route) = Some d ->
  In ("set protocols static route " ^ StaticRoute.network route
      ^ " description " ^ sanitizeConfigValue d)
     (buildStaticRouteCommands route).
Proof.
  intros Hd. unfold buildStaticRouteCommands. cbv zeta.
  apply in_or_app. right. unfold if_string. rewrite Hd.
  left. now rewrite append_assoc.
Qed.

Lemma zone_description_sanitized (zone : FirewallZone.t) (d : string) :
  truthy_string (FirewallZone.description zone) = Some d ->
  In ("set zone-policy zone " ^ FirewallZone.name zone
      ^ " description " ^ sanitizeConfigValue d)
     (buildFirewallZoneCommands zone).
Proof.
  intros Hd. unfold buildFirewallZoneCommands. cbv zeta.
  apply in_or_app. left. unfold if_string. rewrite Hd.
  left. now rewrite append_assoc.
Qed.

Lemma rule_description_sanitized (rulesetName : string) (rule : FirewallRule.t)
  (d : string) :
  truthy_string (FirewallRule.description rule) = Some d ->
  In ("set " ^ firewall_rule_path rulesetName rule
      ^ " description " ^ sanitizeConfigValue d)
     (buildFirewallRuleCommands rulesetName rule).
Proof.
  intros Hd. unfold buildFirewallRuleCommands, firewall_rule_path. cbv zeta.
  apply in_or_app. right. apply in_or_app. left.
  unfold if_string. rewrite Hd. left. reflexivity.
Qed.

Lemma ruleset_literals_sanitized (ruleset : FirewallRuleset.t) :
  (forall d,
     truthy_string (FirewallRuleset.description ruleset) = Some d ->
     In ("set firewall name " ^ FirewallRuleset.name ruleset
         ^ " description " ^ sanitizeConfigValue d)
        (buildFirewallRulesetCommands ruleset))
  /\ (forall rule d,
        In rule (FirewallRuleset.rules ruleset) ->
        truthy_string (FirewallRule.description rule) = Some d ->
        In ("set " ^ firewall_rule_path (FirewallRuleset.name ruleset) rule
            ^ " description " ^ sanitizeConfigValue d)
           (buildFirewallRulesetCommands ruleset)).
Proof.
  unfold buildFirewallRulesetCommands. cbv zeta. split.
  - intros d Hd. apply in_or_app. left. unfold if_string. rewrite Hd.
    left. now rewrite append_assoc.
  - intros rule d Hin Hd. do 3 (apply in_or_app; right).
    apply in_flat_map. exists rule. split; [exact Hin|].
    now apply rule_description_sanitized.
Qed.

Lemma nat_description_sanitized (rule : NATRule.t) (d : string) :
  truthy_string (NATRule.description rule) = Some d ->
  In ("set " ^ nat_rule_path rule ^ " description " ^ sanitizeConfigValue d)
     (buildNATRuleCommands rule).
Proof.
  intros Hd. unfold buildNATRuleCommands, nat_rule_path. cbv zeta.
  apply in_or_app. left. unfold if_string. rewrite Hd. left. reflexivity.
Qed.

Lemma ipsec_literals_sanitized (site : IPSecSite.t) :
  let peer := "vpn ipsec site-to-site peer " ^ IPSecSite.remoteAddress site in
  let auth := IPSecSite.authentication site in
  (forall s,
     IPSecAuth.mode auth = "pre-shared-secret" ->
     truthy_string (IPSecAuth.preSharedSecret auth) = Some s ->
     In ("set " ^ peer ^ " authentication pre-shared-secret " ^ sanitizeConfigValue s)
        (buildIPSecCommands site))
  /\ (forall r,
        truthy_string (IPSecAuth.remoteId auth) = Some r ->
        In ("set " ^ peer ^ " authentication remote-id " ^ sanitizeConfigValue r)
           (buildIPSecCommands site))
  /\ (forall l,
        truthy_string (IPSecAuth.localId auth) = Some l ->
        In ("set " ^ peer ^ " authentication local-id " ^ sanitizeConfigValue l)
           (buildIPSecCommands site))
  /\ (forall d,
        truthy_string (IPSecSite.description site) = Some d ->
        In ("set " ^ peer ^ " description " ^ sanitizeConfigValue d)
           (buildIPSecCommands site)).
Proof.
  cbv zeta. unfold buildIPSecCommands. cbv zeta.
  repeat split.
  - intros s Hm Hs. rewrite Hm. cbn [String.eqb Ascii.eqb Bool.eqb].
    do 6 (apply in_or_app; right). apply in_or_app. left.
    unfold if_string. rewrite Hs. left. reflexivity.
  - intros r Hr. do 7 (apply in_or_app; right). apply in_or_app. left.
    unfold if_string. rewrite Hr. left. reflexivity.
  - intros l Hl. do 8 (apply in_or_app; right). apply in_or_app. left.
    unfold if_string. rewrite Hl. left. reflexivity.
  - intros d Hd. do 10 (apply in_or_app; right). apply in_or_app. left.
    unfold if_string. rewrite Hd. left. reflexivity.
Qed.

Lemma in_flat_mapi {A B} (f : nat -> A -> list B) (xs : list A) :
  forall (start index : nat) (x : A) (b : B),
    nth_error xs index = Some x ->
    In b (f (start + index) x) ->
    In b (flat_mapi f start xs).
Proof.
  induction xs as [|y xs IH]; intros start index x b Hnth Hin.
  - destruct index; discriminate.
  - cbn [flat_mapi]. apply in_or_app. destruct index as [|index].
    + left. injection Hnth as ->. now rewrite Nat.add_0_r in Hin.
    + right. apply (IH (S start) index x b Hnth).
      now rewrite <- Nat.add_succ_comm in Hin.
Qed.

Lemma user_literals_sanitized (user : SystemUser.t) :
  let base := "system login user " ^ SystemUser.name user in
  let auth := SystemUser.authentication user in
  (forall f,
     truthy_string (SystemUser.fullName user) = Some f ->
     In ("set " ^ base ^ " full-name " ^ sanitizeConfigValue f)
        (buildUserCommands user))
  /\ (forall p,
        truthy_string (UserAuth.plaintextPassword auth) = Some p ->
        In ("set " ^ base ^ " authentication plaintext-password "
            ^ sanitizeConfigValue p)
           (buildUserCommands user))
  /\ (forall p,
        truthy_string (UserAuth.encryptedPassword auth) = Some p ->
        In ("set " ^ base ^ " authentication encrypted-password "
            ^ sanitizeConfigValue p)
           (buildUserCommands user))
  /\ (forall keys index key,
        UserAuth.publicKeys auth = Some keys ->
        nth_error keys index = Some key ->
        In ("set " ^ base ^ " authentication public-keys key-"
            ^ N_to_string (N.of_nat index) ^ " key " ^ sanitizeConfigValue key)
           (buildUserCommands user)).
Proof.
  cbv zeta. unfold buildUserCommands. cbv zeta.
  repeat split.
  - intros f Hf. apply in_or_app. left.
    unfold if_string. rewrite Hf. left. reflexivity.
  - intros p Hp. do 1 (apply in_or_app; right). apply in_or_app. left.
    unfold if_string. rewrite Hp. left. reflexivity.
  - intros p Hp. do 2 (apply in_or_app; right). apply in_or_app. left.
    unfold if_string. rewrite Hp. left. reflexivity.
  - intros keys index key Hk Hnth. do 3 (apply in_or_app; right).
    apply in_or_app. left. rewrite Hk. cbn [if_object].
    apply (in_flat_mapi _ keys 0 index key _ Hnth).
    left. cbn [Nat.add]. now rewrite !append_assoc.
Qed.

Lemma system_literals_sanitized (system : SystemConfig.t) :
  (forall h,
     truthy_string (SystemConfig.hostName system) = Some h ->
     In ("set system host-name " ^ sanitizeConfigValue h) (buildSystemCommands system))
  /\ (forall d,
        truthy_string (SystemConfig.domainName system) = Some d ->
        In ("set system domain-name " ^ sanitizeConfigValue d)
           (buildSystemCommands system))
  /\ (forall z,
        truthy_string (SystemConfig.timeZone system) = Some z ->
        In ("set system time-zone " ^ sanitizeConfigValue z)
           (buildSystemCommands system))
  /\ (forall login user statement,
        SystemConfig.login system = Some login ->
        In user (LoginConfig.users login) ->
        In statement (buildUserCommands user) ->
        In statement (buildSystemCommands system)).
Proof.
  unfold buildSystemCommands. repeat split.
  - intros h Hh. apply in_or_app. left.
    unfold if_string. rewrite Hh. left. reflexivity.
  - intros d Hd. do 1 (apply in_or_app; right). apply in_or_app. left.
    unfold if_string. rewrite Hd. left. reflexivity.
  - intros z Hz. do 2 (apply in_or_app; right). apply in_or_app. left.
    unfold if_string. rewrite Hz. left. reflexivity.
  - intros login user statement Hl Hu Hs. do 5 (apply in_or_app; right).
    rewrite Hl. cbn [if_object]. apply in_flat_map. exists user. now split.
Qed.

(** C5 (as amended).  In the statement lists of the build methods, the
    literal of each of the following statements is the model's value passed
    through [sanitizeConfigValue]: the description of an interface, static
    route, firewall zone, firewall ruleset, firewall rule, NAT rule and IPsec
    site; the IPv4 and IPv6 addresses of an interface; the IPsec pre-shared
    secret, remote id and local id; the system host name, domain name and time
    zone; and a user's full name, plaintext password, encrypted password and
    public keys. *)
Theorem literals_sanitized :
  (forall iface : NetworkInterface.t,
     (forall d,
        truthy_string (NetworkInterface.description iface) = Some d ->
        In ("set " ^ interface_path iface ^ " description " ^ sanitizeConfigValue d)
           (buildInterfaceCommands iface))
     /\ (forall addr,
           In addr (AddressConfig.ipv4 (NetworkInterface.addresses iface)
                    ++ AddressConfig.ipv6 (NetworkInterface.addresses iface)) ->
           In ("set " ^ interface_path iface ^ " address " ^ sanitizeConfigValue addr)
              (buildInterfaceCommands iface)))
  /\ (forall (route : StaticRoute.t) d,
        truthy_string (StaticRoute.description route) = Some d ->
        In ("set protocols static route " ^ StaticRoute.network route
            ^ " description " ^ sanitizeConfigValue d)
           (buildStaticRouteCommands route))
  /\ (forall (zone : FirewallZone.t) d,
        truthy_string (FirewallZone.description zone) = Some d ->
        In ("set zone-policy zone " ^ FirewallZone.name zone
            ^ " description " ^ sanitizeConfigValue d)
           (buildFirewallZoneCommands zone))
  /\ (forall ruleset : FirewallRuleset.t,
        (forall d,
           truthy_string (FirewallRuleset.description ruleset) = Some d ->
           In ("set firewall name " ^ FirewallRuleset.name ruleset
               ^ " description " ^ sanitizeConfigValue d)
              (buildFirewallRulesetCommands ruleset))
        /\ (forall rule d,
              In rule (FirewallRuleset.rules ruleset) ->
              truthy_string (FirewallRule.description rule) = Some d ->
              In ("set " ^ firewall_rule_path (FirewallRuleset.name ruleset) rule
                  ^ " description " ^ sanitizeConfigValue d)
                 (buildFirewallRulesetCommands ruleset)))
  /\ (forall (rule : NATRule.t) d,
        truthy_string (NATRule.description rule) = Some d ->
        In ("set " ^ nat_rule_path rule ^ " description " ^ sanitizeConfigValue d)
           (buildNATRuleCommands rule))
  /\ (forall site : IPSecSite.t,
        let peer := "vpn ipsec site-to-site peer " ^ IPSecSite.remoteAddress site in
        let auth := IPSecSite.authentication site in
        (forall s,
           IPSecAuth.mode auth = "pre-shared-secret" ->
           truthy_string (IPSecAuth.preSharedSecret auth) = Some s ->
           In ("set " ^ peer ^ " authentication pre-shared-secret "
               ^ sanitizeConfigValue s)
              (buildIPSecCommands site))
        /\ (forall r,
              truthy_string (IPSecAuth.remoteId auth) = Some r ->
              In ("set " ^ peer ^ " authentication remote-id " ^ sanitizeConfigValue r)
                 (buildIPSecCommands site))
        /\ (forall l,
              truthy_string (IPSecAuth.localId auth) = Some l ->
              In ("set " ^ peer ^ " authentication local-id " ^ sanitizeConfigValue l)
                 (buildIPSecCommands site))
        /\ (forall d,
              truthy_string (IPSecSite.description site) = Some d ->
              In ("set " ^ peer ^ " description " ^ sanitizeConfigValue d)
                 (buildIPSecCommands site)))
  /\ (forall system : SystemConfig.t,
        (forall h,
           truthy_string (SystemConfig.hostName system) = Some h ->
           In ("set system host-name " ^ sanitizeConfigValue h)
              (buildSystemCommands system))
        /\ (forall d,
              truthy_string (SystemConfig.domainName system) = Some d ->
              In ("set system domain-name " ^ sanitizeConfigValue d)
                 (buildSystemCommands system))
        /\ (forall z,
              truthy_string (SystemConfig.timeZone system) = Some z ->
              In ("set system time-zone " ^ sanitizeConfigValue z)
                 (buildSystemCommands system))
        /\ (forall login user statement,
              SystemConfig.login system = Some login ->
              In user (LoginConfig.users login) ->
              In statement (buildUserCommands user) ->
              In statement (buildSystemCommands system)))
  /\ (forall user : SystemUser.t,
        let base := "system login user " ^ SystemUser.name user in
        let auth := SystemUser.authentication user in
        (forall f,
           truthy_string (SystemUser.fullName user) = Some f ->
           In ("set " ^ base ^ " full-name " ^ sanitizeConfigValue f)
              (buildUserCommands user))
        /\ (forall p,
              truthy_string (UserAuth.plaintextPassword auth) = Some p ->
              In ("set " ^ base ^ " authentication plaintext-password "
                  ^ sanitizeConfigValue p)
                 (buildUserCommands user))
        /\ (forall p,
              truthy_string (UserAuth.encryptedPassword auth) = Some p ->
              In ("set " ^ base ^ " authentication encrypted-password "
                  ^ sanitizeConfigValue p)
                 (buildUserCommands user))
        /\ (forall keys index key,
              UserAuth.publicKeys auth = Some keys ->
              nth_error keys index = Some key ->
              In ("set " ^ base ^ " authentication public-keys key-"
                  ^ N_to_string (N.of_nat index) ^ " key " ^ sanitizeConfigValue key)
                 (buildUserCommands user))).
Proof.
  split; [exact interface_literals_sanitized|].
  split; [exact route_description_sanitized|].
  split; [exact zone_description_sanitized|].
  split; [exact ruleset_literals_sanitized|].
  split; [exact nat_description_sanitized|].
  split; [exact ipsec_literals_sanitized|].
  split; [exact system_literals_sanitized | exact user_literals_sanitized].
Qed.

Lemma literals_sanitized_witness :
  In "set interfaces ethernet eth1 description 'LAN Interface'"
     (buildInterfaceCommands eth1_lan)
  /\ In "set interfaces ethernet eth1 address 192.168.1.1/24"
        (buildInterfaceCommands eth1_lan).
Proof.
  split.
  - apply (proj1 (proj1 literals_sanitized eth1_lan) "LAN Interface"). reflexivity.
  - apply (proj2 (proj1 literals_sanitized eth1_lan) "192.168.1.1/24").
    left. reflexivity.
Defined.

(** C5 (as stated) fails: the source port of a firewall rule, a
    caller-supplied literal, is embedded as it is; the statement with the
    sanitized literal is not in the list. *)
Lemma rule_port_not_sanitized :
  In "set firewall name WAN rule 10 source port 80, 443"
     (buildFirewallRuleCommands "WAN" wan_rule_10)
  /\ sanitizeConfigValue "80, 443" = "'80, 443'"
  /\ ~ In ("set firewall name WAN rule 10 source port " ^ sanitizeConfigValue "80, 443")
         (buildFirewallRuleCommands "WAN" wan_rule_10).
Proof.
  split; [|split].
  - vm_compute. intuition.
  - reflexivity.
  - vm_compute. intuition discriminate.
Qed.

(** ** Configuration Parser: collections *)

Lemma flat_map_nil {A B} (xs : list A) :
  flat_map (fun _ : A => @nil B) xs = [].
Proof. induction xs as [|x xs IH]; simpl; auto. Qed.

Lemma add_parts_branch (props : list (string * node)) (parts : list string)
  (tree : node) :
  add_parts (Branch props) parts = Ok tree -> exists props', tree = Branch props'.
Proof.
  destruct parts as [|part [|next rest]]; cbn [add_parts typeof_object set_prop].
  - intros H. injection H as <-. eauto.
  - intros H. injection H as <-. eauto.
  - match goal with
    | |- bind ?m _ = _ -> _ => destruct m as [child'|e]
    end; cbn [bind]; intros H.
    + injection H as <-. eauto.
    + discriminate H.
Qed.

Lemma parse_lines_branch (lines : list string) :
  forall (props : list (string * node)) (tree : node),
    parse_lines (Branch props) lines = Ok tree -> exists props', tree = Branch props'.
Proof.
  induction lines as [|line lines IH]; intros props tree H.
  - injection H as <-. eauto.
  - cbn [parse_lines] in H. unfold parse_line in H.
    destruct (negb (non_empty (trim line)) || negb (startsWith (trim line) "set "))%bool.
    + cbn [bind] in H. eauto.
    + unfold addToTree in H.
      destruct (add_parts (Branch props) _) as [tree'|e] eqn:E; cbn [bind] in H.
      * apply add_parts_branch in E as [props' ->]. eauto.
      * discriminate H.
Qed.

Lemma parseIPSecSites_not_null (config : node) :
  config <> Null -> parseIPSecSites config = Ok [].
Proof.
  intros Hn. unfold parseIPSecSites.
  destruct config as [| |props]; [contradiction| |];
    (destruct (truthy _); [now rewrite flat_map_nil | reflexivity]).
Qed.

(** C9.  [parseIPSecSites] returns the empty list for every configuration
    tree, a tree that holds site-to-site peers included; in particular for
    every tree that [parse] produces. *)
Theorem parseIPSecSites_empty :
  (forall config : node, config <> Null -> parseIPSecSites config = Ok [])
  /\ (forall (configText : string) (tree : node),
        parse configText = Ok tree -> parseIPSecSites tree = Ok []).
Proof.
  split; [exact parseIPSecSites_not_null|].
  intros configText tree H. apply parseIPSecSites_not_null.
  apply parse_lines_branch in H as [props ->]. discriminate.
Qed.

Lemma parseIPSecSites_empty_witness :
  keys ipsec_peer_tree = ["vpn"]
  /\ parseIPSecSites ipsec_peer_tree = Ok []
  /\ parseIPSecSites
       (Branch [("vpn", Branch [("ipsec", Branch [("site-to-site",
          Branch [("peer", Branch [("203.0.113.7", Leaf)])])])])])
     = Ok [].
Proof.
  split; [reflexivity|]. split.
  - apply (proj1 parseIPSecSites_empty). discriminate.
  - apply (proj2 parseIPSecSites_empty
             "set vpn ipsec site-to-site peer 203.0.113.7").
    reflexivity.
Defined.

Lemma try_each_In {A B} (f : A -> result B) (xs : list A) (b : B) :
  In b (try_each f xs) <-> exists x, In x xs /\ f x = Ok b.
Proof.
  unfold try_each. rewrite in_flat_map. split.
  - intros [x [Hx Hb]]. exists x. split; [exact Hx|].
    destruct (f x) as [b'|e]; [|contradiction].
    destruct Hb as [->|[]]. reflexivity.
  - intros [x [Hx Hb]]. exists x. split; [exact Hx|]. rewrite Hb. now left.
Qed.

(** An element whose reconstruction throws leaves no trace in the result. *)
Lemma try_each_skip {A B} (f : A -> result B) (l1 l2 : list A) (x : A) (e : error) :
  f x = Throw e -> try_each f (l1 ++ x :: l2) = try_each f (l1 ++ l2).
Proof.
  intros H. unfold try_each. rewrite !flat_map_app. cbn [flat_map].
  now rewrite H.
Qed.

Lemma for_each_total {A B} (f : A -> result (list B)) (xs : list A) :
  (forall x, In x xs -> exists bs, f x = Ok bs) ->
  exists out,
    for_each f xs = Ok out
    /\ forall b, In b out <-> exists x bs, In x xs /\ f x = Ok bs /\ In b bs.
Proof.
  induction xs as [|x xs IH]; intros Hok.
  - exists []. split; [reflexivity|]. intros b. split; [intros [] | intros [? [? [[] _]]]].
  - destruct (Hok x (or_introl eq_refl)) as [bs Hx].
    destruct IH as [out [Hout Hin]]; [intros y Hy; apply Hok; now right|].
    exists (bs ++ out). split.
    + cbn [for_each]. rewrite Hx. cbn [bind]. rewrite Hout. reflexivity.
    + intros b. rewrite in_app_iff, Hin. split.
      * intros [Hb|[y [bs' [Hy [Hfy Hb]]]]].
        -- exists x, bs. auto with datatypes.
        -- exists y, bs'. auto with datatypes.
      * intros [y [bs' [[<-|Hy] [Hfy Hb]]]].
        -- left. rewrite Hx in Hfy. now injection Hfy as ->.
        -- right. eauto.
Qed.

Lemma try_each_pairs {K V B} (f : K -> V -> result B) (xs : list (K * V)) (b : B) :
  In b (try_each (fun '(k, v) => f k v) xs)
  <-> exists k v, In (k, v) xs /\ f k v = Ok b.
Proof.
  rewrite try_each_In. split.
  - intros [[k v] [Hin Hf]]. eauto.
  - intros [k [v [Hin Hf]]]. exists (k, v). auto.
Qed.

Lemma parseInterfaces_contains (config all : node) :
  config <> Null ->
  field config "interfaces" = Some all ->
  (forall type group, In (type, group) (entries_of all) -> group <> Null) ->
  exists interfaces,
    parseInterfaces config = Ok interfaces
    /\ forall iface,
         In iface interfaces
         <-> exists type group name ifaceConfig,
               In (type, group) (entries_of all)
               /\ In (name, ifaceConfig) (entries_of group)
               /\ parseInterface name type ifaceConfig = Ok iface.
Proof.
  intros Hn Hall Hgroups.
  assert (Hp : parseInterfaces config =
    for_each (fun '(type, ifaces) =>
      match ifaces with
      | Leaf => Ok []
      | Null => Throw (TypeError "Cannot convert undefined or null to object")
      | Branch _ =>
          Ok (try_each (fun '(name, ifaceConfig) =>
                parseInterface name type ifaceConfig) (entries_of ifaces))
      end) (entries_of all)).
  { unfold parseInterfaces. destruct config; [contradiction| |]; now rewrite Hall. }
  rewrite Hp.
  match goal with |- context [for_each ?f _] => destruct (for_each_total f (entries_of all)) as [out [Hout Hin]] end.
  { intros [type group] Hx. specialize (Hgroups type group Hx).
    destruct group; [contradiction| |]; eauto. }
  exists out. split; [exact Hout|].
  intros iface. rewrite Hin. split.
  - intros [[type group] [bs [Hx [Hf Hb]]]].
    destruct group as [| |props]; [discriminate Hf | |]; injection Hf as <-.
    + destruct Hb.
    + apply try_each_pairs in Hb as [name [ifaceConfig [Hin' Hok]]].
      exists type, (Branch props), name, ifaceConfig. auto.
  - intros [type [group [name [ifaceConfig [Hx [Hin' Hok]]]]]].
    destruct group as [| |props]; [now apply Hgroups in Hx | destruct Hin' |].
    exists (type, Branch props). eexists. split; [exact Hx|]. split; [reflexivity|].
    apply try_each_pairs. eauto.
Qed.

Lemma parseStaticRoutes_contains (config routes : node) :
  config <> Null ->
  truthy (oget (oget (get config "protocols") "static") "route") = Some routes ->
  exists parsed,
    parseStaticRoutes config = Ok parsed
    /\ forall route,
         In route parsed
         <-> exists network routeConfig,
               In (network, routeConfig) (entries_of routes)
               /\ parseStaticRoute network routeConfig = Ok route.
Proof.
  intros Hn Hr. unfold parseStaticRoutes.
  destruct config; [contradiction| |]; rewrite Hr;
    (eexists; split; [reflexivity|]; intros route; apply try_each_pairs).
Qed.

Lemma parseFirewallZones_contains (config zones : node) :
  config <> Null ->
  truthy (oget (get config "zone-policy") "zone") = Some zones ->
  exists parsed,
    parseFirewallZones config = Ok parsed
    /\ forall zone,
         In zone parsed
         <-> exists name zoneConfig,
               In (name, zoneConfig) (entries_of zones)
               /\ parseFirewallZone name zoneConfig = Ok zone.
Proof.
  intros Hn Hz. unfold parseFirewallZones.
  destruct config; [contradiction| |]; rewrite Hz;
    (eexists; split; [reflexivity|]; intros zone; apply try_each_pairs).
Qed.

Lemma parseFirewallRulesets_contains (config rulesets : node) :
  config <> Null ->
  truthy (oget (get config "firewall") "name") = Some rulesets ->
  exists parsed,
    parseFirewallRulesets config = Ok parsed
    /\ forall ruleset,
         In ruleset parsed
         <-> exists name rulesetConfig,
               In (name, rulesetConfig) (entries_of rulesets)
               /\ parseFirewallRuleset name rulesetConfig = Ok ruleset.
Proof.
  intros Hn Hz. unfold parseFirewallRulesets.
  destruct config; [contradiction| |]; rewrite Hz;
    (eexists; split; [reflexivity|]; intros ruleset; apply try_each_pairs).
Qed.

Lemma parseFirewallRuleset_contains (name : string) (rulesetConfig rules : node) :
  rulesetConfig <> Null ->
  field rulesetConfig "rule" = Some rules ->
  exists ruleset,
    parseFirewallRuleset name rulesetConfig = Ok ruleset
    /\ forall rule,
         In rule (FirewallRuleset.rules ruleset)
         <-> exists number ruleConfig,
               In (number, ruleConfig) (entries_of rules)
               /\ parseFirewallRule (parseInt number) ruleConfig = Ok rule.
Proof.
  intros Hn Hr. unfold parseFirewallRuleset.
  destruct rulesetConfig; [contradiction| |]; rewrite Hr;
    (eexists; split; [reflexivity|]; intros rule; cbn [FirewallRuleset.rules];
     apply (try_each_pairs (fun number ruleConfig =>
              parseFirewallRule (parseInt number) ruleConfig))).
Qed.

Lemma parseNATRules_contains (config nat : node) :
  config <> Null ->
  field config "nat" = Some nat ->
  exists source destination,
    parseNATRules config = Ok (source, destination)
    /\ (forall rules,
          truthy (oget (get nat "source") "rule") = Some rules ->
          forall rule,
            In rule source
            <-> exists number ruleConfig,
                  In (number, ruleConfig) (entries_of rules)
                  /\ parseNATRule "source" (parseInt number) ruleConfig = Ok rule)
    /\ (forall rules,
          truthy (oget (get nat "destination") "rule") = Some rules ->
          forall rule,
            In rule destination
            <-> exists number ruleConfig,
                  In (number, ruleConfig) (entries_of rules)
                  /\ parseNATRule "destination" (parseInt number) ruleConfig = Ok rule).
Proof.
  intros Hn Hnat. unfold parseNATRules.
  destruct config; [contradiction| |]; rewrite Hnat;
    (eexists; eexists; split; [reflexivity|]; split; intros rules Hr rule;
     rewrite Hr;
     apply (try_each_pairs (fun number ruleConfig =>
              parseNATRule _ (parseInt number) ruleConfig))).
Qed.

(** The element reconstructions throw on a [null] element. *)
Lemma element_parsers_throw_on_null :
  (forall name type, exists e, parseInterface name type Null = Throw e)
  /\ (forall network, exists e, parseStaticRoute network Null = Throw e)
  /\ (forall name, exists e, parseFirewallZone name Null = Throw e)
  /\ (forall name, exists e, parseFirewallRuleset name Null = Throw e)
  /\ (forall number, exists e, parseFirewallRule number Null = Throw e)
  /\ (forall type number, exists e, parseNATRule type number Null = Throw e).
Proof.
  repeat split; intros; eexists; reflexivity.
Qed.

(** C10.  Each collection-walking parse function contains the failure of an
    element's reconstruction: for a configuration that is not [null] and that
    holds the collection, the function returns normally, and its result holds
    exactly the elements whose reconstruction succeeded (for
    [parseFirewallRulesets] both at the level of rulesets and, inside each
    ruleset, at the level of rules; for [parseInterfaces], provided no
    interface-type group is [null]).  Reconstruction does fail for some
    elements: it throws on a [null] element. *)
Theorem parse_collections_contain_failures :
  (forall config all : node,
     config <> Null ->
     field config "interfaces" = Some all ->
     (forall type group, In (type, group) (entries_of all) -> group <> Null) ->
     exists interfaces,
       parseInterfaces config = Ok interfaces
       /\ forall iface,
            In iface interfaces
            <-> exists type group name ifaceConfig,
                  In (type, group) (entries_of all)
                  /\ In (name, ifaceConfig) (entries_of group)
                  /\ parseInterface name type ifaceConfig = Ok iface)
  /\ (forall config routes : node,
        config <> Null ->
        truthy (oget (oget (get config "protocols") "static") "route") = Some routes ->
        exists parsed,
          parseStaticRoutes config = Ok parsed
          /\ forall route,
               In route parsed
               <-> exists network routeConfig,
                     In (network, routeConfig) (entries_of routes)
                     /\ parseStaticRoute network routeConfig = Ok route)
  /\ (forall config zones : node,
        config <> Null ->
        truthy (oget (get config "zone-policy") "zone") = Some zones ->
        exists parsed,
          parseFirewallZones config = Ok parsed
          /\ forall zone,
               In zone parsed
               <-> exists name zoneConfig,
                     In (name, zoneConfig) (entries_of zones)
                     /\ parseFirewallZone name zoneConfig = Ok zone)
  /\ (forall config rulesets : node,
        config <> Null ->
        truthy (oget (get config "firewall") "name") = Some rulesets ->
        exists parsed,
          parseFirewallRulesets config = Ok parsed
          /\ forall ruleset,
               In ruleset parsed
               <-> exists name rulesetConfig,
                     In (name, rulesetConfig) (entries_of rulesets)
                     /\ parseFirewallRuleset name rulesetConfig = Ok ruleset)
  /\ (forall (name : string) (rulesetConfig rules : node),
        rulesetConfig <> Null ->
        field rulesetConfig "rule" = Some rules ->
        exists ruleset,
          parseFirewallRuleset name rulesetConfig = Ok ruleset
          /\ forall rule,
               In rule (FirewallRuleset.rules ruleset)
               <-> exists number ruleConfig,
                     In (number, ruleConfig) (entries_of rules)
                     /\ parseFirewallRule (parseInt number) ruleConfig = Ok rule)
  /\ (forall config nat : node,
        config <> Null ->
        field config "nat" = Some nat ->
        exists source destination,
          parseNATRules config = Ok (source, destination)
          /\ (forall rules,
                truthy (oget (get nat "source") "rule") = Some rules ->
                forall rule,
                  In rule source
                  <-> exists number ruleConfig,
                        In (number, ruleConfig) (entries_of rules)
                        /\ parseNATRule "source" (parseInt number) ruleConfig = Ok rule)
          /\ (forall rules,
                truthy (oget (get nat "destination") "rule") = Some rules ->
                forall rule,
                  In rule destination
                  <-> exists number ruleConfig,
                        In (number, ruleConfig) (entries_of rules)
                        /\ parseNATRule "destination" (parseInt number) ruleConfig
                           = Ok rule))
  /\ ((forall name type, exists e, parseInterface name type Null = Throw e)
      /\ (forall network, exists e, parseStaticRoute network Null = Throw e)
      /\ (forall name, exists e, parseFirewallZone name Null = Throw e)
      /\ (forall name, exists e, parseFirewallRuleset name Null = Throw e)
      /\ (forall number, exists e, parseFirewallRule number Null = Throw e)
      /\ (forall type number, exists e, parseNATRule type number Null = Throw e)).
Proof.
  split; [exact parseInterfaces_contains|].
  split; [exact parseStaticRoutes_contains|].
  split; [exact parseFirewallZones_contains|].
  split; [exact parseFirewallRulesets_contains|].
  split; [exact parseFirewallRuleset_contains|].
  split; [exact parseNATRules_contains | exact element_parsers_throw_on_null].
Qed.

Lemma parse_collections_contain_failures_witness :
  (exists e, parseStaticRoute "10.0.0.0/8" Null = Throw e)
  /\ parseStaticRoutes routes_with_null
     = Ok [StaticRoute.mk "10.1.0.0/16" (Some "192.0.2.1") None None None]
  /\ exists parsed,
       parseStaticRoutes routes_with_null = Ok parsed
       /\ forall route,
            In route parsed
            <-> exists network routeConfig,
                  In (network, routeConfig)
                     (entries_of
                        (Branch
                           [("10.0.0.0/8", Null);
                            ("10.1.0.0/16",
                             Branch [("next-hop", Branch [("192.0.2.1", Leaf)])])]))
                  /\ parseStaticRoute network routeConfig = Ok route.
Proof.
  split; [eexists; reflexivity|]. split; [reflexivity|].
  apply (proj1 (proj2 parse_collections_contain_failures) routes_with_null).
  - discriminate.
  - reflexivity.
Defined.

(** ** Configuration Parser: leaf and branch on one path *)

Lemma lookup_assign_same {A} (k : string) (v : A) (props : list (string * A)) :
  lookup k (assign k v props) = Some v.
Proof.
  induction props as [|[k' v'] props IH]; cbn [assign lookup].
  - now rewrite String.eqb_refl.
  - destruct (String.eqb k k') eqn:E; cbn [lookup].
    + now rewrite String.eqb_refl.
    + now rewrite E.
Qed.

Lemma assign_present {A} (k : string) (v : A) (props : list (string * A)) :
  lookup k props = Some v -> assign k v props = props.
Proof.
  induction props as [|[k' v'] props IH]; cbn [assign lookup]; [discriminate|].
  destruct (String.eqb k k') eqn:E.
  - intros H. injection H as ->. apply String.eqb_eq in E as ->. reflexivity.
  - intros H. now rewrite IH.
Qed.

Lemma truthy_Some (o : option node) (n : node) :
  truthy o = Some n -> o = Some n /\ n <> Null.
Proof.
  destruct o as [[| |props]|]; cbn; intros H; try discriminate;
    injection H as <-; split; (reflexivity || discriminate).
Qed.

(** A statement that extends, by one segment, a path that already ends in a
    leaf changes nothing and raises nothing. *)
Lemma add_parts_below_leaf (extra : string) :
  forall (path : list string) (tree : node),
    path <> [] ->
    at_path tree path = Some Leaf ->
    add_parts tree (path ++ [extra]) = Ok tree.
Proof.
  induction path as [|k path IH]; intros tree Hne Hat; [contradiction|].
  cbn [at_path] in Hat.
  destruct tree as [| |props]; [discriminate Hat | discriminate Hat |].
  unfold field in Hat. cbn [get] in Hat.
  destruct (truthy (lookup k props)) as [child|] eqn:Ek; [|discriminate Hat].
  apply truthy_Some in Ek as Hk. destruct Hk as [Hl _].
  destruct path as [|k' path].
  - cbn [at_path] in Hat. injection Hat as ->.
    cbn [app add_parts]. rewrite Ek. cbn [add_parts typeof_object bind].
    now rewrite (assign_present _ _ _ Hl).
  - change ((k :: k' :: path) ++ [extra]) with (k :: (k' :: path) ++ [extra]).
    assert (Hc : add_parts child ((k' :: path) ++ [extra]) = Ok child)
      by (apply IH; [discriminate | exact Hat]).
    cbn [app] in Hc |- *. cbn [add_parts]. rewrite Ek.
    cbn [add_parts] in Hc. rewrite Hc. cbn [bind].
    now rewrite (assign_present _ _ _ Hl).
Qed.

(** A statement that ends on a path where a branch stands replaces the
    branch by a leaf and raises nothing. *)
Lemma add_parts_over_branch :
  forall (path : list string) (tree : node) (below : list (string * node)),
    path <> [] ->
    at_path tree path = Some (Branch below) ->
    exists tree',
      add_parts tree path = Ok tree' /\ at_path tree' path = Some Leaf.
Proof.
  induction path as [|k path IH]; intros tree below Hne Hat; [contradiction|].
  cbn [at_path] in Hat.
  destruct tree as [| |props]; [discriminate Hat | discriminate Hat |].
  unfold field in Hat. cbn [get] in Hat.
  destruct (truthy (lookup k props)) as [child|] eqn:Ek; [|discriminate Hat].
  destruct path as [|k' path].
  - exists (Branch (assign k Leaf props)). split; [reflexivity|].
    cbn [at_path]. unfold field. cbn [get]. now rewrite lookup_assign_same.
  - destruct (IH child below) as [child' [Hadd Hat']]; [discriminate | exact Hat |].
    exists (Branch (assign k child' props)). split.
    + cbn [add_parts]. rewrite Ek. cbn [add_parts] in Hadd. rewrite Hadd. reflexivity.
    + cbn [at_path]. unfold field. cbn [get]. rewrite lookup_assign_same.
      destruct child'; [discriminate Hat' | discriminate Hat' | exact Hat'].
Qed.

(** A statement that extends, by two segments or more, a path that already
    ends in a leaf makes [addToTree] throw. *)
Lemma add_parts_far_below_leaf (extra1 extra2 : string) (more : list string) :
  forall (path : list string) (tree : node),
    path <> [] ->
    at_path tree path = Some Leaf ->
    exists e, add_parts tree (path ++ extra1 :: extra2 :: more) = Throw e.
Proof.
  induction path as [|k path IH]; intros tree Hne Hat; [contradiction|].
  cbn [at_path] in Hat.
  destruct tree as [| |props]; [discriminate Hat | discriminate Hat |].
  unfold field in Hat. cbn [get] in Hat.
  destruct (truthy (lookup k props)) as [child|] eqn:Ek; [|discriminate Hat].
  destruct path as [|k' path].
  - cbn [at_path] in Hat. injection Hat as ->.
    cbn [app add_parts]. rewrite Ek. cbn [add_parts bind]. eauto.
  - destruct (IH child) as [e He]; [discriminate | exact Hat |].
    exists e. cbn [app] in He |- *. cbn [add_parts]. rewrite Ek.
    cbn [add_parts] in He. rewrite He. reflexivity.
Qed.

(** C6 (as amended).  When a statement path ends where a leaf already
    stands and a later statement extends that path by one segment, the leaf
    stays a leaf, the extra segment is not recorded (the tree is unchanged),
    and nothing is raised.  When a statement ends on a path where a branch
    already stands, the branch is replaced by a leaf, and nothing is raised.
    In neither order is the existing node coerced to a branch. *)
Theorem leaf_branch_conflict :
  (forall (path : list string) (tree : node) (extra : string),
     path <> [] ->
     at_path tree path = Some Leaf ->
     add_parts tree (path ++ [extra]) = Ok tree)
  /\ (forall (path : list string) (tree : node) (below : list (string * node)),
        path <> [] ->
        at_path tree path = Some (Branch below) ->
        exists tree',
          add_parts tree path = Ok tree' /\ at_path tree' path = Some Leaf).
Proof.
  split.
  - intros path tree extra. apply add_parts_below_leaf.
  - exact add_parts_over_branch.
Qed.

Lemma leaf_branch_conflict_witness :
  addToTree ssh_leaf_tree "service ssh port" = Ok ssh_leaf_tree
  /\ exists tree',
       addToTree ssh_port_tree "service ssh" = Ok tree'
       /\ at_path tree' ["service"; "ssh"] = Some Leaf.
Proof.
  split.
  - apply (proj1 leaf_branch_conflict ["service"; "ssh"] ssh_leaf_tree "port").
    + discriminate.
    + reflexivity.
  - apply (proj2 leaf_branch_conflict ["service"; "ssh"] ssh_port_tree [("port", Leaf)]).
    + discriminate.
    + reflexivity.
Defined.

(** C6 (as stated) fails in both orders.  After [set service ssh], the
    statement [set service ssh port] leaves [ssh] a leaf and records no
    [port] beneath it; after [set service ssh port], the statement
    [set service ssh] turns the branch [ssh] into a leaf and [port] is gone. *)
Lemma leaf_not_coerced_to_branch :
  (exists tree,
     parse ("set service ssh" ^ String nl "set service ssh port") = Ok tree
     /\ at_path tree ["service"; "ssh"] = Some Leaf
     /\ at_path tree ["service"; "ssh"; "port"] = None)
  /\ (exists tree,
        parse ("set service ssh port" ^ String nl "set service ssh") = Ok tree
        /\ at_path tree ["service"; "ssh"] = Some Leaf
        /\ at_path tree ["service"; "ssh"; "port"] = None).
Proof.
  split; (eexists; split; [reflexivity|]; split; reflexivity).
Qed.

(** ** Round trip: numbers *)

Lemma digit_of_digit_char (d : N) :
  (d < 10)%N -> digit_of (digit_char d) = Some d.
Proof.
  intros H. unfold digit_of, digit_char.
  rewrite N_ascii_embedding by lia.
  replace ((48 <=? 48 + d)%N) with true by (symmetry; apply N.leb_le; lia).
  replace ((48 + d <=? 57)%N) with true by (symmetry; apply N.leb_le; lia).
  cbn [andb]. f_equal. lia.
Qed.

Lemma to_digits_S (fuel : nat) (n : N) (acc : string) :
  to_digits (S fuel) n acc =
    if (n <? 10)%N then String (digit_char (n mod 10)) acc
    else to_digits fuel (n / 10) (String (digit_char (n mod 10)) acc).
Proof. reflexivity. Qed.

Lemma digits_acc_to_digits (fuel : nat) :
  forall (n : N) (acc : string),
    (n < 10 ^ N.of_nat (S fuel))%N ->
    digits_acc (to_digits (S fuel) n acc) None = digits_acc acc (Some n).
Proof.
  induction fuel as [|fuel IH]; intros n acc Hn.
  - change (10 ^ N.of_nat 1)%N with 10%N in Hn.
    rewrite to_digits_S. apply N.ltb_lt in Hn as Hb. rewrite Hb.
    cbn [digits_acc]. rewrite N.mod_small by exact Hn.
    rewrite digit_of_digit_char by exact Hn. reflexivity.
  - rewrite to_digits_S. destruct (n <? 10)%N eqn:Hb.
    + apply N.ltb_lt in Hb. cbn [digits_acc]. rewrite N.mod_small by exact Hb.
      rewrite digit_of_digit_char by exact Hb. reflexivity.
    + apply N.ltb_ge in Hb.
      rewrite IH.
      * cbn [digits_acc].
        rewrite digit_of_digit_char by (apply N.mod_lt; lia).
        f_equal. f_equal.
        rewrite (N.div_mod n 10) at 3 by lia. reflexivity.
      * apply N.Div0.div_lt_upper_bound.
        replace (N.of_nat (S (S fuel))) with (N.succ (N.of_nat (S fuel))) in Hn by lia.
        now rewrite N.pow_succ_r' in Hn.
Qed.

Lemma N_to_string_fuel (n : N) : (n < 10 ^ N.of_nat (S (N.to_nat (N.log2 n))))%N.
Proof.
  destruct n as [|p].
  - reflexivity.
  - replace (N.of_nat (S (N.to_nat (N.log2 (N.pos p)))))
      with (N.succ (N.log2 (N.pos p))) by lia.
    apply N.lt_le_trans with (2 ^ N.succ (N.log2 (N.pos p)))%N.
    + apply N.log2_spec. reflexivity.
    + apply N.pow_le_mono_l. lia.
Qed.

Lemma digits_acc_N_to_string (n : N) : digits_acc (N_to_string n) None = Some n.
Proof.
  unfold N_to_string. rewrite digits_acc_to_digits by apply N_to_string_fuel.
  reflexivity.
Qed.

Lemma digit_char_cases (d : N) :
  (d < 10)%N ->
  plain_char (digit_char d) = true
  /\ is_whitespace (digit_char d) = false
  /\ Ascii.eqb (digit_char d) "-"%char = false
  /\ Ascii.eqb (digit_char d) "+"%char = false.
Proof.
  intros H.
  assert (E : (d = 0 \/ d = 1 \/ d = 2 \/ d = 3 \/ d = 4 \/ d = 5 \/ d = 6
               \/ d = 7 \/ d = 8 \/ d = 9)%N) by lia.
  repeat (destruct E as [->|E]; [repeat split; reflexivity|]).
  subst d. repeat split; reflexivity.
Qed.

Lemma to_digits_plain (fuel : nat) :
  forall (n : N) (acc : string),
    all_chars plain_char acc = true ->
    all_chars plain_char (to_digits fuel n acc) = true.
Proof.
  induction fuel as [|fuel IH]; intros n acc Hacc; [exact Hacc|].
  assert (Hd : all_chars plain_char (String (digit_char (n mod 10)) acc) = true).
  { unfold all_chars, chars in *. cbn [list_ascii_of_string forallb]. rewrite Hacc.
    destruct (digit_char_cases (n mod 10)) as [-> _]; [apply N.mod_lt; lia|].
    reflexivity. }
  rewrite to_digits_S. destruct (n <? 10)%N; [exact Hd | now apply IH].
Qed.

Lemma to_digits_head (fuel : nat) :
  forall (n : N) (acc : string),
    exists d s, (d < 10)%N /\ to_digits (S fuel) n acc = String (digit_char d) s.
Proof.
  induction fuel as [|fuel IH]; intros n acc; rewrite to_digits_S.
  - destruct (n <? 10)%N; exists (n mod 10)%N, acc;
      (split; [apply N.mod_lt; lia | reflexivity]).
  - destruct (n <? 10)%N; [|apply IH].
    exists (n mod 10)%N, acc. split; [apply N.mod_lt; lia | reflexivity].
Qed.

Lemma parseInt_Z_to_string (z : Z) : parseInt (Z_to_string z) = Num z.
Proof.
  unfold Z_to_string, parseInt.
  destruct (z <? 0)%Z eqn:Hz.
  - cbn [trimStart]. change (is_whitespace "-") with false. cbv iota.
    change (Ascii.eqb "-" "-") with true. cbv iota.
    rewrite digits_acc_N_to_string. f_equal. apply Z.ltb_lt in Hz. lia.
  - destruct (to_digits_head (N.to_nat (N.log2 (Z.abs_N z))) (Z.abs_N z) EmptyString)
      as [d [s [Hd Hs]]].
    pose proof (digits_acc_N_to_string (Z.abs_N z)) as Hacc.
    unfold N_to_string in *. rewrite Hs in *.
    destruct (digit_char_cases d Hd) as [_ [Hw [Hm Hp]]].
    cbn [trimStart]. rewrite Hw, Hm, Hp, Hacc. f_equal.
    apply Z.ltb_ge in Hz. lia.
Qed.

Lemma N_to_string_plain (n : N) : plain_token (N_to_string n) = true.
Proof.
  unfold plain_token. apply andb_true_intro. split.
  - unfold N_to_string.
    destruct (to_digits_head (N.to_nat (N.log2 n)) n EmptyString) as [d [s [_ ->]]].
    reflexivity.
  - apply to_digits_plain. reflexivity.
Qed.

Lemma number_to_string_plain (n : number) : plain_token (number_to_string n) = true.
Proof.
  destruct n as [|z]; [reflexivity|]. cbn [number_to_string]. unfold Z_to_string.
  destruct (z <? 0)%Z; [|apply N_to_string_plain].
  pose proof (N_to_string_plain (Z.abs_N z)) as H.
  unfold plain_token, all_chars, chars in *.
  apply andb_prop in H as [_ H]. cbn. exact H.
Qed.

(** ** Round trip: tokenizer *)

Lemma all_chars_append (p : ascii -> bool) (a b : string) :
  all_chars p (a ^ b) = (all_chars p a && all_chars p b)%bool.
Proof.
  unfold all_chars. now rewrite chars_append, forallb_app.
Qed.

Lemma plain_char_cases (c : ascii) :
  plain_char c = true ->
  is_whitespace c = false /\ Ascii.eqb c squote = false
  /\ Ascii.eqb c dquote = false /\ Ascii.eqb c space = false
  /\ Ascii.eqb c nl = false.
Proof.
  unfold plain_char. intros H. apply negb_true_iff in H.
  apply orb_false_elim in H as [H Hd]. apply orb_false_elim in H as [Hw Hs].
  repeat split; try assumption.
  - destruct (Ascii.eqb c space) eqn:E; [|reflexivity].
    apply Ascii.eqb_eq in E. subst c. discriminate Hw.
  - destruct (Ascii.eqb c nl) eqn:E; [|reflexivity].
    apply Ascii.eqb_eq in E. subst c. discriminate Hw.
Qed.

Lemma text_char_cases (c : ascii) :
  text_char c = true ->
  Ascii.eqb c squote = false /\ Ascii.eqb c dquote = false
  /\ Ascii.eqb c nl = false.
Proof.
  unfold text_char. intros H. apply orb_prop in H as [H|H].
  - apply Ascii.eqb_eq in H. subst c. repeat split; reflexivity.
  - apply plain_char_cases in H. tauto.
Qed.

(** Plain characters accumulate into the current token, inside or outside
    quotes. *)
Lemma split_parts_plain (w : string) :
  forall (rest current : string) (inQuotes : bool),
    all_chars plain_char w = true ->
    split_parts (w ^ rest) current inQuotes
    = split_parts rest (current ^ w) inQuotes.
Proof.
  induction w as [|c w IH]; intros rest current inQuotes H.
  - cbn [append]. now rewrite append_nil_r.
  - unfold all_chars, chars in H. cbn [list_ascii_of_string forallb] in H.
    apply andb_prop in H as [Hc Hw].
    destruct (plain_char_cases c Hc) as [_ [Hs [Hd [Hsp _]]]].
    cbn [append split_parts]. rewrite Hs, Hd, Hsp. cbn [orb andb].
    rewrite IH by exact Hw. now rewrite append_assoc.
Qed.

(** Inside quotes, spaces accumulate too. *)
Lemma split_parts_text (v : string) :
  forall (rest current : string),
    all_chars text_char v = true ->
    split_parts (v ^ rest) current true = split_parts rest (current ^ v) true.
Proof.
  induction v as [|c v IH]; intros rest current H.
  - cbn [append]. now rewrite append_nil_r.
  - unfold all_chars, chars in H. cbn [list_ascii_of_string forallb] in H.
    apply andb_prop in H as [Hc Hv].
    destruct (text_char_cases c Hc) as [Hs [Hd _]].
    cbn [append split_parts]. rewrite Hs, Hd. cbn [orb negb andb].
    rewrite andb_false_r.
    rewrite IH by exact Hv. now rewrite append_assoc.
Qed.

Lemma escape_quotes_text (v : string) :
  all_chars text_char v = true -> escape_quotes v = v.
Proof.
  induction v as [|c v IH]; intros H; [reflexivity|].
  unfold all_chars, chars in H. cbn [list_ascii_of_string forallb] in H.
  apply andb_prop in H as [Hc Hv].
  destruct (text_char_cases c Hc) as [Hs _].
  cbn [escape_quotes]. rewrite Hs. now rewrite IH.
Qed.

Lemma text_without_space_plain (v : string) :
  all_chars text_char v = true ->
  includes v " " = false ->
  all_chars plain_char v = true.
Proof.
  change " " with (String space EmptyString). rewrite includes_char.
  unfold all_chars. induction (chars v) as [|c l IH]; [reflexivity|].
  cbn [forallb existsb]. intros H Hn.
  apply andb_prop in H as [Hc Hl]. apply orb_false_elim in Hn as [Hsp Hn].
  rewrite IH by assumption. unfold text_char in Hc.
  rewrite Ascii.eqb_sym, Hsp in Hc. cbn [orb] in Hc. now rewrite Hc.
Qed.

Lemma text_not_quote (v : string) :
  all_chars text_char v = true -> includes v "'" = false.
Proof.
  change "'" with (String squote EmptyString). rewrite includes_char.
  unfold all_chars. induction (chars v) as [|c l IH]; [reflexivity|].
  cbn [forallb existsb]. intros H. apply andb_prop in H as [Hc Hl].
  destruct (text_char_cases c Hc) as [Hs _].
  rewrite Ascii.eqb_sym, Hs. cbn [orb]. now apply IH.
Qed.

(** A sanitized free-text value is read back as the value itself. *)
Lemma split_parts_sanitized (v rest current : string) :
  all_chars text_char v = true ->
  split_parts (sanitizeConfigValue v ^ rest) current false
  = split_parts rest (current ^ v) false.
Proof.
  intros H. unfold sanitizeConfigValue.
  rewrite (text_not_quote v H), orb_false_r.
  destruct (includes v " ") eqn:Hsp.
  - rewrite (escape_quotes_text v H). rewrite !append_assoc.
    cbn [append split_parts]. change (Ascii.eqb "'" squote) with true. cbn [orb negb].
    rewrite split_parts_text by exact H.
    cbn [split_parts]. change (Ascii.eqb "'" squote) with true. reflexivity.
  - apply split_parts_plain. now apply text_without_space_plain.
Qed.

Lemma split_parts_space (rest current : string) :
  non_empty current = true ->
  split_parts (String space rest) current false
  = current :: split_parts rest EmptyString false.
Proof.
  intros H. cbn [split_parts].
  change (Ascii.eqb space squote) with false.
  change (Ascii.eqb space dquote) with false.
  change (Ascii.eqb space space) with true. cbn [orb andb negb].
  now rewrite H.
Qed.

Lemma split_parts_end (current : string) :
  non_empty current = true -> split_parts EmptyString current false = [current].
Proof. intros H. cbn [split_parts]. now rewrite H. Qed.

(** A plain word followed by a space is one token. *)
Lemma split_parts_word (w rest : string) :
  plain_token w = true ->
  split_parts (w ^ String space rest) EmptyString false
  = w :: split_parts rest EmptyString false.
Proof.
  intros H. apply andb_prop in H as [Hne Hp].
  rewrite split_parts_plain by exact Hp. cbn [append].
  now apply split_parts_space.
Qed.

(** A plain word that ends the line is the last token. *)
Lemma split_parts_last_word (w : string) :
  plain_token w = true -> split_parts w EmptyString false = [w].
Proof.
  intros H. apply andb_prop in H as [Hne Hp].
  rewrite <- (append_nil_r w) at 1.
  rewrite split_parts_plain by exact Hp. cbn [append].
  now apply split_parts_end.
Qed.

(** A sanitized free-text value that ends the line is the last token. *)
Lemma split_parts_last_sanitized (v : string) :
  text_value v = true ->
  split_parts (sanitizeConfigValue v) EmptyString false = [v].
Proof.
  intros H. apply andb_prop in H as [Hne Ht].
  rewrite <- (append_nil_r (sanitizeConfigValue v)).
  rewrite split_parts_sanitized by exact Ht. cbn [append].
  now apply split_parts_end.
Qed.

(** ** Round trip: lines *)

Lemma non_empty_append_r (a b : string) :
  non_empty b = true -> non_empty (a ^ b) = true.
Proof. destruct a; [trivial | reflexivity]. Qed.

Lemma trimEnd_append (a b : string) :
  ends_well b = true -> trimEnd (a ^ b) = a ^ b.
Proof.
  intros H. apply andb_prop in H as [Hne Hb]. apply String.eqb_eq in Hb.
  induction a as [|c a IH]; [exact Hb|].
  cbn [append trimEnd]. rewrite IH.
  pose proof (non_empty_append_r a b Hne) as Hab.
  destruct (a ^ b); [discriminate Hab | reflexivity].
Qed.

Lemma ends_well_append (a b : string) :
  ends_well b = true -> ends_well (a ^ b) = true.
Proof.
  intros H. unfold ends_well. rewrite (trimEnd_append a b H), String.eqb_refl.
  apply andb_prop in H as [Hne _]. now rewrite non_empty_append_r.
Qed.

Lemma trimEnd_plain (w : string) :
  all_chars plain_char w = true -> trimEnd w = w.
Proof.
  induction w as [|c w IH]; intros H; [reflexivity|].
  unfold all_chars, chars in H. cbn [list_ascii_of_string forallb] in H.
  apply andb_prop in H as [Hc Hw].
  destruct (plain_char_cases c Hc) as [Hws _].
  cbn [trimEnd]. rewrite (IH Hw), Hws. now destruct w.
Qed.

Lemma ends_well_plain (w : string) : plain_token w = true -> ends_well w = true.
Proof.
  intros H. apply andb_prop in H as [Hne Hp]. unfold ends_well.
  now rewrite Hne, (trimEnd_plain w Hp), String.eqb_refl.
Qed.

Lemma ends_well_sanitized (v : string) :
  text_value v = true -> ends_well (sanitizeConfigValue v) = true.
Proof.
  intros H. apply andb_prop in H as [Hne Ht]. unfold sanitizeConfigValue.
  rewrite (text_not_quote v Ht), orb_false_r.
  destruct (includes v " ") eqn:Hsp.
  - rewrite <- append_assoc. now apply ends_well_append.
  - apply ends_well_plain. unfold plain_token.
    now rewrite Hne, (text_without_space_plain v Ht Hsp).
Qed.

Lemma all_chars_impl (p q : ascii -> bool) (s : string) :
  (forall c, p c = true -> q c = true) ->
  all_chars p s = true -> all_chars q s = true.
Proof.
  intros Hpq. unfold all_chars. induction (chars s) as [|c l IH]; [trivial|].
  cbn [forallb]. intros H. apply andb_prop in H as [Hc Hl].
  now rewrite (Hpq c Hc), IH.
Qed.

Lemma no_nl_append (a b : string) : no_nl (a ^ b) = (no_nl a && no_nl b)%bool.
Proof. apply all_chars_append. Qed.

Lemma no_nl_text (v : string) : all_chars text_char v = true -> no_nl v = true.
Proof.
  apply all_chars_impl. intros c Hc.
  destruct (text_char_cases c Hc) as [_ [_ ->]]. reflexivity.
Qed.

Lemma no_nl_plain (w : string) : plain_token w = true -> no_nl w = true.
Proof.
  intros H. apply andb_prop in H as [_ H]. revert H.
  apply all_chars_impl. intros c Hc.
  destruct (plain_char_cases c Hc) as [_ [_ [_ [_ ->]]]]. reflexivity.
Qed.

Lemma no_nl_sanitized (v : string) :
  text_value v = true -> no_nl (sanitizeConfigValue v) = true.
Proof.
  intros H. apply andb_prop in H as [_ Ht]. unfold sanitizeConfigValue.
  destruct (includes v " " || includes v "'")%bool; [|now apply no_nl_text].
  rewrite (escape_quotes_text v Ht), !no_nl_append, (no_nl_text v Ht). reflexivity.
Qed.

Lemma startsWith_append (a b : string) : startsWith (a ^ b) a = true.
Proof.
  unfold startsWith. induction a as [|c a IH]; cbn [append String.prefix].
  - now destruct b.
  - destruct (ascii_dec c c) as [_|Hne]; [exact IH | now elim Hne].
Qed.

Lemma lex_line_set (body : string) :
  ends_well body = true ->
  lex_line ("set " ^ body) = Some (split_parts body EmptyString false).
Proof.
  intros H. unfold lex_line, trim.
  change (trimStart ("set " ^ body)) with ("set " ^ body).
  rewrite (trimEnd_append "set " body H), startsWith_append. reflexivity.
Qed.

Lemma lex_line_delete (body : string) :
  ends_well body = true -> lex_line ("delete " ^ body) = None.
Proof.
  intros H. unfold lex_line, trim.
  change (trimStart ("delete " ^ body)) with ("delete " ^ body).
  rewrite (trimEnd_append "delete " body H). reflexivity.
Qed.

Lemma split_lines_nonempty (s : string) : split_lines s <> [].
Proof.
  destruct s as [|c s]; cbn [split_lines]; [discriminate|].
  destruct (split_lines s); [discriminate|].
  destruct (Ascii.eqb c nl); discriminate.
Qed.

Lemma split_lines_line (a rest : string) :
  no_nl a = true ->
  split_lines (a ^ String nl rest) = a :: split_lines rest.
Proof.
  induction a as [|c a IH]; intros H.
  - cbn [append split_lines]. pose proof (split_lines_nonempty rest) as Hne.
    destruct (split_lines rest); [contradiction|].
    now rewrite Ascii.eqb_refl.
  - unfold no_nl, all_chars, chars in H. cbn [list_ascii_of_string forallb] in H.
    apply andb_prop in H as [Hc Ha]. apply negb_true_iff in Hc.
    cbn [append split_lines]. rewrite (IH Ha), Hc. reflexivity.
Qed.

Lemma split_lines_last (a : string) : no_nl a = true -> split_lines a = [a].
Proof.
  induction a as [|c a IH]; intros H; [reflexivity|].
  unfold no_nl, all_chars, chars in H. cbn [list_ascii_of_string forallb] in H.
  apply andb_prop in H as [Hc Ha]. apply negb_true_iff in Hc.
  cbn [split_lines]. rewrite (IH Ha), Hc. reflexivity.
Qed.

Lemma split_lines_render (statements : list string) :
  Forall (fun s => no_nl s = true) statements ->
  statements <> [] ->
  split_lines (render statements) = statements.
Proof.
  unfold render, join.
  induction statements as [|s statements IH]; intros Hall Hne; [contradiction|].
  inversion Hall as [|? ? Hs Hall']; subst.
  destruct statements as [|s' statements].
  - cbn [String.concat]. now apply split_lines_last.
  - change (String.concat (String nl EmptyString) (s :: s' :: statements))
      with (s ^ String nl (String.concat (String nl EmptyString) (s' :: statements))).
    rewrite split_lines_line by exact Hs.
    rewrite IH; [reflexivity | exact Hall' | discriminate].
Qed.

Lemma parse_line_lex (tree : node) (line : string) :
  parse_line tree line =
    match lex_line line with
    | Some parts => add_parts tree parts
    | None => Ok tree
    end.
Proof.
  unfold parse_line, lex_line, addToTree.
  now destruct (negb (non_empty (trim line)) || negb (startsWith (trim line) "set "))%bool.
Qed.

Lemma parse_lines_lex (lines : list string) :
  forall tree, parse_lines tree lines = add_all tree (lex lines).
Proof.
  induction lines as [|line lines IH]; intros tree; [reflexivity|].
  cbn [parse_lines lex flat_map]. rewrite parse_line_lex.
  destruct (lex_line line) as [parts|]; cbn [app add_all bind].
  - destruct (add_parts tree parts); cbn [bind]; [apply IH | reflexivity].
  - apply IH.
Qed.

(** Parsing the rendering of a statement list is building the tree from the
    statements' tokens. *)
Lemma parse_render (statements : list string) :
  Forall (fun s => no_nl s = true) statements ->
  parse (render statements) = add_all (Branch []) (lex statements).
Proof.
  intros Hall. unfold parse. destruct statements as [|s statements].
  - reflexivity.
  - rewrite split_lines_render by (assumption || discriminate).
    apply parse_lines_lex.
Qed.

(** ** Round trip: building a tree from its statement paths *)

Lemma add_all_app (a b : list (list string)) :
  forall tree,
    add_all tree (a ++ b) = (tree' <- add_all tree a ;; add_all tree' b).
Proof.
  induction a as [|parts a IH]; intros tree; [reflexivity|].
  cbn [app add_all]. destruct (add_parts tree parts); cbn [bind]; [apply IH | reflexivity].
Qed.

Lemma lookup_assign_other {A} (k k' : string) (v : A) (props : list (string * A)) :
  k <> k' -> lookup k (assign k' v props) = lookup k props.
Proof.
  intros Hne. induction props as [|[k0 v0] props IH]; cbn [assign lookup].
  - apply String.eqb_neq in Hne. now rewrite Hne.
  - destruct (String.eqb k' k0) eqn:E; cbn [lookup].
    + apply String.eqb_eq in E. subst k0.
      apply String.eqb_neq in Hne. now rewrite Hne.
    + now rewrite IH.
Qed.

Lemma assign_assign {A} (k : string) (v v' : A) (props : list (string * A)) :
  assign k v (assign k v' props) = assign k v props.
Proof.
  induction props as [|[k0 v0] props IH]; cbn [assign].
  - now rewrite String.eqb_refl.
  - destruct (String.eqb k k0) eqn:E; cbn [assign].
    + now rewrite String.eqb_refl.
    + now rewrite E, IH.
Qed.

Lemma assign_absent {A} (k : string) (v : A) (props : list (string * A)) :
  lookup k props = None -> assign k v props = props ++ [(k, v)].
Proof.
  induction props as [|[k0 v0] props IH]; cbn [assign lookup app]; [reflexivity|].
  destruct (String.eqb k k0); [discriminate|]. intros H. now rewrite IH.
Qed.

Lemma lookup_app {A} (k : string) (a b : list (string * A)) :
  lookup k (a ++ b) = match lookup k a with
                      | Some v => Some v
                      | None => lookup k b
                      end.
Proof.
  induction a as [|[k0 v0] a IH]; cbn [app lookup]; [reflexivity|].
  now destruct (String.eqb k k0).
Qed.

Lemma add_parts_cons (k x : string) (r : list string) (props : list (string * node)) :
  add_parts (Branch props) (k :: x :: r)
  = (child' <- add_parts (match truthy (lookup k props) with
                          | Some c => c
                          | None => Branch []
                          end) (x :: r) ;;
     Ok (Branch (assign k child' props))).
Proof. reflexivity. Qed.

Lemma add_all_cons (tree : node) (parts : list string) (paths : list (list string)) :
  add_all tree (parts :: paths)
  = (tree' <- add_parts tree parts ;; add_all tree' paths).
Proof. reflexivity. Qed.

(** Statements that share their first segment build one child. *)
Lemma add_all_under_from (k : string) (rels : list (list string)) :
  forall (props below : list (string * node)),
    Forall (fun r => r <> []) rels ->
    lookup k props = Some (Branch below) ->
    add_all (Branch props) (map (cons k) rels)
    = (n <- add_all (Branch below) rels ;; Ok (Branch (assign k n props))).
Proof.
  induction rels as [|r rels IH]; intros props below Hall Hk.
  - cbn [map add_all bind]. now rewrite (assign_present _ _ _ Hk).
  - inversion Hall as [|? ? Hr Hall']; subst.
    destruct r as [|x r]; [contradiction|].
    cbn [map]. rewrite !add_all_cons, add_parts_cons, Hk. cbn [truthy].
    destruct (add_parts (Branch below) (x :: r)) as [child|e] eqn:E; cbn [bind];
      [|reflexivity].
    apply add_parts_branch in E as [below' ->].
    rewrite (IH (assign k (Branch below') props) below' Hall'
               (lookup_assign_same k _ props)).
    destruct (add_all (Branch below') rels); cbn [bind]; [|reflexivity].
    now rewrite assign_assign.
Qed.

Lemma add_all_under (k : string) (rels : list (list string))
  (props : list (string * node)) :
  rels <> [] ->
  Forall (fun r => r <> []) rels ->
  lookup k props = None ->
  add_all (Branch props) (map (cons k) rels)
  = (n <- add_all (Branch []) rels ;; Ok (Branch (assign k n props))).
Proof.
  intros Hne Hall Hk. destruct rels as [|r rels]; [contradiction|].
  inversion Hall as [|? ? Hr Hall']; subst.
  destruct r as [|x r]; [contradiction|].
  cbn [map]. rewrite !add_all_cons, add_parts_cons, Hk. cbn [truthy].
  destruct (add_parts (Branch []) (x :: r)) as [child|e] eqn:E; cbn [bind];
    [|reflexivity].
  apply add_parts_branch in E as [below' ->].
  rewrite (add_all_under_from k rels (assign k (Branch below') props) below' Hall'
             (lookup_assign_same k _ props)).
  destruct (add_all (Branch below') rels); cbn [bind]; [|reflexivity].
  now rewrite assign_assign.
Qed.

Lemma paths_of_canonical (n : node) : canonical n = true -> paths_of n <> [].
Proof.
  induction n as [| |props IH] using node_induction; cbn [canonical paths_of].
  - discriminate.
  - discriminate.
  - intros H. apply andb_prop in H as [H Hc]. apply andb_prop in H as [Hne _].
    destruct props as [|[k c] props]; [discriminate Hne|].
    cbn [forallb snd] in Hc. apply andb_prop in Hc as [Hc _].
    inversion IH as [|? ? IHc _]; subst. cbn [snd] in IHc.
    cbn [flat_map fst snd]. specialize (IHc Hc).
    destruct (paths_of c); [contradiction | discriminate].
Qed.

Lemma paths_of_branch_nonempty (props : list (string * node)) :
  Forall (fun r => r <> []) (paths_of (Branch props)).
Proof.
  cbn [paths_of]. apply Forall_forall. intros r Hr.
  apply in_flat_map in Hr as [kc [_ Hr]].
  apply in_map_iff in Hr as [tail [<- _]]. discriminate.
Qed.

Lemma existsb_eqb_false (k : string) (ks : list string) :
  existsb (String.eqb k) ks = false -> forall k', In k' ks -> k <> k'.
Proof.
  intros H k' Hin ->. 
  assert (existsb (String.eqb k') ks = true)
    by (apply existsb_exists; exists k'; split; [exact Hin | apply String.eqb_refl]).
  congruence.
Qed.

(** A canonical branch is exactly what its own statement paths build, on top
    of properties that do not use its keys. *)
Lemma add_all_paths_of_branch (n : node) :
  canonical n = true ->
  forall kids, n = Branch kids ->
  forall props,
    (forall k, In k (map fst kids) -> lookup k props = None) ->
    add_all (Branch props) (paths_of n) = Ok (Branch (props ++ kids)).
Proof.
  induction n as [| |kids0 IH] using node_induction; intros Hc kids Hn;
    [discriminate Hn | discriminate Hn |].
  injection Hn as ->.
  cbn [canonical] in Hc. apply andb_prop in Hc as [Hc Hkids].
  apply andb_prop in Hc as [_ Hd]. cbn [paths_of]. clear -IH Hd Hkids.
  induction kids as [|[k c] kids IHk]; intros props Hfresh.
  - cbn [flat_map add_all]. now rewrite app_nil_r.
  - cbn [map fst distinct] in Hd. apply andb_prop in Hd as [Hk Hd].
    apply negb_true_iff in Hk.
    cbn [forallb snd] in Hkids. apply andb_prop in Hkids as [Hcc Hkids].
    inversion IH as [|? ? IHc IH']; subst. cbn [snd] in IHc.
    cbn [flat_map fst snd]. rewrite add_all_app.
    assert (Hk0 : lookup k props = None) by (apply Hfresh; now left).
    assert (Hfirst : add_all (Branch props) (map (cons k) (paths_of c))
                     = Ok (Branch (props ++ [(k, c)]))).
    { destruct c as [| |below].
      - discriminate Hcc.
      - cbn [paths_of map add_all add_parts typeof_object set_prop bind].
        now rewrite (assign_absent _ _ _ Hk0).
      - rewrite add_all_under;
          [| now apply paths_of_canonical | apply paths_of_branch_nonempty | exact Hk0].
        rewrite (IHc Hcc below eq_refl []) by reflexivity.
        cbn [app bind]. now rewrite (assign_absent _ _ _ Hk0). }
    rewrite Hfirst. cbn [bind].
    rewrite (IHk Hd Hkids IH' (props ++ [(k, c)])).
    + now rewrite <- app_assoc.
    + intros k' Hin. rewrite lookup_app, (Hfresh k' (or_intror Hin)).
      cbn [lookup]. pose proof (existsb_eqb_false k _ Hk k' Hin) as Hne.
      apply not_eq_sym, String.eqb_neq in Hne. now rewrite Hne.
Qed.

(** A canonical tree is exactly what its own statement paths build. *)
Lemma add_all_paths_of (kids : list (string * node)) :
  canonical (Branch kids) = true ->
  add_all (Branch []) (paths_of (Branch kids)) = Ok (Branch kids).
Proof.
  intros Hc. now rewrite (add_all_paths_of_branch _ Hc kids eq_refl []).
Qed.

Lemma paths_of_wrap (prefix : list string) (n : node) :
  paths_of (wrap prefix n) = map (app prefix) (paths_of n).
Proof.
  induction prefix as [|k prefix IH].
  - cbn [wrap]. now rewrite map_id.
  - cbn [wrap paths_of flat_map fst snd]. rewrite app_nil_r, IH, map_map. reflexivity.
Qed.

Lemma canonical_wrap (prefix : list string) (n : node) :
  canonical n = true -> canonical (wrap prefix n) = true.
Proof.
  intros H. induction prefix as [|k prefix IH]; [exact H|].
  cbn [wrap canonical map fst distinct existsb forallb snd]. now rewrite IH.
Qed.

Lemma present_cons (k : string) (o : option node) (opts : list (string * option node)) :
  present ((k, o) :: opts)
  = match o with Some v => [(k, v)] | None => [] end ++ present opts.
Proof. reflexivity. Qed.

Lemma lookup_present_cons (k k' : string) (o : option node)
  (opts : list (string * option node)) :
  lookup k (present ((k', o) :: opts))
  = if String.eqb k k'
    then match o with
         | Some v => Some v
         | None => lookup k (present opts)
         end
    else lookup k (present opts).
Proof.
  rewrite present_cons. destruct o as [v|]; cbn [app lookup].
  - reflexivity.
  - now destruct (String.eqb k k').
Qed.

Lemma paths_of_present (opts : list (string * option node)) :
  paths_of (Branch (present opts))
  = flat_map (fun ko => match snd ko with
                        | Some c => map (cons (fst ko)) (paths_of c)
                        | None => []
                        end) opts.
Proof.
  cbn [paths_of]. induction opts as [|[k [c|]] opts IH]; cbn [flat_map fst snd].
  - reflexivity.
  - rewrite present_cons. cbn [app flat_map fst snd]. now rewrite IH.
  - rewrite present_cons. cbn [app]. exact IH.
Qed.

Lemma keys_present_subset (opts : list (string * option node)) (k : string) :
  In k (map fst (present opts)) -> In k (map fst opts).
Proof.
  induction opts as [|[k0 [c|]] opts IH]; rewrite ?present_cons; cbn [app map fst In].
  - trivial.
  - intros [H|H]; auto.
  - auto.
Qed.

Lemma distinct_present (opts : list (string * option node)) :
  distinct (map fst opts) = true -> distinct (map fst (present opts)) = true.
Proof.
  induction opts as [|[k0 o] opts IH]; [trivial|].
  cbn [map fst distinct]. intros H. apply andb_prop in H as [Hk Hd].
  rewrite present_cons. destruct o as [c|]; cbn [app map fst distinct]; [|auto].
  rewrite (IH Hd), andb_true_r. apply negb_true_iff.
  apply negb_true_iff in Hk.
  destruct (existsb (String.eqb k0) (map fst (present opts))) eqn:E; [|reflexivity].
  apply existsb_exists in E as [k' [Hin He]]. apply String.eqb_eq in He. subst k'.
  apply keys_present_subset in Hin.
  now elim (existsb_eqb_false k0 _ Hk k0 Hin).
Qed.

Lemma canonical_present (opts : list (string * option node)) :
  distinct (map fst opts) = true ->
  present opts <> [] ->
  Forall (fun ko => match snd ko with
                    | Some c => canonical c = true
                    | None => True
                    end) opts ->
  canonical (Branch (present opts)) = true.
Proof.
  intros Hd Hne Hall. cbn [canonical].
  rewrite (distinct_present opts Hd).
  destruct (present opts) eqn:E; [contradiction|]. rewrite <- E. cbn [andb].
  clear -Hall. induction Hall as [|[k [c|]] opts Hc Hall IH]; [reflexivity| |].
  - rewrite present_cons. cbn [app forallb snd] in *. now rewrite Hc, IH.
  - rewrite present_cons. exact IH.
Qed.

Lemma canonical_scalar (v : string) : canonical (scalar v) = true.
Proof. reflexivity. Qed.

Lemma canonical_leaves (vs : list string) :
  vs <> [] -> distinct vs = true -> canonical (leaves vs) = true.
Proof.
  intros Hne Hd. unfold leaves. cbn [canonical].
  rewrite map_map. cbn [fst]. rewrite map_id, Hd.
  destruct vs; [contradiction|]. cbn [map andb].
  rewrite forallb_forall. intros kc Hin. 
  change ((s, Leaf) :: map (fun v => (v, Leaf)) vs)
    with (map (fun v => (v, Leaf)) (s :: vs)) in Hin.
  apply in_map_iff in Hin as [v [<- _]]. reflexivity.
Qed.

(** ** Round trip: reading a tree *)

Lemma insert_by_index_head {A} (e : string * A) (l : list (string * A)) :
  exists x l', insert_by_index e l = x :: l'.
Proof.
  destruct l as [|y l]; cbn [insert_by_index]; [eauto|].
  destruct (index_of e <=? index_of y)%N; eauto.
Qed.

Lemma entries_singleton {A} (k : string) (v : A) : entries [(k, v)] = [(k, v)].
Proof.
  unfold entries. cbn [filter]. destruct (is_index (k, v)); reflexivity.
Qed.

Lemma entries_no_index {A} (props : list (string * A)) :
  forallb (fun e => negb (is_index e)) props = true -> entries props = props.
Proof.
  intros H. unfold entries.
  assert (E : filter is_index props = []
              /\ filter (fun e => negb (is_index e)) props = props).
  { induction props as [|e props IH]; [split; reflexivity|].
    cbn [forallb] in H. apply andb_prop in H as [He Hp].
    destruct (IH Hp) as [IH1 IH2].
    cbn [filter]. rewrite He. apply negb_true_iff in He. rewrite He.
    split; [exact IH1 | now rewrite IH2]. }
  destruct E as [-> ->]. reflexivity.
Qed.

Lemma first_key_scalar (v : string) : first_key (scalar v) = Some v.
Proof.
  unfold first_key, keys, scalar. cbn [entries_of]. now rewrite entries_singleton.
Qed.

(** No key of [vs] is an array index. *)
Lemma keys_leaves (vs : list string) :
  forallb (fun v => match array_index v with Some _ => false | None => true end) vs
  = true ->
  keys (leaves vs) = vs.
Proof.
  intros H. unfold keys, leaves. cbn [entries_of].
  rewrite entries_no_index.
  - rewrite map_map. cbn [fst]. apply map_id.
  - rewrite forallb_forall in *. intros e He.
    apply in_map_iff in He as [v [<- Hv]]. specialize (H v Hv).
    unfold is_index. cbn [fst]. now destruct (array_index v).
Qed.

(** ** Round trip: statements and their tokens *)

Lemma lexes_nil : lexes [] [].
Proof. split; [constructor | split; [reflexivity | discriminate]]. Qed.

Lemma lexes_app (a b : list string) (pa pb : list (list string)) :
  lexes a pa -> lexes b pb -> lexes (a ++ b) (pa ++ pb).
Proof.
  intros [Ha [<- Sa]] [Hb [<- Sb]]. split; [|split].
  - apply Forall_app. now split.
  - unfold lex. apply flat_map_app.
  - rewrite existsb_app. intros H E. apply app_eq_nil in E as [Ea Eb].
    apply orb_prop in H as [H|H]; [now apply Sa | now apply Sb].
Qed.

Lemma lexes_set (body : string) (parts : list string) :
  no_nl body = true ->
  ends_well body = true ->
  split_parts body EmptyString false = parts ->
  lexes ["set " ^ body] [parts].
Proof.
  intros Hnl Hend <-. split; [|split].
  - constructor; [|constructor]. now rewrite no_nl_append, Hnl.
  - unfold lex. cbn [flat_map]. now rewrite (lex_line_set body Hend).
  - discriminate.
Qed.

Lemma lexes_delete (body : string) :
  no_nl body = true ->
  ends_well body = true ->
  lexes ["delete " ^ body] [].
Proof.
  intros Hnl Hend. split; [|split].
  - constructor; [|constructor]. now rewrite no_nl_append, Hnl.
  - unfold lex. cbn [flat_map]. now rewrite (lex_line_delete body Hend).
  - discriminate.
Qed.

Lemma lexes_map {A} (f : A -> string) (g : A -> list string) (xs : list A) :
  (forall x, In x xs -> lexes [f x] [g x]) ->
  lexes (map f xs) (map g xs).
Proof.
  induction xs as [|x xs IH]; intros H; [apply lexes_nil|].
  cbn [map]. apply (lexes_app [f x] (map f xs) [g x] (map g xs)).
  - apply H. now left.
  - apply IH. intros y Hy. apply H. now right.
Qed.

Lemma opt_holds_truthy (p : string -> bool) (o : option string) :
  (forall s, p s = true -> non_empty s = true) ->
  opt_holds p o = true -> truthy_string o = o.
Proof.
  intros Hp H. destruct o as [s|]; [|reflexivity].
  cbn [opt_holds] in H. cbn [truthy_string]. now rewrite (Hp s H).
Qed.

Lemma plain_token_non_empty (s : string) : plain_token s = true -> non_empty s = true.
Proof. intros H. now apply andb_prop in H as [H _]. Qed.

Lemma text_value_non_empty (s : string) : text_value s = true -> non_empty s = true.
Proof. intros H. now apply andb_prop in H as [H _]. Qed.

Ltac plain_side :=
  first [ assumption
        | apply number_to_string_plain
        | apply N_to_string_plain
        | reflexivity ].

Ltac tokenize :=
  rewrite ?append_assoc; cbn [append];
  repeat first
    [ rewrite split_parts_word by plain_side
    | rewrite split_parts_last_word by plain_side
    | rewrite split_parts_last_sanitized by assumption
    | progress cbn [split_parts Ascii.eqb Bool.eqb orb andb negb non_empty
                    squote dquote space append] ];
  reflexivity.

Ltac line_end :=
  repeat first
    [ reflexivity
    | apply ends_well_plain; plain_side
    | apply ends_well_sanitized; assumption
    | apply ends_well_append ].

Ltac line_no_nl :=
  rewrite ?no_nl_append;
  repeat (apply andb_true_intro; split);
  first [ reflexivity
        | apply no_nl_plain; plain_side
        | apply no_nl_sanitized; assumption ].

Ltac lex_set := apply lexes_set; [line_no_nl | line_end | tokenize].

Lemma plain_token_text_value (s : string) : plain_token s = true -> text_value s = true.
Proof.
  intros H. apply andb_prop in H as [Hne Hp]. unfold text_value. rewrite Hne.
  cbn [andb]. revert Hp. apply all_chars_impl. intros c Hc.
  unfold text_char. now rewrite Hc, orb_true_r.
Qed.

Lemma paths_of_leaves (values : list string) :
  paths_of (leaves values) = map (fun v => [v]) values.
Proof.
  unfold leaves. cbn [paths_of].
  induction values as [|v values IH]; [reflexivity|].
  cbn [map flat_map fst snd paths_of app]. now rewrite IH.
Qed.

Lemma paths_some_leaves (k : string) (values : list string) :
  match some_leaves values with
  | Some c => map (cons k) (paths_of c)
  | None => []
  end = map (fun v => [k; v]) values.
Proof.
  destruct values as [|v values]; [reflexivity|].
  cbn [some_leaves]. now rewrite paths_of_leaves, map_map.
Qed.

Lemma paths_member_node (members : list string) :
  match member_node members with
  | Some c => map (cons "member") (paths_of c)
  | None => []
  end = map (fun v => ["member"; "interface"; v]) members.
Proof.
  destruct members as [|v members]; [reflexivity|].
  unfold member_node. cbn [some_leaves option_map paths_of flat_map fst snd].
  now rewrite paths_of_leaves, app_nil_r, !map_map.
Qed.

(** ** Round trip: network interfaces *)

Ltac seg :=
  unfold if_string, if_number, if_object, number_token;
  repeat match goal with
  | |- context [match ?o with Some _ => _ | None => _ end] =>
      is_var o; destruct o
  | |- context [if number_truthy ?n then _ else _] =>
      destruct (number_truthy n)
  | |- context [if ?b then _ else _] => is_var b; destruct b
  end;
  cbn [option_map paths_of scalar map app flat_map fst snd opt_holds] in *;
  first [ apply lexes_nil | lex_set | apply lexes_delete; [line_no_nl | line_end] ].

Lemma forallb_In {A} (p : A -> bool) (l : list A) (x : A) :
  forallb p l = true -> In x l -> p x = true.
Proof. intros H Hin. rewrite forallb_forall in H. now apply H. Qed.

Lemma lex_interface (iface : NetworkInterface.t) :
  interface_wf iface ->
  lexes (buildInterfaceCommands iface) (paths_of (interface_tree iface)).
Proof.
  intros [Hname Htype Hdesc Hmtu Hmac H4 H6 Hdist Hvlan Hbond Hbridge _].
  unfold interface_tree, interface_prefix. rewrite paths_of_wrap, paths_of_present.
  unfold interface_options, buildInterfaceCommands. cbv zeta.
  cbn [flat_map fst snd].
  rewrite (paths_some_leaves "address").
  destruct iface as [name type desc enabled mtu mac [ipv4 ipv6 dhcp dhcpv6] vlan bond bridge].
  cbn [NetworkInterface.name NetworkInterface.type NetworkInterface.description
       NetworkInterface.enabled NetworkInterface.mtu NetworkInterface.mac
       NetworkInterface.addresses NetworkInterface.vlan NetworkInterface.bond
       NetworkInterface.bridge AddressConfig.ipv4 AddressConfig.ipv6
       AddressConfig.dhcp AddressConfig.dhcpv6 address_tokens] in *.
  unfold address_tokens.
  cbn [AddressConfig.ipv4 AddressConfig.ipv6 AddressConfig.dhcp AddressConfig.dhcpv6].
  rewrite !map_app, <- !app_assoc.
  pose proof (opt_holds_truthy _ _ text_value_non_empty Hdesc) as Ed.
  pose proof (opt_holds_truthy _ _ plain_token_non_empty Hmac) as Em.
  apply lexes_app; [unfold if_string; rewrite Ed; seg|].
  apply lexes_app; [seg|].
  apply lexes_app; [unfold if_string; rewrite Em; seg|].
  apply lexes_app.
  { rewrite map_map. apply lexes_map. intros a Ha.
    pose proof (forallb_In _ _ _ H4 Ha) as Hp. cbv beta in Hp.
    do 4 (apply andb_prop in Hp as [Hp _]).
    pose proof (plain_token_text_value a Hp). lex_set. }
  apply lexes_app.
  { rewrite map_map. apply lexes_map. intros a Ha.
    pose proof (forallb_In _ _ _ H6 Ha) as Hp. cbv beta in Hp.
    do 2 (apply andb_prop in Hp as [Hp _]).
    pose proof (plain_token_text_value a Hp). lex_set. }
  apply lexes_app; [seg|].
  apply lexes_app; [seg|].
  apply lexes_app.
  { destruct (type =? "vlan"); [destruct vlan|];
      cbn [if_object option_map paths_of scalar map app flat_map fst snd];
      [lex_set | apply lexes_nil | apply lexes_nil]. }
  assert (Htoggle :
    lexes
      (if enabled
       then ["delete " ^ ("interfaces " ^ type ^ " " ^ name) ^ " disable"]
       else ["set " ^ ("interfaces " ^ type ^ " " ^ name) ^ " disable"])
      (map (app ["interfaces"; type; name])
         match (if enabled then None else Some Leaf) with
         | Some c => map (cons "disable") (paths_of c)
         | None => []
         end)) by seg.
  assert (Hmembers : forall members,
    plain_set members = true ->
    lexes
      (map (fun member => "set " ^ ("interfaces " ^ type ^ " " ^ name)
                          ^ " member interface " ^ member) members)
      (map (app ["interfaces"; type; name])
         (map (fun v => ["member"; "interface"; v]) members))).
  { intros members Hm. apply andb_prop in Hm as [Hm _].
    rewrite map_map. apply lexes_map. intros a Ha.
    pose proof (forallb_In _ _ _ Hm Ha) as Hp. cbv beta in Hp.
    apply andb_prop in Hp as [Hp _]. lex_set. }
  destruct bond as [b|].
  - destruct Hbond as [Eb [Hmode [Hmem [Hpri Hhash]]]].
    destruct bridge as [r|]; [destruct Hbridge as [Hc _]; congruence|].
    assert (Tb : (type =? "bond") = true) by (rewrite Eb; reflexivity).
    assert (Tr : (type =? "bridge") = false) by (rewrite Eb; reflexivity).
    rewrite Tb, Tr. cbn [if_object option_map].
    destruct b as [mode members primary hash].
    cbn [BondConfig.mode BondConfig.members BondConfig.primaryInterface
         BondConfig.hashPolicy] in *.
    rewrite paths_member_node.
    cbn [map]. rewrite ?app_nil_l, ?app_nil_r, <- ?app_assoc.
    pose proof (opt_holds_truthy _ _ plain_token_non_empty Hpri) as Ep.
    pose proof (opt_holds_truthy _ _ plain_token_non_empty Hhash) as Eh.
    apply lexes_app; [cbn [paths_of scalar flat_map map app fst snd]; lex_set|].
    apply lexes_app; [now apply Hmembers|].
    apply lexes_app; [unfold if_string; rewrite Ep; seg|].
    apply lexes_app; [unfold if_string; rewrite Eh; seg|].
    exact Htoggle.
  - assert (Tb : (type =? "bond") = false) by now apply String.eqb_neq.
    rewrite Tb. cbn [option_map].
    destruct bridge as [r|].
    + destruct Hbridge as [Er [Hmem [Hag Hmax]]].
      assert (Tr : (type =? "bridge") = true) by (rewrite Er; reflexivity).
      rewrite Tr. cbn [if_object option_map].
      destruct r as [members stp aging maxAge].
      cbn [BridgeConfig.members BridgeConfig.stp BridgeConfig.aging
           BridgeConfig.maxAge] in *.
      rewrite paths_member_node.
      cbn [map]. rewrite ?app_nil_l, ?app_nil_r, <- ?app_assoc.
      apply lexes_app; [now apply Hmembers|].
      apply lexes_app; [seg|].
      apply lexes_app; [seg|].
      apply lexes_app; [seg|].
      exact Htoggle.
    + assert (Tr : (type =? "bridge") = false) by now apply String.eqb_neq.
      rewrite Tr. cbn [map]. rewrite ?app_nil_l, ?app_nil_r.
      exact Htoggle.
Qed.


Lemma distinct_app (a b : list string) :
  distinct (a ++ b)
  = (distinct a && distinct b
     && forallb (fun x => negb (existsb (String.eqb x) b)) a)%bool.
Proof.
  induction a as [|x a IH]; cbn [app distinct forallb].
  - now rewrite andb_true_r.
  - rewrite IH, existsb_app, negb_orb.
    destruct (existsb (String.eqb x) a), (existsb (String.eqb x) b),
      (distinct a), (distinct b); reflexivity.
Qed.

Lemma canonical_opt_scalar (o : option string) :
  match option_map scalar o with
  | Some c => canonical c = true
  | None => True
  end.
Proof. now destruct o. Qed.

Lemma canonical_some_leaves (values : list string) :
  distinct values = true ->
  match some_leaves values with
  | Some c => canonical c = true
  | None => True
  end.
Proof.
  intros H. destruct values as [|v values]; [exact I|].
  apply canonical_leaves; [discriminate | exact H].
Qed.

Lemma canonical_member_node (members : list string) :
  distinct members = true ->
  match member_node members with
  | Some c => canonical c = true
  | None => True
  end.
Proof.
  intros H. destruct members as [|v members]; [exact I|].
  unfold member_node. cbn [some_leaves option_map].
  cbn [canonical map fst snd distinct existsb forallb negb andb].
  change (canonical (leaves (v :: members)) && true = true)%bool.
  rewrite andb_true_r. apply canonical_leaves; [discriminate | exact H].
Qed.

Lemma includes_colon_not_dhcp (a : string) :
  includes a ":" = true -> (String.eqb a "dhcp" = false /\ String.eqb a "dhcpv6" = false).
Proof.
  intros H. split; apply String.eqb_neq; intros ->; discriminate H.
Qed.

Lemma address_tokens_distinct (iface : NetworkInterface.t) :
  interface_wf iface ->
  distinct (address_tokens (NetworkInterface.addresses iface)) = true.
Proof.
  intros [_ _ _ _ _ H4 H6 Hdist _ _ _ _].
  destruct (NetworkInterface.addresses iface) as [ipv4 ipv6 dhcp dhcpv6].
  unfold address_tokens.
  cbn [AddressConfig.ipv4 AddressConfig.ipv6 AddressConfig.dhcp AddressConfig.dhcpv6] in *.
  rewrite app_assoc, distinct_app, Hdist. cbn [andb].
  apply andb_true_intro. split; [now destruct dhcp, dhcpv6|].
  rewrite forallb_app. apply andb_true_intro. split.
  - rewrite forallb_forall in *. intros a Ha. specialize (H4 a Ha).
    apply andb_prop in H4 as [H4 Hv6]. apply andb_prop in H4 as [_ Hd].
    apply negb_true_iff in Hv6, Hd.
    destruct dhcp, dhcpv6; cbn [app existsb]; rewrite ?Hd, ?Hv6; reflexivity.
  - rewrite forallb_forall in *. intros a Ha. specialize (H6 a Ha).
    apply andb_prop in H6 as [_ Hc].
    destruct (includes_colon_not_dhcp a Hc) as [Hd Hv6].
    destruct dhcp, dhcpv6; cbn [app existsb]; rewrite ?Hd, ?Hv6; reflexivity.
Qed.

Lemma canonical_interface (iface : NetworkInterface.t) :
  interface_wf iface ->
  canonical (interface_tree iface) = true.
Proof.
  intros Hwf. pose proof (lex_interface iface Hwf) as [_ [_ Hset]].
  pose proof (address_tokens_distinct iface Hwf) as Hat.
  destruct Hwf as [Hname Htype Hdesc Hmtu Hmac H4 H6 Hdist Hvlan Hbond Hbridge Hs].
  specialize (Hset Hs).
  assert (Hbm : match NetworkInterface.bond iface with
                | Some b => distinct (BondConfig.members b) = true
                | None => True
                end).
  { destruct (NetworkInterface.bond iface); [|exact I].
    destruct Hbond as [_ [_ [Hm _]]]. now apply andb_prop in Hm as [_ Hm]. }
  assert (Hrm : match NetworkInterface.bridge iface with
                | Some b => distinct (BridgeConfig.members b) = true
                | None => True
                end).
  { destruct (NetworkInterface.bridge iface); [|exact I].
    destruct Hbridge as [_ [Hm _]]. now apply andb_prop in Hm as [_ Hm]. }
  unfold interface_tree in *. apply canonical_wrap. apply canonical_present.
  - reflexivity.
  - intros E. rewrite E in Hset. rewrite paths_of_wrap in Hset. now apply Hset.
  - unfold interface_options. cbv zeta.
    repeat (apply Forall_cons; cbn [snd]); try apply Forall_nil;
      try apply canonical_opt_scalar.
    + now apply canonical_some_leaves.
    + destruct (NetworkInterface.type iface =? "vlan");
        [destruct (NetworkInterface.vlan iface)|]; easy.
    + destruct (NetworkInterface.type iface =? "bond");
        [destruct (NetworkInterface.bond iface)|]; easy.
    + destruct (NetworkInterface.type iface =? "bond"),
        (NetworkInterface.type iface =? "bridge"),
        (NetworkInterface.bond iface), (NetworkInterface.bridge iface);
        try exact I; now apply canonical_member_node.
    + destruct (NetworkInterface.type iface =? "bond");
        [destruct (NetworkInterface.bond iface)|];
        try exact I; apply canonical_opt_scalar.
    + destruct (NetworkInterface.type iface =? "bond");
        [destruct (NetworkInterface.bond iface)|];
        try exact I; apply canonical_opt_scalar.
    + destruct (NetworkInterface.type iface =? "bridge");
        [destruct (NetworkInterface.bridge iface) as [b|];
         [destruct (BridgeConfig.stp b)|]|]; easy.
    + destruct (NetworkInterface.type iface =? "bridge");
        [destruct (NetworkInterface.bridge iface)|];
        try exact I; apply canonical_opt_scalar.
    + destruct (NetworkInterface.type iface =? "bridge");
        [destruct (NetworkInterface.bridge iface)|];
        try exact I; apply canonical_opt_scalar.
    + now destruct (NetworkInterface.enabled iface).
Qed.
Lemma lookup_present (k : string) (opts : list (string * option node)) :
  lookup k (present opts) = lookup_opt k opts.
Proof.
  induction opts as [|[k' o] opts IH]; [reflexivity|].
  rewrite lookup_present_cons. cbn [lookup_opt]. now rewrite IH.
Qed.

Lemma parseInt_number_to_string (n : number) : parseInt (number_to_string n) = n.
Proof. destruct n as [|z]; [reflexivity | apply parseInt_Z_to_string]. Qed.

Lemma or_default_non_empty (s dflt : string) :
  non_empty s = true -> or_default (Some s) dflt = s.
Proof. intros H. unfold or_default, truthy_string. now rewrite H. Qed.

Lemma fold_add_ipv4 (l : list string) :
  forall ipv4 ipv6 dhcp dhcpv6,
    forallb (fun a => negb (includes a ":") && negb (String.eqb a "dhcp")
                      && negb (String.eqb a "dhcpv6"))%bool l = true ->
    fold_left add_address l (AddressConfig.mk ipv4 ipv6 dhcp dhcpv6)
    = AddressConfig.mk (ipv4 ++ l) ipv6 dhcp dhcpv6.
Proof.
  induction l as [|a l IH]; intros ipv4 ipv6 dhcp dhcpv6 H.
  - cbn [fold_left]. now rewrite app_nil_r.
  - cbn [forallb] in H. apply andb_prop in H as [Ha Hl].
    apply andb_prop in Ha as [Ha H6]. apply andb_prop in Ha as [Hc Hd].
    apply negb_true_iff in Hc, Hd, H6.
    cbn [fold_left]. unfold add_address at 2. rewrite Hc, Hd, H6.
    cbn [AddressConfig.ipv4 AddressConfig.ipv6 AddressConfig.dhcp AddressConfig.dhcpv6].
    rewrite IH by exact Hl. now rewrite <- app_assoc.
Qed.

Lemma fold_add_ipv6 (l : list string) :
  forall ipv4 ipv6 dhcp dhcpv6,
    forallb (fun a => includes a ":") l = true ->
    fold_left add_address l (AddressConfig.mk ipv4 ipv6 dhcp dhcpv6)
    = AddressConfig.mk ipv4 (ipv6 ++ l) dhcp dhcpv6.
Proof.
  induction l as [|a l IH]; intros ipv4 ipv6 dhcp dhcpv6 H.
  - cbn [fold_left]. now rewrite app_nil_r.
  - cbn [forallb] in H. apply andb_prop in H as [Ha Hl].
    destruct (includes_colon_not_dhcp a Ha) as [Hd H6].
    cbn [fold_left]. unfold add_address at 2. rewrite Ha, Hd, H6.
    cbn [AddressConfig.ipv4 AddressConfig.ipv6 AddressConfig.dhcp AddressConfig.dhcpv6].
    rewrite IH by exact Hl. now rewrite <- app_assoc.
Qed.

Lemma forallb_impl {A} (p q : A -> bool) (l : list A) :
  (forall x, p x = true -> q x = true) ->
  forallb p l = true -> forallb q l = true.
Proof.
  intros Hpq H. rewrite forallb_forall in *. auto.
Qed.

Section InterfaceReading.
Variable iface : NetworkInterface.t.
Hypothesis Hwf : interface_wf iface.

Let config : node := Branch (present (interface_options iface)).

Ltac look :=
  unfold config, field, oget, get; rewrite ?lookup_present;
  unfold interface_options; cbv zeta;
  cbn [lookup_opt String.eqb Ascii.eqb Bool.eqb andb].

Lemma read_description :
  match field config "description" with
  | Some d => Some (or_default (first_key d) "")
  | None => None
  end = NetworkInterface.description iface.
Proof.
  look. pose proof (wf_description _ Hwf) as H.
  rewrite (opt_holds_truthy _ _ text_value_non_empty H).
  destruct (NetworkInterface.description iface) as [d|]; [|reflexivity].
  cbn [option_map truthy scalar]. fold (scalar d). rewrite first_key_scalar.
  now rewrite or_default_non_empty by (apply text_value_non_empty; exact H).
Qed.

Lemma read_enabled :
  negb (is_truthy (get config "disable")) = NetworkInterface.enabled iface.
Proof. look. now destruct (NetworkInterface.enabled iface). Qed.

Lemma read_number (o : option number) :
  opt_truthy_number o = true ->
  match truthy match option_map scalar (number_token o) with
               | Some v => Some v
               | None => None
               end with
  | Some m => Some (parseInt_opt (first_key m))
  | None => None
  end = o.
Proof.
  intros H. destruct o as [n|]; [|reflexivity].
  cbn [opt_truthy_number] in H. cbn [number_token]. rewrite H.
  cbn [option_map truthy scalar]. fold (scalar (number_to_string n)).
  rewrite first_key_scalar. cbn [parseInt_opt].
  now rewrite parseInt_number_to_string.
Qed.

Lemma read_mtu :
  match field config "mtu" with
  | Some m => Some (parseInt_opt (first_key m))
  | None => None
  end = NetworkInterface.mtu iface.
Proof. look. apply read_number. exact (wf_mtu _ Hwf). Qed.

Lemma read_plain (o : option string) :
  opt_holds plain_token o = true ->
  match truthy match option_map scalar (truthy_string o) with
               | Some v => Some v
               | None => None
               end with
  | Some m => first_key m
  | None => None
  end = o.
Proof.
  intros H. rewrite (opt_holds_truthy _ _ plain_token_non_empty H).
  destruct o as [m|]; [|reflexivity].
  cbn [option_map truthy scalar]. fold (scalar m). apply first_key_scalar.
Qed.

Lemma read_mac :
  match field config "mac" with
  | Some m => first_key m
  | None => None
  end = NetworkInterface.mac iface.
Proof. look. apply read_plain. exact (wf_mac _ Hwf). Qed.

Lemma read_addresses :
  match field config "address" with
  | Some a => fold_left add_address (keys a) (AddressConfig.mk [] [] false false)
  | None => AddressConfig.mk [] [] false false
  end = NetworkInterface.addresses iface.
Proof.
  look. destruct Hwf as [_ _ _ _ _ H4 H6 _ _ _ _ _].
  destruct (NetworkInterface.addresses iface) as [ipv4 ipv6 dhcp dhcpv6].
  cbn [AddressConfig.ipv4 AddressConfig.ipv6 AddressConfig.dhcp AddressConfig.dhcpv6] in *.
  assert (E : fold_left add_address
                (address_tokens (AddressConfig.mk ipv4 ipv6 dhcp dhcpv6))
                (AddressConfig.mk [] [] false false)
              = AddressConfig.mk ipv4 ipv6 dhcp dhcpv6).
  { unfold address_tokens.
    cbn [AddressConfig.ipv4 AddressConfig.ipv6 AddressConfig.dhcp AddressConfig.dhcpv6].
    rewrite !fold_left_app, fold_add_ipv4, fold_add_ipv6.
    - now destruct dhcp, dhcpv6.
    - revert H6. apply forallb_impl. intros a Ha. now apply andb_prop in Ha as [_ Ha].
    - revert H4. apply forallb_impl. intros a Ha.
      apply andb_prop in Ha as [Ha ->]. apply andb_prop in Ha as [Ha ->].
      apply andb_prop in Ha as [_ ->]. reflexivity. }
  assert (K : forallb not_index (address_tokens (AddressConfig.mk ipv4 ipv6 dhcp dhcpv6))
              = true).
  { unfold address_tokens.
    cbn [AddressConfig.ipv4 AddressConfig.ipv6 AddressConfig.dhcp AddressConfig.dhcpv6].
    rewrite !forallb_app. repeat (apply andb_true_intro; split).
    - revert H4. apply forallb_impl. intros a Ha.
      do 3 (apply andb_prop in Ha as [Ha _]). now apply andb_prop in Ha as [_ Ha].
    - revert H6. apply forallb_impl. intros a Ha.
      apply andb_prop in Ha as [Ha _]. now apply andb_prop in Ha as [_ Ha].
    - now destruct dhcp.
    - now destruct dhcpv6. }
  destruct (address_tokens (AddressConfig.mk ipv4 ipv6 dhcp dhcpv6)) as [|t toks] eqn:Et.
  - cbn [some_leaves truthy]. exact E.
  - cbn [some_leaves truthy leaves]. fold (leaves (t :: toks)).
    now rewrite (keys_leaves _ K).
Qed.

Lemma read_vlan :
  (if String.eqb (NetworkInterface.type iface) "vlan" then
     match field config "vlan" with
     | Some v =>
         Some (VLANConfig.mk
                 (parseInt_opt (first_key_or_empty (get v "id")))
                 (before_dot (NetworkInterface.name iface)))
     | None => None
     end
   else None) = NetworkInterface.vlan iface.
Proof.
  look. pose proof (wf_vlan _ Hwf) as H.
  destruct (NetworkInterface.vlan iface) as [[id parent]|].
  - destruct H as [-> H]. cbn [VLANConfig.parentInterface] in H. subst parent.
    cbn [String.eqb Ascii.eqb Bool.eqb andb option_map truthy get lookup
         first_key_or_empty scalar VLANConfig.id].
    fold (scalar (number_to_string id)). rewrite first_key_scalar.
    cbn [parseInt_opt]. now rewrite parseInt_number_to_string.
  - now destruct (NetworkInterface.type iface =? "vlan").
Qed.

Lemma read_members (members : list string) :
  plain_set members = true ->
  match truthy match truthy match member_node members with
                            | Some v => Some v
                            | None => None
                            end with
               | Some n => get n "interface"
               | None => None
               end with
  | Some m => keys m
  | None => []
  end = members.
Proof.
  intros H. apply andb_prop in H as [H _].
  destruct members as [|m members]; [reflexivity|].
  unfold member_node. cbn [some_leaves option_map truthy get lookup
                           String.eqb Ascii.eqb Bool.eqb andb leaves].
  fold (leaves (m :: members)). apply keys_leaves.
  revert H. apply forallb_impl. intros a Ha. now apply andb_prop in Ha as [_ Ha].
Qed.

Lemma read_bond :
  (if String.eqb (NetworkInterface.type iface) "bond" then
     Some (BondConfig.mk
             (or_default (first_key_or_empty (get config "mode")) "802.3ad")
             (member_interfaces config)
             (match field config "primary" with
              | Some p => first_key p
              | None => None
              end)
             (match field config "hash-policy" with
              | Some h => first_key h
              | None => None
              end))
   else None) = NetworkInterface.bond iface.
Proof.
  unfold member_interfaces. look. pose proof (wf_bond _ Hwf) as H.
  destruct (NetworkInterface.bond iface) as [[mode members primary hash]|].
  - destruct H as [-> [Hmode [Hmem [Hpri Hhash]]]].
    cbn [BondConfig.mode BondConfig.members BondConfig.primaryInterface
         BondConfig.hashPolicy] in *.
    cbn [String.eqb Ascii.eqb Bool.eqb andb option_map first_key_or_empty truthy scalar
         BondConfig.mode BondConfig.members BondConfig.primaryInterface
         BondConfig.hashPolicy].
    fold (scalar mode). rewrite first_key_scalar.
    rewrite or_default_non_empty by (now apply plain_token_non_empty).
    pose proof (read_members members Hmem) as Rm. unfold get in Rm.
    rewrite Rm, (read_plain primary Hpri), (read_plain hash Hhash).
    reflexivity.
  - apply String.eqb_neq in H. now rewrite H.
Qed.

Lemma read_bridge :
  (if String.eqb (NetworkInterface.type iface) "bridge" then
     Some (BridgeConfig.mk
             (member_interfaces config)
             (is_truthy (get config "stp"))
             (match field config "aging" with
              | Some a => Some (parseInt_opt (first_key a))
              | None => None
              end)
             (match field config "max-age" with
              | Some a => Some (parseInt_opt (first_key a))
              | None => None
              end))
   else None) = NetworkInterface.bridge iface.
Proof.
  unfold member_interfaces. look.
  pose proof (wf_bridge _ Hwf) as H. pose proof (wf_bond _ Hwf) as Hb.
  destruct (NetworkInterface.bridge iface) as [[members stp aging maxAge]|].
  - destruct H as [E [Hmem [Hag Hmax]]].
    destruct (NetworkInterface.bond iface) as [b|];
      [destruct Hb as [Hb _]; congruence|].
    rewrite E.
    cbn [BridgeConfig.members BridgeConfig.stp BridgeConfig.aging
         BridgeConfig.maxAge] in *.
    cbn [String.eqb Ascii.eqb Bool.eqb andb BridgeConfig.members BridgeConfig.stp
         BridgeConfig.aging BridgeConfig.maxAge].
    pose proof (read_members members Hmem) as Rm. unfold get in Rm.
    rewrite Rm, (read_number aging Hag), (read_number maxAge Hmax).
    now destruct stp.
  - apply String.eqb_neq in H. now rewrite H.
Qed.

Lemma parseInterface_tree :
  parseInterface (NetworkInterface.name iface) (NetworkInterface.type iface) config
  = Ok iface.
Proof.
  unfold parseInterface.
  rewrite read_description, read_enabled, read_mtu, read_mac, read_addresses,
    read_vlan, read_bond, read_bridge.
  unfold config. now destruct iface.
Qed.

End InterfaceReading.

Lemma parseInterfaces_wrap (name type : string) (config : node)
  (iface : NetworkInterface.t) :
  parseInterface name type config = Ok iface ->
  parseInterfaces (wrap ["interfaces"; type; name] config) = Ok [iface].
Proof.
  intros H. cbn [wrap]. unfold parseInterfaces, field, get.
  cbn [lookup String.eqb Ascii.eqb Bool.eqb andb truthy entries_of].
  rewrite entries_singleton. cbn [for_each bind entries_of].
  rewrite entries_singleton. unfold try_each. cbn [flat_map].
  rewrite H. reflexivity.
Qed.




Lemma lex_route (route : StaticRoute.t) :
  route_wf route ->
  lexes (buildStaticRouteCommands route) (paths_of (route_tree route)).
Proof.
  intros [Hnet Hhop Hifc Hone Hdist Hdesc _].
  unfold route_tree, route_prefix. rewrite paths_of_wrap, paths_of_present.
  unfold route_options, buildStaticRouteCommands. cbv zeta.
  cbn [flat_map fst snd].
  destruct route as [network hop ifc distance desc].
  cbn [StaticRoute.network StaticRoute.nextHop StaticRoute.interface
       StaticRoute.distance StaticRoute.description] in *.
  subst distance. cbn [if_number app].
  rewrite (opt_holds_truthy _ _ plain_token_non_empty Hhop).
  rewrite (opt_holds_truthy _ _ plain_token_non_empty Hifc).
  pose proof (opt_holds_truthy _ _ text_value_non_empty Hdesc) as Ed.
  rewrite !map_app, app_nil_r, app_assoc.
  apply lexes_app; [|unfold if_string; rewrite Ed; seg].
  destruct hop as [h|]; [|destruct ifc as [i|]];
    cbn [option_map paths_of scalar map app flat_map fst snd opt_holds] in *;
    first [lex_set | apply lexes_nil].
Qed.

Lemma canonical_route (route : StaticRoute.t) :
  route_wf route -> canonical (route_tree route) = true.
Proof.
  intros Hwf. pose proof (lex_route route Hwf) as [_ [_ Hset]].
  specialize (Hset (rwf_set _ Hwf)).
  unfold route_tree in *. apply canonical_wrap. apply canonical_present.
  - reflexivity.
  - intros E. rewrite E in Hset. rewrite paths_of_wrap in Hset. now apply Hset.
  - unfold route_options.
    repeat (apply Forall_cons; cbn [snd]); try apply Forall_nil;
      try apply canonical_opt_scalar.
    destruct (truthy_string (StaticRoute.nextHop route));
      [exact I | apply canonical_opt_scalar].
Qed.
Lemma keys_scalar (v : string) : keys (scalar v) = [v].
Proof.
  unfold keys, scalar, entries_of. now rewrite entries_singleton.
Qed.

Lemma route_target_scalar (props : list (string * node)) (label : string)
  (o : option string) :
  lookup label props = option_map scalar o ->
  route_target (Branch props) label = option_map (fun v => (v, None)) o.
Proof.
  intros H. unfold route_target, field, get. rewrite H.
  destruct o as [v|]; [|reflexivity].
  cbn [option_map truthy scalar]. fold (scalar v). rewrite keys_scalar.
  unfold scalar, oget, get. cbn [lookup]. now rewrite String.eqb_refl.
Qed.

Lemma parseStaticRoute_tree (route : StaticRoute.t) :
  route_wf route ->
  parseStaticRoute (StaticRoute.network route)
    (Branch (present (route_options route))) = Ok route.
Proof.
  intros [Hnet Hhop Hifc Hone Hdist Hdesc _].
  unfold parseStaticRoute.
  rewrite (route_target_scalar _ "next-hop" (StaticRoute.nextHop route)),
    (route_target_scalar _ "interface"
       match StaticRoute.nextHop route with
       | Some _ => None
       | None => StaticRoute.interface route
       end).
  - unfold field, get. rewrite lookup_present. unfold route_options.
    cbn [lookup_opt String.eqb Ascii.eqb Bool.eqb andb].
    rewrite (opt_holds_truthy _ _ text_value_non_empty Hdesc).
    destruct route as [network hop ifc distance desc].
    cbn [StaticRoute.network StaticRoute.nextHop StaticRoute.interface
         StaticRoute.distance StaticRoute.description] in *.
    subst distance.
    destruct desc as [d|]; cbn [option_map truthy scalar];
      [fold (scalar d); rewrite first_key_scalar|];
      destruct hop, ifc; destruct Hone; try discriminate; reflexivity.
  - rewrite lookup_present. unfold route_options.
    cbn [lookup_opt String.eqb Ascii.eqb Bool.eqb andb].
    rewrite (opt_holds_truthy _ _ plain_token_non_empty Hhop).
    rewrite (opt_holds_truthy _ _ plain_token_non_empty Hifc).
    now destruct (StaticRoute.nextHop route), (StaticRoute.interface route).
  - rewrite lookup_present. unfold route_options.
    cbn [lookup_opt String.eqb Ascii.eqb Bool.eqb andb].
    rewrite (opt_holds_truthy _ _ plain_token_non_empty Hhop).
    now destruct (StaticRoute.nextHop route).
Qed.

Lemma parseStaticRoutes_wrap (network : string) (config : node)
  (route : StaticRoute.t) :
  parseStaticRoute network config = Ok route ->
  parseStaticRoutes (wrap ["protocols"; "static"; "route"; network] config)
  = Ok [route].
Proof.
  intros H. cbn [wrap]. unfold parseStaticRoutes, oget, get.
  cbn [lookup String.eqb Ascii.eqb Bool.eqb andb truthy entries_of].
  rewrite entries_singleton. unfold try_each. cbn [flat_map].
  rewrite H. reflexivity.
Qed.

(** X1.  For every static route whose fields the statement syntax can carry,
    building its statements, rendering them as lines, parsing the lines and
    reading the static routes back yields exactly that route.  The routes
    covered are those of [route_wf]: the network, the next hop and the
    interface are non-empty words without white space or quote; at most one
    of next hop and interface is given; there is no distance; the description
    (if any) is non-empty and made of such characters and spaces; none of
    these words is the name of a property that every object inherits
    ([constructor], [toString], [__proto__] and the like); and the route has
    at least one statement. *)
Theorem route_round_trip (route : StaticRoute.t) :
  route_wf route ->
  (tree <- parse (render (buildStaticRouteCommands route)) ;;
   parseStaticRoutes tree) = Ok [route].
Proof.
  intros Hwf. destruct (lex_route route Hwf) as [Hnl [Hlex _]].
  rewrite (parse_render _ Hnl), Hlex.
  pose proof (canonical_route route Hwf) as Hc.
  unfold route_tree in *. unfold route_prefix in *. cbn [wrap] in Hc |- *.
  rewrite (add_all_paths_of _ Hc). cbn [bind].
  apply (parseStaticRoutes_wrap (StaticRoute.network route)).
  now apply parseStaticRoute_tree.
Qed.
Lemma paths_block_node (k : string) (address port : option string) :
  match block_node address port with
  | Some c => map (cons k) (paths_of c)
  | None => []
  end
  = match truthy_string address with
    | Some a => [[k; "address"; a]]
    | None => []
    end
    ++ match truthy_string port with
       | Some p => [[k; "port"; p]]
       | None => []
       end.
Proof.
  unfold block_node, block_options.
  now destruct (truthy_string address), (truthy_string port).
Qed.

Lemma lex_block (base label : string) (prefix : list string)
  (address port : option string) :
  block_wf address port = true ->
  (forall v, plain_token v = true ->
     lexes ["set " ^ base ^ " " ^ label ^ " address " ^ v]
           [prefix ++ [label; "address"; v]]) ->
  (forall v, plain_token v = true ->
     lexes ["set " ^ base ^ " " ^ label ^ " port " ^ v]
           [prefix ++ [label; "port"; v]]) ->
  lexes
    (if_string address (fun a => ["set " ^ base ^ " " ^ label ^ " address " ^ a])
     ++ if_string port (fun p => ["set " ^ base ^ " " ^ label ^ " port " ^ p]))
    (map (app prefix)
       match block_node address port with
       | Some c => map (cons label) (paths_of c)
       | None => []
       end).
Proof.
  intros Hwf Ha Hp. apply andb_prop in Hwf as [Hwf _].
  apply andb_prop in Hwf as [Hwa Hwp].
  rewrite paths_block_node, map_app. unfold if_string.
  rewrite (opt_holds_truthy _ _ plain_token_non_empty Hwa),
    (opt_holds_truthy _ _ plain_token_non_empty Hwp).
  apply lexes_app.
  - destruct address as [a|]; [apply Ha; exact Hwa | apply lexes_nil].
  - destruct port as [p|]; [apply Hp; exact Hwp | apply lexes_nil].
Qed.

Lemma lex_nat (rule : NATRule.t) :
  nat_wf rule ->
  lexes (buildNATRuleCommands rule) (paths_of (nat_tree rule)).
Proof.
  intros [Htype Hdesc Hdis Hout Hin Hproto Hsrc Hdst Htr _].
  unfold nat_tree, nat_prefix. rewrite paths_of_wrap, paths_of_present.
  unfold nat_options, buildNATRuleCommands. cbv zeta.
  cbn [flat_map fst snd].
  destruct rule as [number type desc disabled outbound inbound src dst tr proto].
  cbn [NATRule.number NATRule.type NATRule.description NATRule.disabled
       NATRule.outboundInterface NATRule.inboundInterface NATRule.source
       NATRule.destination NATRule.translation NATRule.protocol] in *.
  rewrite !map_app, app_nil_r.
  pose proof (opt_holds_truthy _ _ text_value_non_empty Hdesc) as Ed.
  pose proof (opt_holds_truthy _ _ plain_token_non_empty Hproto) as Ep.
  assert (Hblock : forall label o,
    nat_block_wf o = true ->
    (label = "source" \/ label = "destination" \/ label = "translation") ->
    plain_token type = true ->
    lexes
      (if_object o (fun x =>
         if_string (NATAddress.address x) (fun a =>
           ["set " ^ ("nat " ^ type ^ " rule " ^ number_to_string number)
            ^ " " ^ label ^ " address " ^ a])
         ++ if_string (NATAddress.port x) (fun p =>
           ["set " ^ ("nat " ^ type ^ " rule " ^ number_to_string number)
            ^ " " ^ label ^ " port " ^ p])))
      (map (app ["nat"; type; "rule"; number_to_string number])
         match nat_block o with
         | Some c => map (cons label) (paths_of c)
         | None => []
         end)).
  { intros label [x|] Hw Hl Ht; [|apply lexes_nil].
    cbn [if_object nat_block]. apply lex_block; [exact Hw| |];
      intros v Hv; destruct Hl as [-> | [-> | ->]]; lex_set. }
  assert (Ht : plain_token type = true)
    by (destruct Htype as [-> | ->]; reflexivity).
  apply lexes_app; [unfold if_string; rewrite Ed; seg|].
  apply lexes_app.
  { destruct Htype as [-> | ->];
      cbn [String.eqb Ascii.eqb Bool.eqb andb] in *; [|apply lexes_nil].
    unfold if_string.
    rewrite (opt_holds_truthy _ _ plain_token_non_empty Hout). seg. }
  apply lexes_app.
  { destruct Htype as [-> | ->];
      cbn [String.eqb Ascii.eqb Bool.eqb andb] in *; [apply lexes_nil|].
    unfold if_string.
    rewrite (opt_holds_truthy _ _ plain_token_non_empty Hin). seg. }
  apply lexes_app; [unfold if_string; rewrite Ep; seg|].
  apply lexes_app; [apply Hblock; auto|].
  apply lexes_app; [apply Hblock; auto|].
  apply lexes_app; [apply Hblock; auto|].
  destruct disabled as [[|]|];
    cbn [if_flag map paths_of app]; first [lex_set | apply lexes_nil].
Qed.
Lemma canonical_block_node (address port : option string) :
  match block_node address port with
  | Some c => canonical c = true
  | None => True
  end.
Proof.
  unfold block_node, block_options.
  destruct (truthy_string address) as [a|], (truthy_string port) as [p|];
    try exact I; cbn [present flat_map option_map snd fst app];
    cbn [canonical map fst snd distinct existsb forallb negb andb scalar];
    rewrite ?andb_true_r; reflexivity.
Qed.

Lemma canonical_nat_block (o : option NATAddress.t) :
  match nat_block o with
  | Some c => canonical c = true
  | None => True
  end.
Proof. destruct o; [apply canonical_block_node | exact I]. Qed.

Lemma canonical_nat (rule : NATRule.t) :
  nat_wf rule -> canonical (nat_tree rule) = true.
Proof.
  intros Hwf. pose proof (lex_nat rule Hwf) as [_ [_ Hset]].
  specialize (Hset (nwf_set _ Hwf)).
  unfold nat_tree in *. apply canonical_wrap. apply canonical_present.
  - reflexivity.
  - intros E. rewrite E in Hset. rewrite paths_of_wrap in Hset. now apply Hset.
  - unfold nat_options.
    repeat (apply Forall_cons; cbn [snd]); try apply Forall_nil;
      try apply canonical_opt_scalar; try apply canonical_nat_block.
    + destruct (NATRule.type rule =? "source");
        [apply canonical_opt_scalar | exact I].
    + destruct (NATRule.type rule =? "destination");
        [apply canonical_opt_scalar | exact I].
    + now destruct (NATRule.disabled rule) as [[|]|].
Qed.

Lemma some_eta {A} (o : option A) :
  match o with Some v => Some v | None => None end = o.
Proof. now destruct o. Qed.

Lemma read_opt_scalar (o : option string) :
  match truthy (option_map scalar o) with
  | Some x => first_key x
  | None => None
  end = o.
Proof.
  destruct o as [v|]; [|reflexivity].
  cbn [option_map truthy scalar]. fold (scalar v). apply first_key_scalar.
Qed.

Lemma read_block (address port : option string) :
  block_wf address port = true ->
  parse_address_port (block_node address port) = Some (address, port).
Proof.
  intros H. apply andb_prop in H as [H Hsome]. apply andb_prop in H as [Ha Hp].
  unfold block_node, block_options.
  rewrite (opt_holds_truthy _ _ plain_token_non_empty Ha),
    (opt_holds_truthy _ _ plain_token_non_empty Hp).
  destruct address as [a|], port as [p|]; try discriminate Hsome;
    cbn [present flat_map option_map snd fst app];
    unfold parse_address_port, field, get;
    cbn [truthy lookup String.eqb Ascii.eqb Bool.eqb andb scalar];
    rewrite ?(first_key_scalar); reflexivity.
Qed.

Lemma read_nat_block (o : option NATAddress.t) :
  nat_block_wf o = true ->
  option_map (fun '(a, p) => NATAddress.mk a p) (parse_address_port (nat_block o))
  = o.
Proof.
  destruct o as [[a p]|]; [|reflexivity]. intros H.
  cbn [nat_block NATAddress.address NATAddress.port] in *.
  now rewrite read_block.
Qed.

Lemma parseNATRule_tree (rule : NATRule.t) :
  nat_wf rule ->
  parseNATRule (NATRule.type rule) (NATRule.number rule)
    (Branch (present (nat_options rule))) = Ok rule.
Proof.
  intros [Htype Hdesc Hdis Hout Hin Hproto Hsrc Hdst Htr _].
  unfold parseNATRule, field, get. rewrite !lookup_present.
  unfold nat_options. cbn [lookup_opt String.eqb Ascii.eqb Bool.eqb andb].
  rewrite (opt_holds_truthy _ _ text_value_non_empty Hdesc),
    (opt_holds_truthy _ _ plain_token_non_empty Hproto).
  destruct rule as [number type desc disabled outbound inbound src dst tr proto].
  cbn [NATRule.number NATRule.type NATRule.description NATRule.disabled
       NATRule.outboundInterface NATRule.inboundInterface NATRule.source
       NATRule.destination NATRule.translation NATRule.protocol] in *.
  assert (Eo : match truthy
                  match (if type =? "source"
                         then option_map scalar (truthy_string outbound)
                         else None) with
                  | Some v => Some v
                  | None => None
                  end with
               | Some x => first_key x
               | None => None
               end = outbound).
  { destruct (type =? "source"); [|now subst outbound].
    rewrite (opt_holds_truthy _ _ plain_token_non_empty Hout).
    destruct outbound as [v|]; [|reflexivity].
    cbn [option_map truthy scalar]. fold (scalar v). apply first_key_scalar. }
  assert (Ei : match truthy
                  match (if type =? "destination"
                         then option_map scalar (truthy_string inbound)
                         else None) with
                  | Some v => Some v
                  | None => None
                  end with
               | Some x => first_key x
               | None => None
               end = inbound).
  { destruct (type =? "destination"); [|now subst inbound].
    rewrite (opt_holds_truthy _ _ plain_token_non_empty Hin).
    destruct inbound as [v|]; [|reflexivity].
    cbn [option_map truthy scalar]. fold (scalar v). apply first_key_scalar. }
  rewrite Eo, Ei, !some_eta, !read_opt_scalar, !read_nat_block by assumption.
  now destruct disabled as [[|]|].
Qed.

Lemma parseNATRules_wrap (rule : NATRule.t) (config : node) :
  NATRule.type rule = "source" \/ NATRule.type rule = "destination" ->
  parseNATRule (NATRule.type rule) (NATRule.number rule) config = Ok rule ->
  parseNATRules (wrap (nat_prefix rule) config)
  = Ok (if String.eqb (NATRule.type rule) "source"
        then ([rule], []) else ([], [rule])).
Proof.
  intros Htype H. unfold nat_prefix. cbn [wrap].
  unfold parseNATRules, field, oget, get.
  cbn [lookup String.eqb Ascii.eqb Bool.eqb andb truthy entries_of].
  destruct Htype as [E | E]; rewrite E in *;
    cbn [lookup String.eqb Ascii.eqb Bool.eqb andb truthy entries_of];
    rewrite entries_singleton; unfold try_each; cbn [flat_map];
    rewrite parseInt_number_to_string, H; reflexivity.
Qed.

(** X2.  For every NAT rule whose fields the statement syntax can carry,
    building its statements, rendering them as lines, parsing the lines and
    reading the NAT rules back yields that rule alone, in the source list for
    a source rule and in the destination list for a destination rule.  The
    rules covered are those of [nat_wf]: the type is source or destination;
    the number is a safe integer (of magnitude at most 2^53 - 1); the
    disabled flag is given; the outbound interface occurs only on a source
    rule and the inbound interface only on a destination rule; the
    interfaces, the protocol and the addresses and ports of the blocks are
    non-empty words without white space or quote; a block that is given has
    an address or a port; the description (if any) is non-empty and made of
    such characters and spaces; none of these words is the name of a property
    that every object inherits ([constructor], [toString], [__proto__] and
    the like); and the rule has at least one statement. *)
Theorem nat_round_trip (rule : NATRule.t) :
  nat_wf rule ->
  (tree <- parse (render (buildNATRuleCommands rule)) ;; parseNATRules tree)
  = Ok (if String.eqb (NATRule.type rule) "source"
        then ([rule], []) else ([], [rule])).
Proof.
  intros Hwf. destruct (lex_nat rule Hwf) as [Hnl [Hlex _]].
  rewrite (parse_render _ Hnl), Hlex.
  pose proof (canonical_nat rule Hwf) as Hc.
  unfold nat_tree in *. unfold nat_prefix in Hc |- * at 1. cbn [wrap] in Hc |- *.
  rewrite (add_all_paths_of _ Hc). cbn [bind].
  apply (parseNATRules_wrap rule); [apply (nwf_type _ Hwf)|].
  now apply parseNATRule_tree.
Qed.
Lemma lexes_flat_map {A} (f : A -> list string) (g : A -> list (list string))
  (xs : list A) :
  (forall x, In x xs -> lexes (f x) (g x)) ->
  lexes (flat_map f xs) (flat_map g xs).
Proof.
  induction xs as [|x xs IH]; intros H; [apply lexes_nil|].
  cbn [flat_map]. apply lexes_app.
  - apply H. now left.
  - apply IH. intros y Hy. apply H. now right.
Qed.

Lemma map_flat_map {A B C} (h : B -> C) (g : A -> list B) (xs : list A) :
  map h (flat_map g xs) = flat_map (fun x => map h (g x)) xs.
Proof.
  induction xs as [|x xs IH]; [reflexivity|].
  cbn [flat_map]. now rewrite map_app, IH.
Qed.

Lemma paths_from_node (from : list (string * ZoneFirewall.t)) :
  match from_node from with
  | Some c => map (cons "from") (paths_of c)
  | None => []
  end
  = flat_map (fun e =>
      match truthy_string (ZoneFirewall.name (snd e)) with
      | Some n => [["from"; fst e; "firewall"; "name"; n]]
      | None => []
      end
      ++ match truthy_string (ZoneFirewall.ipv6Name (snd e)) with
         | Some n => [["from"; fst e; "firewall"; "ipv6-name"; n]]
         | None => []
         end) from.
Proof.
  assert (H : map (cons "from")
                (paths_of (Branch (map (fun e => (fst e, zone_firewall_node (snd e)))
                                     from)))
              = flat_map (fun e =>
      match truthy_string (ZoneFirewall.name (snd e)) with
      | Some n => [["from"; fst e; "firewall"; "name"; n]]
      | None => []
      end
      ++ match truthy_string (ZoneFirewall.ipv6Name (snd e)) with
         | Some n => [["from"; fst e; "firewall"; "ipv6-name"; n]]
         | None => []
         end) from).
  { cbn [paths_of]. induction from as [|[k fw] from IH]; [reflexivity|].
    cbn [map flat_map fst snd]. rewrite map_app, IH. f_equal.
    unfold zone_firewall_node.
    now destruct (truthy_string (ZoneFirewall.name fw)),
      (truthy_string (ZoneFirewall.ipv6Name fw)). }
  destruct from as [|e from]; [reflexivity | exact H].
Qed.

Lemma lex_zone (zone : FirewallZone.t) :
  zone_wf zone ->
  lexes (buildFirewallZoneCommands zone) (paths_of (zone_tree zone)).
Proof.
  intros [Hname Hdesc Hact Hifs Hfrom Hdist].
  unfold zone_tree, zone_prefix. rewrite paths_of_wrap, paths_of_present.
  unfold zone_options, buildFirewallZoneCommands. cbv zeta.
  cbn [flat_map fst snd].
  rewrite (paths_some_leaves "interface"), paths_from_node.
  destruct zone as [name desc action ifs from].
  cbn [FirewallZone.name FirewallZone.description FirewallZone.defaultAction
       FirewallZone.interfaces FirewallZone.from] in *.
  rewrite !map_app, app_nil_r.
  pose proof (opt_holds_truthy _ _ text_value_non_empty Hdesc) as Ed.
  apply lexes_app; [unfold if_string; rewrite Ed; seg|].
  apply lexes_app; [cbn [paths_of scalar flat_map map app fst snd]; lex_set|].
  apply lexes_app.
  { apply andb_prop in Hifs as [Hifs _].
    rewrite map_map. apply lexes_map. intros a Ha.
    pose proof (forallb_In _ _ _ Hifs Ha) as Hp. cbv beta in Hp.
    apply andb_prop in Hp as [Hp _]. lex_set. }
  rewrite entries_no_index.
  2:{ revert Hfrom. apply forallb_impl. intros e He. unfold from_wf in He.
      do 3 (apply andb_prop in He as [He _]). apply andb_prop in He as [_ He].
      unfold is_index, not_index in *.
      now destruct (array_index (fst e)). }
  rewrite map_flat_map.
  apply lexes_flat_map. intros [k [n n6]] Hin.
  pose proof (forallb_In _ _ _ Hfrom Hin) as He. unfold from_wf in He.
  cbn [fst snd ZoneFirewall.name ZoneFirewall.ipv6Name] in *.
  apply andb_prop in He as [He _]. apply andb_prop in He as [He H6].
  apply andb_prop in He as [He H4]. apply andb_prop in He as [Hk _].
  rewrite map_app. unfold if_string.
  rewrite (opt_holds_truthy _ _ plain_token_non_empty H4),
    (opt_holds_truthy _ _ plain_token_non_empty H6).
  apply lexes_app; seg.
Qed.
Lemma from_wf_truthy (e : string * ZoneFirewall.t) :
  from_wf e = true ->
  truthy_string (ZoneFirewall.name (snd e)) = ZoneFirewall.name (snd e)
  /\ truthy_string (ZoneFirewall.ipv6Name (snd e)) = ZoneFirewall.ipv6Name (snd e)
  /\ (is_some (ZoneFirewall.name (snd e))
      || is_some (ZoneFirewall.ipv6Name (snd e)))%bool = true
  /\ is_index e = false.
Proof.
  unfold from_wf. intros He.
  apply andb_prop in He as [He Hs]. apply andb_prop in He as [He H6].
  apply andb_prop in He as [He H4]. apply andb_prop in He as [_ Hi].
  repeat split; try assumption.
  - now apply (opt_holds_truthy _ _ plain_token_non_empty).
  - now apply (opt_holds_truthy _ _ plain_token_non_empty).
  - unfold is_index, not_index in *. now destruct (array_index (fst e)).
Qed.

Lemma canonical_zone_firewall_node (e : string * ZoneFirewall.t) :
  from_wf e = true -> canonical (zone_firewall_node (snd e)) = true.
Proof.
  intros He. destruct (from_wf_truthy e He) as [E4 [E6 [Hs _]]].
  unfold zone_firewall_node. rewrite E4, E6.
  destruct (ZoneFirewall.name (snd e)), (ZoneFirewall.ipv6Name (snd e));
    try discriminate Hs; reflexivity.
Qed.

Lemma map_fst_map_snd {A B} (f : A -> B) (l : list (string * A)) :
  map fst (map (fun e => (fst e, f (snd e))) l) = map fst l.
Proof.
  induction l as [|e l IH]; [reflexivity|]. cbn [map fst]. now rewrite IH.
Qed.

Lemma canonical_from_node (from : list (string * ZoneFirewall.t)) :
  forallb from_wf from = true ->
  distinct (map fst from) = true ->
  match from_node from with
  | Some c => canonical c = true
  | None => True
  end.
Proof.
  intros Hwf Hd. destruct from as [|e from]; [exact I|].
  unfold from_node. remember (e :: from) as l eqn:El.
  cbn [canonical]. rewrite map_fst_map_snd, Hd.
  apply andb_true_intro; split; [subst l; reflexivity|].
  rewrite forallb_forall in *. intros y Hy.
  apply in_map_iff in Hy as [z [<- Hz]]. cbn [snd].
  apply canonical_zone_firewall_node. now apply Hwf.
Qed.

Lemma canonical_zone (zone : FirewallZone.t) :
  zone_wf zone -> canonical (zone_tree zone) = true.
Proof.
  intros [Hname Hdesc Hact Hifs Hfrom Hdist].
  unfold zone_tree. apply canonical_wrap. apply canonical_present.
  - reflexivity.
  - unfold zone_options.
    destruct (option_map scalar (truthy_string (FirewallZone.description zone)));
      discriminate.
  - unfold zone_options.
    repeat (apply Forall_cons; cbn [snd]); try apply Forall_nil;
      try apply canonical_opt_scalar.
    + reflexivity.
    + apply canonical_some_leaves. now apply andb_prop in Hifs as [_ Hifs].
    + now apply canonical_from_node.
Qed.
Lemma lookup_none_iff {A} (k : string) (props : list (string * A)) :
  lookup k props = None <-> existsb (String.eqb k) (map fst props) = false.
Proof.
  induction props as [|[k' v] props IH]; [easy|].
  cbn [lookup map fst existsb]. destruct (String.eqb k k'); [easy | exact IH].
Qed.

Lemma assign_all_distinct {A} (kvs : list (string * A)) :
  forall o,
    distinct (map fst kvs) = true ->
    forallb (fun k => negb (existsb (String.eqb k) (map fst o))) (map fst kvs)
    = true ->
    assign_all kvs o = o ++ kvs.
Proof.
  induction kvs as [|[k v] kvs IH]; intros o Hd Ho.
  - cbn [assign_all]. now rewrite app_nil_r.
  - cbn [map fst distinct forallb] in Hd, Ho.
    apply andb_prop in Hd as [Hk Hd]. apply andb_prop in Ho as [Hko Ho].
    apply negb_true_iff in Hk, Hko.
    cbn [assign_all]. rewrite (assign_absent k v o) by now apply lookup_none_iff.
    rewrite IH; [now rewrite <- app_assoc | exact Hd |].
    rewrite forallb_forall in *. intros k' Hk'. specialize (Ho k' Hk').
    rewrite map_app, existsb_app. cbn [map fst existsb].
    apply negb_true_iff in Ho. rewrite Ho, orb_false_r. cbn [orb].
    apply negb_true_iff. apply String.eqb_neq. intros ->.
    apply (existsb_eqb_false _ _ Hk k Hk'). reflexivity.
Qed.

Lemma for_each_parseZoneFrom (from : list (string * ZoneFirewall.t)) :
  forallb from_wf from = true ->
  for_each (fun '(fromZone, fromConfig) => parseZoneFrom fromZone fromConfig)
    (map (fun e => (fst e, zone_firewall_node (snd e))) from) = Ok from.
Proof.
  induction from as [|[k [n n6]] from IH]; intros H; [reflexivity|].
  cbn [forallb] in H. apply andb_prop in H as [He H].
  destruct (from_wf_truthy _ He) as [E4 [E6 [Hs _]]].
  cbn [fst snd ZoneFirewall.name ZoneFirewall.ipv6Name] in *.
  cbn [map for_each fst snd]. rewrite (IH H).
  unfold zone_firewall_node, parseZoneFrom, oget, get.
  cbn [ZoneFirewall.name ZoneFirewall.ipv6Name lookup String.eqb Ascii.eqb
       Bool.eqb andb truthy bind app].
  rewrite E4, E6, !lookup_present.
  cbn [lookup_opt String.eqb Ascii.eqb Bool.eqb andb].
  unfold first_key_or_empty.
  destruct n as [a|], n6 as [b|]; cbn [option_map truthy scalar];
    rewrite ?first_key_scalar; reflexivity.
Qed.

Lemma parseFirewallZone_tree (zone : FirewallZone.t) :
  zone_wf zone ->
  parseFirewallZone (FirewallZone.name zone)
    (Branch (present (zone_options zone))) = Ok zone.
Proof.
  intros [Hname Hdesc Hact Hifs Hfrom Hdist].
  unfold parseFirewallZone, field, get. rewrite !lookup_present.
  unfold zone_options. cbn [lookup_opt String.eqb Ascii.eqb Bool.eqb andb].
  rewrite (opt_holds_truthy _ _ text_value_non_empty Hdesc).
  rewrite !some_eta, read_opt_scalar.
  destruct zone as [name desc action ifs from].
  cbn [FirewallZone.name FirewallZone.description FirewallZone.defaultAction
       FirewallZone.interfaces FirewallZone.from] in *.
  assert (Ef : match truthy (from_node from) with
               | Some f =>
                   kvs <- for_each (fun '(fromZone, fromConfig) =>
                            parseZoneFrom fromZone fromConfig) (entries_of f) ;;
                   Ok (assign_all kvs [])
               | None => Ok []
               end = Ok from).
  { destruct from as [|e from]; [reflexivity|].
    unfold from_node. remember (e :: from) as l eqn:El.
    cbn [truthy entries_of]. rewrite entries_no_index.
    - rewrite for_each_parseZoneFrom by exact Hfrom. cbn [bind].
      rewrite assign_all_distinct; [reflexivity | exact Hdist |].
      apply forallb_forall. reflexivity.
    - rewrite forallb_forall in *. intros y Hy.
      apply in_map_iff in Hy as [z [<- Hz]].
      destruct (from_wf_truthy z (Hfrom z Hz)) as [_ [_ [_ Hi]]].
      unfold is_index in *. cbn [fst]. now rewrite Hi. }
  rewrite Ef. cbn [bind].
  change (first_key_or_empty (Some (scalar action)))
    with (first_key (scalar action)).
  rewrite first_key_scalar.
  rewrite or_default_non_empty by (now apply plain_token_non_empty).
  apply andb_prop in Hifs as [Hifs _].
  assert (Ei : match truthy (some_leaves ifs) with
               | Some i => keys i
               | None => []
               end = ifs).
  { destruct ifs as [|i ifs]; [reflexivity|].
    cbn [some_leaves truthy]. apply keys_leaves.
    revert Hifs. apply forallb_impl. intros x Hx.
    apply andb_prop in Hx as [_ Hx]. exact Hx. }
  now rewrite Ei.
Qed.

Lemma parseFirewallZones_wrap (name : string) (config : node)
  (zone : FirewallZone.t) :
  parseFirewallZone name config = Ok zone ->
  parseFirewallZones (wrap ["zone-policy"; "zone"; name] config) = Ok [zone].
Proof.
  intros H. cbn [wrap]. unfold parseFirewallZones, oget, get.
  cbn [lookup String.eqb Ascii.eqb Bool.eqb andb truthy entries_of].
  rewrite entries_singleton. unfold try_each. cbn [flat_map].
  rewrite H. reflexivity.
Qed.

(** X3.  For every firewall zone whose fields the statement syntax can carry,
    building its statements, rendering them as lines, parsing the lines and
    reading the zones back yields exactly that zone.  The zones covered are
    those of [zone_wf]: the name, the default action, the interfaces, the
    names of the zones traffic comes from and the ruleset names are non-empty
    words without white space or quote; the interfaces are pairwise distinct
    and none is an array index, and so are the names of the source zones;
    every source zone names a ruleset or an IPv6 ruleset; the description (if
    any) is non-empty and made of such characters and spaces; and none of
    these words is the name of a property that every object inherits
    ([constructor], [toString], [__proto__] and the like). *)
Theorem zone_round_trip (zone : FirewallZone.t) :
  zone_wf zone ->
  (tree <- parse (render (buildFirewallZoneCommands zone)) ;;
   parseFirewallZones tree) = Ok [zone].
Proof.
  intros Hwf. destruct (lex_zone zone Hwf) as [Hnl [Hlex _]].
  rewrite (parse_render _ Hnl), Hlex.
  pose proof (canonical_zone zone Hwf) as Hc.
  unfold zone_tree in *. unfold zone_prefix in *. cbn [wrap] in Hc |- *.
  rewrite (add_all_paths_of _ Hc). cbn [bind].
  apply (parseFirewallZones_wrap (FirewallZone.name zone)).
  now apply parseFirewallZone_tree.
Qed.
Lemma parse_lines_throw (tree : node) (line : string) (lines : list string)
  (e : error) :
  parse_line tree line = Throw e -> parse_lines tree (line :: lines) = Throw e.
Proof. intros H. cbn [parse_lines]. now rewrite H. Qed.

Lemma split_lines_two (a b : string) (rest : list string) :
  no_nl a = true -> no_nl b = true ->
  exists more, split_lines (render (a :: b :: rest)) = a :: b :: more.
Proof.
  intros Ha Hb. unfold render, join.
  change (String.concat (String nl EmptyString) (a :: b :: rest))
    with (a ^ String nl (String.concat (String nl EmptyString) (b :: rest))).
  rewrite split_lines_line by exact Ha.
  destruct rest as [|c rest].
  - cbn [String.concat]. rewrite split_lines_last by exact Hb. now exists [].
  - change (String.concat (String nl EmptyString) (b :: c :: rest))
      with (b ^ String nl (String.concat (String nl EmptyString) (c :: rest))).
    rewrite split_lines_line by exact Hb. eauto.
Qed.

(** X4.  A static route that has a target (next hop, or interface when there
    is no next hop) and a distance cannot be read back: the builder emits the
    target statement and then the distance statement two segments below it,
    and parsing the rendered statements raises a type error at the distance
    statement (the target is a leaf, and no property [distance] can be
    created on it), whatever the description is.  The network and the target
    are non-empty words without white space or quote that name no inherited
    property, and the distance is a safe integer other than 0. *)
Theorem route_with_distance_not_parsed (route : StaticRoute.t)
  (target : string) (n : number) :
  plain_token (StaticRoute.network route) = true ->
  plain_token target = true ->
  own_names [StaticRoute.network route; target] = true ->
  safe_integer n = true ->
  (truthy_string (StaticRoute.nextHop route) = Some target
   \/ (truthy_string (StaticRoute.nextHop route) = None
       /\ truthy_string (StaticRoute.interface route) = Some target)) ->
  StaticRoute.distance route = Some n ->
  number_truthy n = true ->
  parse (render (buildStaticRouteCommands route))
  = Throw (TypeError "Cannot create property 'distance' on boolean 'true'").
Proof.
  intros Hnet Ht _ _ Htarget Hd Hn.
  unfold buildStaticRouteCommands. cbv zeta. rewrite Hd. unfold if_number.
  rewrite Hn.
  set (net := StaticRoute.network route) in *.
  assert (Hgo : forall label hopPath rest,
    (label = "next-hop" \/ label = "interface") ->
    hopPath = ("protocols static route " ^ net) ^ " " ^ label ^ " " ^ target ->
    parse (render
      ((["set " ^ hopPath]
        ++ ["set " ^ hopPath ^ " distance " ^ number_to_string n]) ++ rest))
    = Throw (TypeError "Cannot create property 'distance' on boolean 'true'")).
  { intros label hopPath rest Hl ->. cbn [app]. unfold parse.
    pose proof (number_to_string_plain n) as Hnp.
    destruct (split_lines_two
      ("set " ^ ("protocols static route " ^ net) ^ " " ^ label ^ " " ^ target)
      ("set " ^ (("protocols static route " ^ net) ^ " " ^ label ^ " " ^ target)
       ^ " distance " ^ number_to_string n) rest) as [more ->].
    - destruct Hl as [-> | ->]; line_no_nl.
    - destruct Hl as [-> | ->]; line_no_nl.
    - rewrite parse_lines_lex. cbn [lex flat_map app].
      rewrite !lex_line_set by (destruct Hl as [-> | ->]; line_end).
      assert (T1 : split_parts
                (("protocols static route " ^ net) ^ " " ^ label ^ " " ^ target)
                EmptyString false
              = ["protocols"; "static"; "route"; net; label; target])
        by (destruct Hl as [-> | ->]; tokenize).
      assert (T2 : split_parts
                ((("protocols static route " ^ net) ^ " " ^ label ^ " " ^ target)
                 ^ " distance " ^ number_to_string n) EmptyString false
              = ["protocols"; "static"; "route"; net; label; target; "distance";
                 number_to_string n])
        by (destruct Hl as [-> | ->]; tokenize).
      rewrite T1, T2. cbn [app].
      rewrite add_all_cons.
      cbn [add_parts bind lookup truthy assign typeof_object set_prop].
      rewrite add_all_cons.
      repeat (cbn [add_parts bind lookup truthy assign typeof_object set_prop
                   String.eqb Ascii.eqb Bool.eqb andb];
              rewrite ?String.eqb_refl).
      reflexivity. }
  destruct Htarget as [Hh | [Hh Hi]].
  - rewrite Hh. apply (Hgo "next-hop"); [now left | reflexivity].
  - rewrite Hh, Hi. apply (Hgo "interface"); [now right | reflexivity].
Qed.

Lemma route_round_trip_witness :
  route_wf branch_route
  /\ (tree <- parse (render (buildStaticRouteCommands branch_route)) ;;
      parseStaticRoutes tree) = Ok [branch_route].
Proof.
  assert (H : route_wf branch_route)
    by (constructor; try reflexivity; now right).
  split; [exact H | exact (route_round_trip branch_route H)].
Defined.

Lemma nat_round_trip_witness :
  nat_wf snat_rule_100
  /\ (tree <- parse (render (buildNATRuleCommands snat_rule_100)) ;;
      parseNATRules tree) = Ok ([snat_rule_100], []).
Proof.
  assert (H : nat_wf snat_rule_100)
    by (constructor; try reflexivity; now left).
  split; [exact H | exact (nat_round_trip snat_rule_100 H)].
Defined.

Lemma zone_round_trip_witness :
  zone_wf lan_zone
  /\ (tree <- parse (render (buildFirewallZoneCommands lan_zone)) ;;
      parseFirewallZones tree) = Ok [lan_zone].
Proof.
  assert (H : zone_wf lan_zone) by (constructor; reflexivity).
  split; [exact H | exact (zone_round_trip lan_zone H)].
Defined.

Lemma route_with_distance_not_parsed_witness :
  parse (render (buildStaticRouteCommands backup_route))
  = Throw (TypeError "Cannot create property 'distance' on boolean 'true'").
Proof.
  apply (route_with_distance_not_parsed backup_route "192.0.2.1" (Num 20));
    try reflexivity.
  left. reflexivity.
Defined.
Lemma paths_ntp_node (ntp : NTPConfig.t) :
  match ntp_node ntp with
  | Some c => map (cons "ntp") (paths_of c)
  | None => []
  end = map (fun v => ["ntp"; "server"; v]) (NTPConfig.servers ntp).
Proof.
  unfold ntp_node. destruct (NTPConfig.servers ntp) as [|v vs]; [reflexivity|].
  cbn [some_leaves option_map paths_of flat_map fst snd].
  rewrite app_nil_r, paths_of_leaves, !map_map. reflexivity.
Qed.

Lemma paths_of_system_tree (system : SystemConfig.t) :
  paths_of (system_tree system)
  = map (cons "system") (paths_of (Branch (present (system_options system)))).
Proof.
  unfold system_tree.
  destruct (present (system_options system)) as [|p props]; [reflexivity|].
  cbn [paths_of flat_map fst snd]. now rewrite app_nil_r.
Qed.

Lemma lex_plain_list (base : string) (prefix : list string) (values : list string) :
  plain_set values = true ->
  (forall v, plain_token v = true ->
     lexes ["set " ^ base ^ v] [prefix ++ [v]]) ->
  lexes (map (fun v => "set " ^ base ^ v) values)
        (map (fun v => prefix ++ [v]) values).
Proof.
  intros Hs H. apply andb_prop in Hs as [Hs _].
  apply lexes_map. intros v Hv.
  pose proof (forallb_In _ _ _ Hs Hv) as Hp. cbv beta in Hp.
  apply andb_prop in Hp as [Hp _]. now apply H.
Qed.

Lemma lex_system (system : SystemConfig.t) :
  system_wf system ->
  lexes (buildSystemCommands system) (paths_of (system_tree system)).
Proof.
  intros [Hh Hd Hz [ns [Ens Hns]] [servers [Entp Hntp]] Hlogin].
  rewrite paths_of_system_tree, paths_of_present.
  unfold system_options, buildSystemCommands.
  cbn [flat_map fst snd].
  rewrite Ens, Entp, Hlogin.
  rewrite (paths_some_leaves "name-server"), paths_ntp_node.
  cbn [if_object NTPConfig.servers NTPConfig.allowClients LoginConfig.users
       flat_map].
  rewrite !map_app, !app_nil_r.
  pose proof (opt_holds_truthy _ _ text_value_non_empty Hh) as Eh.
  pose proof (opt_holds_truthy _ _ text_value_non_empty Hd) as Ed.
  pose proof (opt_holds_truthy _ _ text_value_non_empty Hz) as Ez.
  destruct system as [host domain zone nameServer ntp login].
  cbn [SystemConfig.hostName SystemConfig.domainName SystemConfig.timeZone] in *.
  apply lexes_app.
  { unfold if_string. rewrite Eh. destruct host as [h|]; [|apply lexes_nil].
    change ["set system host-name " ^ sanitizeConfigValue h]
      with ["set " ^ "system host-name " ^ sanitizeConfigValue h].
    cbn [option_map paths_of scalar map app flat_map fst snd opt_holds] in *.
    lex_set. }
  apply lexes_app.
  { unfold if_string. rewrite Ed. destruct domain as [d|]; [|apply lexes_nil].
    change ["set system domain-name " ^ sanitizeConfigValue d]
      with ["set " ^ "system domain-name " ^ sanitizeConfigValue d].
    cbn [option_map paths_of scalar map app flat_map fst snd opt_holds] in *.
    lex_set. }
  apply lexes_app.
  { unfold if_string. rewrite Ez. destruct zone as [z|]; [|apply lexes_nil].
    change ["set system time-zone " ^ sanitizeConfigValue z]
      with ["set " ^ "system time-zone " ^ sanitizeConfigValue z].
    cbn [option_map paths_of scalar map app flat_map fst snd opt_holds] in *.
    lex_set. }
  apply lexes_app.
  - rewrite map_map.
    apply (lex_plain_list "system name-server " ["system"; "name-server"] ns Hns).
    intros v Hv. lex_set.
  - rewrite map_map.
    apply (lex_plain_list "system ntp server " ["system"; "ntp"; "server"]
             servers Hntp).
    intros v Hv. lex_set.
Qed.
Lemma canonical_ntp_node (ntp : NTPConfig.t) :
  distinct (NTPConfig.servers ntp) = true ->
  match ntp_node ntp with
  | Some c => canonical c = true
  | None => True
  end.
Proof.
  intros H. unfold ntp_node.
  destruct (NTPConfig.servers ntp) as [|v vs] eqn:E; [exact I|].
  cbn [some_leaves option_map].
  cbn [canonical map fst snd distinct existsb forallb negb andb].
  change (canonical (leaves (v :: vs)) && true = true)%bool.
  rewrite andb_true_r. apply canonical_leaves; [discriminate | exact H].
Qed.

Lemma plain_set_distinct (values : list string) :
  plain_set values = true -> distinct values = true.
Proof. intros H. now apply andb_prop in H as [_ H]. Qed.

Lemma plain_set_keys (values : list string) :
  plain_set values = true ->
  match truthy (some_leaves values) with
  | Some n => keys n
  | None => []
  end = values.
Proof.
  intros H. apply andb_prop in H as [H _].
  destruct values as [|v values]; [reflexivity|].
  cbn [some_leaves truthy]. apply keys_leaves.
  revert H. apply forallb_impl. intros x Hx.
  apply andb_prop in Hx as [_ Hx]. exact Hx.
Qed.

Lemma parseSystemConfig_tree (system : SystemConfig.t) :
  system_wf system ->
  parseSystemConfig (system_tree system) = Ok system.
Proof.
  intros [Hh Hd Hz [ns [Ens Hns]] [servers [Entp Hntp]] Hlogin].
  pose proof (opt_holds_truthy _ _ text_value_non_empty Hh) as Eh.
  pose proof (opt_holds_truthy _ _ text_value_non_empty Hd) as Ed.
  pose proof (opt_holds_truthy _ _ text_value_non_empty Hz) as Ez.
  unfold system_tree.
  destruct (present (system_options system)) as [|p props] eqn:Ep.
  - unfold system_options in Ep. rewrite Eh, Ed, Ez, Ens, Entp in Ep.
    destruct system as [host domain zone nameServer ntp login].
    cbn [SystemConfig.hostName SystemConfig.domainName SystemConfig.timeZone
         SystemConfig.nameServer SystemConfig.ntp SystemConfig.login] in *.
    subst nameServer ntp login.
    destruct host, domain, zone, ns, servers; try discriminate Ep. reflexivity.
  - rewrite <- Ep. clear Ep p props.
    unfold parseSystemConfig, field, get.
    cbn [lookup String.eqb Ascii.eqb Bool.eqb andb truthy].
    unfold oget, get. rewrite !lookup_present.
    unfold system_options.
    cbn [lookup_opt String.eqb Ascii.eqb Bool.eqb andb].
    rewrite Eh, Ed, Ez, Ens, Entp, !some_eta, !read_opt_scalar.
    rewrite (plain_set_keys ns Hns).
    assert (En : match truthy
                   match truthy (ntp_node (NTPConfig.mk servers None)) with
                   | Some n => match n with
                               | Branch props => lookup "server" props
                               | _ => None
                               end
                   | None => None
                   end with
                 | Some s => keys s
                 | None => []
                 end = servers).
    { unfold ntp_node. cbn [NTPConfig.servers].
      pose proof (plain_set_keys servers Hntp) as K.
      destruct servers as [|v vs]; [reflexivity|].
      cbn [some_leaves option_map truthy lookup String.eqb Ascii.eqb Bool.eqb
           andb] in *. exact K. }
    rewrite En.
    destruct system as [host domain zone nameServer ntp login].
    cbn [SystemConfig.hostName SystemConfig.domainName SystemConfig.timeZone
         SystemConfig.nameServer SystemConfig.ntp SystemConfig.login] in *.
    now subst nameServer ntp login.
Qed.

Lemma canonical_system_options (system : SystemConfig.t) :
  system_wf system ->
  present (system_options system) <> [] ->
  canonical (Branch (present (system_options system))) = true.
Proof.
  intros [Hh Hd Hz [ns [Ens Hns]] [servers [Entp Hntp]] Hlogin] Hne.
  apply canonical_present; [reflexivity | exact Hne |].
  unfold system_options. rewrite Ens, Entp.
  repeat (apply Forall_cons; cbn [snd]); try apply Forall_nil;
    try apply canonical_opt_scalar.
  - apply canonical_some_leaves. now apply plain_set_distinct.
  - apply canonical_ntp_node. now apply plain_set_distinct.
Qed.

(** X5.  For every system configuration that the parser reads back in full,
    building its statements, rendering them as lines, parsing the lines and
    reading the system configuration back yields exactly that configuration.
    The configurations covered are those of [system_wf]: host name, domain
    name and time zone (if any) are non-empty and made of spaces and
    characters other than white space and quotes; the name servers and the
    NTP servers are given (possibly empty lists), are non-empty words without
    white space or quote, pairwise distinct, none an array index; none of
    these words is the name of a property that every object inherits
    ([constructor], [toString], [__proto__] and the like); no NTP client
    network is given; and the list of users is given and empty.  A
    configuration with no statement at all is covered: it comes back from
    the parser's defaults. *)
Theorem system_round_trip (system : SystemConfig.t) :
  system_wf system ->
  (tree <- parse (render (buildSystemCommands system)) ;;
   parseSystemConfig tree) = Ok system.
Proof.
  intros Hwf. destruct (lex_system system Hwf) as [Hnl [Hlex _]].
  rewrite (parse_render _ Hnl), Hlex.
  pose proof (parseSystemConfig_tree system Hwf) as Hread.
  pose proof (canonical_system_options system Hwf) as Hc.
  unfold system_tree in *.
  destruct (present (system_options system)) as [|p props].
  - cbn [paths_of flat_map add_all bind]. exact Hread.
  - assert (Hc' : canonical (Branch [("system", Branch (p :: props))]) = true).
    { cbn [canonical map fst snd distinct existsb forallb negb andb].
      rewrite andb_true_r. apply Hc. discriminate. }
    rewrite (add_all_paths_of _ Hc'). cbn [bind]. exact Hread.
Qed.
Lemma system_round_trip_witness :
  system_wf edge_system
  /\ (tree <- parse (render (buildSystemCommands edge_system)) ;;
      parseSystemConfig tree) = Ok edge_system.
Proof.
  assert (H : system_wf edge_system)
    by (constructor; try reflexivity; eexists; split; reflexivity).
  split; [exact H | exact (system_round_trip edge_system H)].
Defined.
Lemma paths_enable_node (k : string) (flag : option bool) :
  match enable_node flag with
  | Some c => map (cons k) (paths_of c)
  | None => []
  end = match flag with Some true => [[k; "enable"]] | _ => [] end.
Proof. now destruct flag as [[|]|]. Qed.

Lemma paths_state_node (o : option RuleState.t) :
  match state_node o with
  | Some c => map (cons "state") (paths_of c)
  | None => []
  end
  = match o with
    | Some st =>
        flat_map (fun kf => match snd kf with
                            | Some true => [["state"; fst kf; "enable"]]
                            | _ => []
                            end)
          [("established", RuleState.established st);
           ("related", RuleState.related st);
           ("new", RuleState.new st);
           ("invalid", RuleState.invalid st)]
    | None => []
    end.
Proof.
  destruct o as [[e r n i]|]; [|reflexivity].
  unfold state_node, state_options.
  cbn [RuleState.established RuleState.related RuleState.new RuleState.invalid].
  now destruct e as [[|]|], r as [[|]|], n as [[|]|], i as [[|]|].
Qed.

Lemma paths_endpoint_node (k : string) (o : option FirewallAddress.t) :
  endpoint_wf o = true ->
  match endpoint_node o with
  | Some c => map (cons k) (paths_of c)
  | None => []
  end
  = match o with
    | Some a =>
        match FirewallAddress.address a with
        | Some v => [[k; "address"; v]]
        | None => []
        end
        ++ match FirewallAddress.port a with
           | Some v => [[k; "port"; v]]
           | None => []
           end
    | None => []
    end.
Proof.
  destruct o as [[a p g]|]; [|reflexivity]. intros H.
  cbn [endpoint_wf endpoint_node FirewallAddress.address FirewallAddress.port
       FirewallAddress.group] in *.
  apply andb_prop in H as [H _]. apply andb_prop in H as [H _].
  apply andb_prop in H as [Ha Hp].
  rewrite paths_block_node.
  now rewrite (opt_holds_truthy _ _ plain_token_non_empty Ha),
    (opt_holds_truthy _ _ plain_token_non_empty Hp).
Qed.
Lemma rule_index_number (rule : FirewallRule.t) (i : N) :
  rule_index rule = Some i ->
  FirewallRule.number rule = Num (Z.of_N i)
  /\ number_to_string (FirewallRule.number rule) = N_to_string i
  /\ (i <? 4294967295)%N = true.
Proof.
  unfold rule_index. destruct (FirewallRule.number rule) as [|z]; [discriminate|].
  destruct ((0 <=? z) && (z <? 4294967295))%Z%bool eqn:E; [|discriminate].
  intros H. injection H as <-.
  apply andb_prop in E as [E0 E1].
  apply Z.leb_le in E0. apply Z.ltb_lt in E1.
  rewrite Z2N.id by exact E0. split; [reflexivity|]. split.
  - cbn [number_to_string]. unfold Z_to_string.
    destruct (z <? 0)%Z eqn:Hneg; [apply Z.ltb_lt in Hneg; lia|].
    f_equal. destruct z; try reflexivity. lia.
  - apply N.ltb_lt. lia.
Qed.

Lemma lex_rule (name : string) (rule : FirewallRule.t) :
  plain_token name = true ->
  rule_wf rule = true ->
  lexes (buildFirewallRuleCommands name rule)
    (map (app ["firewall"; "name"; name; "rule";
               number_to_string (FirewallRule.number rule)])
       (paths_of (rule_node rule))).
Proof.
  intros Hname Hwf. unfold rule_wf in Hwf.
  apply andb_prop in Hwf as [Hwf _]. apply andb_prop in Hwf as [Hwf Hdis]. apply andb_prop in Hwf as [Hwf Hlog].
  apply andb_prop in Hwf as [Hwf Hst]. apply andb_prop in Hwf as [Hwf Hdst].
  apply andb_prop in Hwf as [Hwf Hsrc]. apply andb_prop in Hwf as [Hwf Hproto].
  apply andb_prop in Hwf as [Hwf Hdesc]. apply andb_prop in Hwf as [_ Hact].
  unfold rule_node. rewrite paths_of_present.
  unfold rule_options, buildFirewallRuleCommands. cbv zeta.
  cbn [flat_map fst snd].
  rewrite (paths_endpoint_node "source") by exact Hsrc.
  rewrite (paths_endpoint_node "destination") by exact Hdst.
  rewrite paths_state_node, (paths_enable_node "log").
  destruct rule as [number action desc proto src dst st log disabled].
  cbn [FirewallRule.number FirewallRule.action FirewallRule.description
       FirewallRule.protocol FirewallRule.source FirewallRule.destination
       FirewallRule.state FirewallRule.log FirewallRule.disabled] in *.
  rewrite !map_app, app_nil_r.
  pose proof (opt_holds_truthy _ _ text_value_non_empty Hdesc) as Ed.
  pose proof (opt_holds_truthy _ _ plain_token_non_empty Hproto) as Ep.
  pose proof (number_to_string_plain number) as Hnum.
  apply lexes_app; [cbn [paths_of scalar flat_map map app fst snd]; lex_set|].
  apply lexes_app; [unfold if_string; rewrite Ed; seg|].
  apply lexes_app; [unfold if_string; rewrite Ep; seg|].
  apply lexes_app.
  { destruct src as [[a p g]|]; [|apply lexes_nil].
    cbn [endpoint_wf FirewallAddress.address FirewallAddress.port
         FirewallAddress.group if_object] in *.
    apply andb_prop in Hsrc as [Hb Hg]. destruct g; [discriminate Hg|].
    apply andb_prop in Hb as [Hb _]. apply andb_prop in Hb as [Ha Hp].
    cbn [if_string truthy_string app]. rewrite !app_nil_r, map_app.
    unfold if_string.
    rewrite (opt_holds_truthy _ _ plain_token_non_empty Ha),
      (opt_holds_truthy _ _ plain_token_non_empty Hp).
    apply lexes_app; seg. }
  apply lexes_app.
  { destruct dst as [[a p g]|]; [|apply lexes_nil].
    cbn [endpoint_wf FirewallAddress.address FirewallAddress.port
         FirewallAddress.group if_object] in *.
    apply andb_prop in Hdst as [Hb Hg]. destruct g; [discriminate Hg|].
    apply andb_prop in Hb as [Hb _]. apply andb_prop in Hb as [Ha Hp].
    cbn [if_string truthy_string app]. rewrite !app_nil_r, map_app.
    unfold if_string.
    rewrite (opt_holds_truthy _ _ plain_token_non_empty Ha),
      (opt_holds_truthy _ _ plain_token_non_empty Hp).
    apply lexes_app; seg. }
  apply lexes_app.
  { destruct st as [[e r n i]|]; [|apply lexes_nil].
    cbn [if_object RuleState.established RuleState.related RuleState.new
         RuleState.invalid flat_map fst snd].
    rewrite !map_app, app_nil_r.
    repeat apply lexes_app.
    - destruct e as [[|]|]; cbn [if_flag map]; first [lex_set | apply lexes_nil].
    - destruct r as [[|]|]; cbn [if_flag map]; first [lex_set | apply lexes_nil].
    - destruct n as [[|]|]; cbn [if_flag map]; first [lex_set | apply lexes_nil].
    - destruct i as [[|]|]; cbn [if_flag map]; first [lex_set | apply lexes_nil]. }
  apply lexes_app.
  { destruct log as [[|]|]; cbn [if_flag map]; first [lex_set | apply lexes_nil]. }
  destruct disabled as [[|]|];
    cbn [if_flag flag_leaf map paths_of app]; first [lex_set | apply lexes_nil].
Qed.
Lemma paths_rules_node (rules : list FirewallRule.t) :
  match rules_node rules with
  | Some c => map (cons "rule") (paths_of c)
  | None => []
  end
  = flat_map (fun r =>
      map (app ["rule"; number_to_string (FirewallRule.number r)])
        (paths_of (rule_node r))) rules.
Proof.
  assert (H : map (cons "rule") (paths_of (Branch (map rule_entry rules)))
              = flat_map (fun r =>
                  map (app ["rule"; number_to_string (FirewallRule.number r)])
                    (paths_of (rule_node r))) rules).
  { cbn [paths_of]. induction rules as [|r rules IH]; [reflexivity|].
    cbn [map flat_map]. rewrite map_app, IH. f_equal.
    unfold rule_entry. cbn [fst snd]. now rewrite map_map. }
  destruct rules as [|r rules]; [reflexivity | exact H].
Qed.

Lemma lex_ruleset (ruleset : FirewallRuleset.t) :
  ruleset_wf ruleset ->
  lexes (buildFirewallRulesetCommands ruleset) (paths_of (ruleset_tree ruleset)).
Proof.
  intros [Hname Hdesc Hact Hlog Hrules Hasc].
  unfold ruleset_tree, ruleset_prefix. rewrite paths_of_wrap, paths_of_present.
  unfold ruleset_options, buildFirewallRulesetCommands. cbv zeta.
  cbn [flat_map fst snd]. rewrite paths_rules_node.
  destruct ruleset as [name desc action log rules].
  cbn [FirewallRuleset.name FirewallRuleset.description
       FirewallRuleset.defaultAction FirewallRuleset.enableDefaultLog
       FirewallRuleset.rules] in *.
  rewrite !map_app, app_nil_r.
  pose proof (opt_holds_truthy _ _ text_value_non_empty Hdesc) as Ed.
  apply lexes_app; [unfold if_string; rewrite Ed; seg|].
  apply lexes_app; [cbn [paths_of scalar flat_map map app fst snd]; lex_set|].
  apply lexes_app.
  { destruct log as [[|]|];
      cbn [if_flag flag_leaf map paths_of app]; first [lex_set | apply lexes_nil]. }
  rewrite map_flat_map. apply lexes_flat_map. intros r Hr.
  rewrite map_map.
  pose proof (lex_rule name r Hname (forallb_In _ _ _ Hrules Hr)) as H.
  erewrite map_ext; [exact H|]. intros p. reflexivity.
Qed.
Lemma index_sorted_all {A} (props : list (string * A)) :
  index_sorted props = true -> forallb is_index props = true.
Proof.
  induction props as [|e props IH]; [reflexivity|]. cbn [index_sorted forallb].
  intros H. apply andb_prop in H as [H Hs]. apply andb_prop in H as [Hi _].
  now rewrite Hi, IH.
Qed.

Lemma filter_all {A} (p : A -> bool) (l : list A) :
  forallb p l = true -> filter p l = l.
Proof.
  induction l as [|x l IH]; [reflexivity|]. cbn [forallb filter]. intros H.
  apply andb_prop in H as [Hx Hl]. now rewrite Hx, IH.
Qed.

Lemma filter_none {A} (p : A -> bool) (l : list A) :
  forallb p l = true -> filter (fun x => negb (p x)) l = [].
Proof.
  induction l as [|x l IH]; [reflexivity|]. cbn [forallb filter]. intros H.
  apply andb_prop in H as [Hx Hl]. now rewrite Hx, IH.
Qed.

Lemma sort_by_index_sorted {A} (props : list (string * A)) :
  index_sorted props = true -> sort_by_index props = props.
Proof.
  induction props as [|e props IH]; [reflexivity|]. cbn [index_sorted].
  intros H. apply andb_prop in H as [H Hs]. apply andb_prop in H as [_ Hlt].
  cbn [sort_by_index]. rewrite (IH Hs).
  destruct props as [|x props]; [reflexivity|].
  cbn [forallb] in Hlt. apply andb_prop in Hlt as [Hx _].
  cbn [insert_by_index]. apply N.ltb_lt in Hx.
  assert (E : (index_of e <=? index_of x)%N = true) by (apply N.leb_le; lia).
  now rewrite E.
Qed.

Lemma entries_index_sorted {A} (props : list (string * A)) :
  index_sorted props = true -> entries props = props.
Proof.
  intros H. unfold entries. pose proof (index_sorted_all props H) as Hall.
  rewrite (filter_all _ _ Hall), (filter_none _ _ Hall), app_nil_r.
  now apply sort_by_index_sorted.
Qed.

Lemma index_sorted_distinct {A} (props : list (string * A)) :
  index_sorted props = true -> distinct (map fst props) = true.
Proof.
  induction props as [|e props IH]; [reflexivity|]. cbn [index_sorted].
  intros H. apply andb_prop in H as [H Hs]. apply andb_prop in H as [_ Hlt].
  cbn [map distinct]. rewrite (IH Hs), andb_true_r.
  apply negb_true_iff. apply not_true_is_false. intros Hex.
  apply existsb_exists in Hex as [k [Hin Hk]]. apply String.eqb_eq in Hk.
  apply in_map_iff in Hin as [e' [He' Hin]].
  pose proof (forallb_In _ _ _ Hlt Hin) as Hl. cbv beta in Hl.
  apply N.ltb_lt in Hl. unfold index_of in Hl.
  rewrite Hk, <- He' in Hl. lia.
Qed.

Lemma array_index_N_to_string (i : N) :
  (i <? 4294967295)%N = true -> array_index (N_to_string i) = Some i.
Proof.
  intros H. unfold array_index.
  rewrite digits_acc_N_to_string, String.eqb_refl, H.
  destruct (N_to_string i) eqn:E; [|reflexivity].
  pose proof (N_to_string_plain i) as Hp. rewrite E in Hp. discriminate Hp.
Qed.

Lemma ascending_index_sorted (rules : list FirewallRule.t) :
  forallb rule_wf rules = true ->
  ascending rules = true ->
  index_sorted (map rule_entry rules) = true.
Proof.
  intros Hwf Hasc.
  assert (Hidx : forall r, In r rules ->
            exists i, rule_index r = Some i
                      /\ array_index (fst (rule_entry r)) = Some i).
  { intros r Hr. pose proof (forallb_In _ _ _ Hwf Hr) as H. unfold rule_wf in H.
    do 9 (apply andb_prop in H as [H _]).
    destruct (rule_index r) as [i|] eqn:E; [|discriminate H].
    exists i. split; [reflexivity|].
    destruct (rule_index_number r i E) as [_ [Es Hi]].
    unfold rule_entry. cbn [fst]. rewrite Es.
    now apply array_index_N_to_string. }
  clear Hwf. revert Hasc Hidx.
  induction rules as [|r rules IH]; intros Hasc Hidx; [reflexivity|].
  cbn [ascending] in Hasc. apply andb_prop in Hasc as [Hhead Hasc].
  cbn [map index_sorted].
  destruct (Hidx r (or_introl eq_refl)) as [i [Ei Ai]].
  assert (IH' : index_sorted (map rule_entry rules) = true)
    by (apply IH; [exact Hasc | intros x Hx; apply Hidx; now right]).
  rewrite IH', andb_true_r. unfold is_index at 1. rewrite Ai. cbn [andb].
  destruct rules as [|r' rules]; [reflexivity|].
  destruct (Hidx r' (or_intror (or_introl eq_refl))) as [j [Ej Aj]].
  rewrite Ei, Ej in Hhead. apply N.ltb_lt in Hhead.
  cbn [map index_sorted] in IH'.
  apply andb_prop in IH' as [IH' _]. apply andb_prop in IH' as [_ Hlt].
  cbn [map forallb]. apply andb_true_intro. split.
  - apply N.ltb_lt. unfold index_of. rewrite Ai, Aj. exact Hhead.
  - revert Hlt. apply forallb_impl. intros e He. apply N.ltb_lt in He.
    apply N.ltb_lt. unfold index_of in *. rewrite Ai. rewrite Aj in He. lia.
Qed.
Lemma canonical_enable_node (flag : option bool) :
  match enable_node flag with
  | Some c => canonical c = true
  | None => True
  end.
Proof. now destruct flag as [[|]|]. Qed.

Lemma canonical_flag_leaf (flag : option bool) :
  match flag_leaf flag with
  | Some c => canonical c = true
  | None => True
  end.
Proof. now destruct flag as [[|]|]. Qed.

Lemma canonical_state_node (o : option RuleState.t) :
  match state_node o with
  | Some c => canonical c = true
  | None => True
  end.
Proof.
  destruct o as [[e r n i]|]; [|exact I].
  unfold state_node, state_options.
  cbn [RuleState.established RuleState.related RuleState.new RuleState.invalid].
  now destruct e as [[|]|], r as [[|]|], n as [[|]|], i as [[|]|].
Qed.

Lemma canonical_endpoint_node (o : option FirewallAddress.t) :
  match endpoint_node o with
  | Some c => canonical c = true
  | None => True
  end.
Proof. destruct o; [apply canonical_block_node | exact I]. Qed.

Lemma canonical_rule_node (rule : FirewallRule.t) :
  canonical (rule_node rule) = true.
Proof.
  unfold rule_node. apply canonical_present.
  - reflexivity.
  - unfold rule_options. discriminate.
  - unfold rule_options.
    repeat (apply Forall_cons; cbn [snd]); try apply Forall_nil;
      try apply canonical_opt_scalar; try apply canonical_endpoint_node.
    + reflexivity.
    + apply canonical_state_node.
    + apply canonical_enable_node.
    + apply canonical_flag_leaf.
Qed.

Lemma canonical_rules_node (rules : list FirewallRule.t) :
  forallb rule_wf rules = true ->
  ascending rules = true ->
  match rules_node rules with
  | Some c => canonical c = true
  | None => True
  end.
Proof.
  intros Hwf Hasc. pose proof (ascending_index_sorted rules Hwf Hasc) as Hs.
  destruct rules as [|r rules]; [exact I|].
  unfold rules_node. remember (r :: rules) as l eqn:El.
  cbn [canonical]. rewrite (index_sorted_distinct _ Hs).
  apply andb_true_intro; split; [subst l; reflexivity|].
  apply forallb_forall. intros y Hy.
  apply in_map_iff in Hy as [z [<- Hz]]. apply canonical_rule_node.
Qed.

Lemma canonical_ruleset (ruleset : FirewallRuleset.t) :
  ruleset_wf ruleset -> canonical (ruleset_tree ruleset) = true.
Proof.
  intros [Hname Hdesc Hact Hlog Hrules Hasc].
  unfold ruleset_tree. apply canonical_wrap. apply canonical_present.
  - reflexivity.
  - unfold ruleset_options.
    destruct (option_map scalar
                (truthy_string (FirewallRuleset.description ruleset)));
      discriminate.
  - unfold ruleset_options.
    repeat (apply Forall_cons; cbn [snd]); try apply Forall_nil;
      try apply canonical_opt_scalar.
    + reflexivity.
    + apply canonical_flag_leaf.
    + now apply canonical_rules_node.
Qed.

Lemma read_endpoint (o : option FirewallAddress.t) :
  endpoint_wf o = true ->
  option_map (fun '(a, p) => FirewallAddress.mk a p None)
    (parse_address_port (endpoint_node o)) = o.
Proof.
  destruct o as [[a p g]|]; [|reflexivity]. intros H.
  cbn [endpoint_wf endpoint_node FirewallAddress.address FirewallAddress.port
       FirewallAddress.group] in *.
  apply andb_prop in H as [Hb Hg]. destruct g; [discriminate Hg|].
  now rewrite read_block.
Qed.

Lemma read_state (o : option RuleState.t) :
  state_wf o = true ->
  match truthy (state_node o) with
  | Some st =>
      Some (RuleState.mk
              (Some (is_truthy (get st "established")))
              (Some (is_truthy (get st "related")))
              (Some (is_truthy (get st "new")))
              (Some (is_truthy (get st "invalid"))))
  | None => None
  end = o.
Proof.
  destruct o as [[e r n i]|]; [|reflexivity].
  unfold state_wf, state_node, state_options.
  cbn [RuleState.established RuleState.related RuleState.new RuleState.invalid].
  destruct e as [[|]|], r as [[|]|], n as [[|]|], i as [[|]|];
    try discriminate; reflexivity.
Qed.

Lemma parseFirewallRule_node (rule : FirewallRule.t) :
  rule_wf rule = true ->
  parseFirewallRule (FirewallRule.number rule) (rule_node rule) = Ok rule.
Proof.
  intros Hwf. unfold rule_wf in Hwf.
  apply andb_prop in Hwf as [Hwf _]. apply andb_prop in Hwf as [Hwf Hdis]. apply andb_prop in Hwf as [Hwf Hlog].
  apply andb_prop in Hwf as [Hwf Hst]. apply andb_prop in Hwf as [Hwf Hdst].
  apply andb_prop in Hwf as [Hwf Hsrc]. apply andb_prop in Hwf as [Hwf Hproto].
  apply andb_prop in Hwf as [Hwf Hdesc]. apply andb_prop in Hwf as [_ Hact].
  unfold parseFirewallRule, rule_node, field, get. rewrite !lookup_present.
  unfold rule_options. cbn [lookup_opt String.eqb Ascii.eqb Bool.eqb andb].
  rewrite (opt_holds_truthy _ _ text_value_non_empty Hdesc),
    (opt_holds_truthy _ _ plain_token_non_empty Hproto).
  rewrite !some_eta, !read_opt_scalar, !read_endpoint by assumption.
  pose proof (read_state _ Hst) as Es. unfold get in Es. rewrite Es.
  change (first_key_or_empty (Some (scalar (FirewallRule.action rule))))
    with (first_key (scalar (FirewallRule.action rule))).
  rewrite first_key_scalar.
  rewrite or_default_non_empty by (now apply plain_token_non_empty).
  destruct rule as [number action desc proto src dst st log disabled].
  cbn [FirewallRule.number FirewallRule.action FirewallRule.description
       FirewallRule.protocol FirewallRule.source FirewallRule.destination
       FirewallRule.state FirewallRule.log FirewallRule.disabled] in *.
  now destruct log as [[|]|], disabled as [[|]|].
Qed.
Lemma try_each_rule_entries (rules : list FirewallRule.t) :
  forallb rule_wf rules = true ->
  try_each (fun '(number, ruleConfig) =>
              parseFirewallRule (parseInt number) ruleConfig)
    (map rule_entry rules) = rules.
Proof.
  induction rules as [|r rules IH]; intros H; [reflexivity|].
  cbn [forallb] in H. apply andb_prop in H as [Hr H].
  unfold try_each in *. cbn [map flat_map]. rewrite (IH H).
  unfold rule_entry at 1. rewrite parseInt_number_to_string.
  now rewrite (parseFirewallRule_node r Hr).
Qed.

Lemma parseFirewallRuleset_tree (ruleset : FirewallRuleset.t) :
  ruleset_wf ruleset ->
  parseFirewallRuleset (FirewallRuleset.name ruleset)
    (Branch (present (ruleset_options ruleset))) = Ok ruleset.
Proof.
  intros [Hname Hdesc Hact Hlog Hrules Hasc].
  unfold parseFirewallRuleset, field, get. rewrite !lookup_present.
  unfold ruleset_options. cbn [lookup_opt String.eqb Ascii.eqb Bool.eqb andb].
  rewrite (opt_holds_truthy _ _ text_value_non_empty Hdesc).
  rewrite !some_eta, read_opt_scalar.
  change (first_key_or_empty
            (Some (scalar (FirewallRuleset.defaultAction ruleset))))
    with (first_key (scalar (FirewallRuleset.defaultAction ruleset))).
  rewrite first_key_scalar.
  rewrite or_default_non_empty by (now apply plain_token_non_empty).
  assert (Er : match truthy (rules_node (FirewallRuleset.rules ruleset)) with
               | Some rules =>
                   try_each (fun '(number, ruleConfig) =>
                     parseFirewallRule (parseInt number) ruleConfig)
                     (entries_of rules)
               | None => []
               end = FirewallRuleset.rules ruleset).
  { pose proof (ascending_index_sorted _ Hrules Hasc) as Hs.
    pose proof (try_each_rule_entries _ Hrules) as Ht.
    destruct (FirewallRuleset.rules ruleset) as [|r rules]; [reflexivity|].
    unfold rules_node. cbn [truthy entries_of].
    now rewrite (entries_index_sorted _ Hs). }
  rewrite Er.
  destruct ruleset as [name desc action log rules].
  cbn [FirewallRuleset.name FirewallRuleset.description
       FirewallRuleset.defaultAction FirewallRuleset.enableDefaultLog
       FirewallRuleset.rules] in *.
  now destruct log as [[|]|].
Qed.

Lemma parseFirewallRulesets_wrap (name : string) (config : node)
  (ruleset : FirewallRuleset.t) :
  parseFirewallRuleset name config = Ok ruleset ->
  parseFirewallRulesets (wrap ["firewall"; "name"; name] config) = Ok [ruleset].
Proof.
  intros H. cbn [wrap]. unfold parseFirewallRulesets, oget, get.
  cbn [lookup String.eqb Ascii.eqb Bool.eqb andb truthy entries_of].
  rewrite entries_singleton. unfold try_each. cbn [flat_map].
  rewrite H. reflexivity.
Qed.

Lemma shell_run_receive (commands : list string) (chunks : list string) :
  forall st,
    shell_run commands st chunks = fold_left (receive commands) chunks st.
Proof.
  induction chunks as [|text chunks IH]; intros st; [reflexivity|].
  cbn [shell_run fold_left]. unfold receive at 2.
  destruct (sh_ended st) eqn:E; [|apply IH].
  clear IH. induction chunks as [|t chunks IH]; [reflexivity|].
  cbn [fold_left]. unfold receive at 2. now rewrite E.
Qed.

Lemma run_sessions_apart (commandsA commandsB : list string)
  (events : list (session * string)) :
  forall st,
    fold_left (deliver commandsA commandsB) events st
    = mk_sessions
        (fold_left (receive commandsA) (chunks_of true events) (first_state st))
        (fold_left (receive commandsB) (chunks_of false events) (second_state st)).
Proof.
  induction events as [|[s text] events IH]; intros st; [now destruct st|].
  cbn [fold_left]. rewrite IH. unfold deliver, chunks_of.
  destruct s; reflexivity.
Qed.

Lemma on_data_written (commands : list string) (st : shell_state) (text : string) :
  sh_commandIndex st <= length commands ->
  sh_written st = map with_newline (firstn (sh_commandIndex st) commands) ->
  sh_commandIndex (on_data commands st text) <= length commands
  /\ sh_written (on_data commands st text)
     = map with_newline (firstn (sh_commandIndex (on_data commands st text)) commands).
Proof.
  intros Hle Hw. unfold on_data. cbv zeta.
  destruct ((sh_shellReady st || has_prompt text)
            && (sh_commandIndex st <? length commands)%nat
            && (has_prompt text || includes text "[edit]"))%bool eqn:Hsend;
    cbn [sh_commandIndex sh_written]; [|now split].
  apply andb_prop in Hsend as [Hsend _]. apply andb_prop in Hsend as [_ Hlt].
  apply Nat.ltb_lt in Hlt. split; [lia|].
  rewrite Hw, (firstn_S_nth EmptyString) by exact Hlt.
  now rewrite map_app.
Qed.

Lemma shell_run_written (commands : list string) (chunks : list string) :
  forall st,
    sh_commandIndex st <= length commands ->
    sh_written st = map with_newline (firstn (sh_commandIndex st) commands) ->
    sh_commandIndex (shell_run commands st chunks) <= length commands
    /\ sh_written (shell_run commands st chunks)
       = map with_newline
           (firstn (sh_commandIndex (shell_run commands st chunks)) commands).
Proof.
  induction chunks as [|text chunks IH]; intros st Hle Hw; [now split|].
  cbn [shell_run]. destruct (sh_ended st); [now split|].
  destruct (on_data_written commands st text Hle Hw) as [Hle' Hw'].
  now apply IH.
Qed.
(** C8 (as amended).  The engine holds no per-device lock and does not
    serialise invocations.  Every invocation of the shell runs on a stream of
    its own with variables of its own, so when two invocations are in flight
    on one client, whatever the order in which their chunks arrive:
    - each of them reaches the state it reaches alone on the chunks addressed
      to it;
    - each writes its statements in the order of its batch, each followed by
      a line feed, and never more than its batch holds;
    - their send/collect windows can overlap: for every two batches of the
      executor, once a chunk with a prompt has arrived for the first and then
      one for the second, the second has written its first statement
      ([configure]) while the first has written its own first statement and
      has not ended its stream. *)
Theorem sessions_not_serialised :
  (forall (commandsA commandsB : list string) (events : list (session * string)),
     first_state (run_sessions commandsA commandsB events)
     = shell_run commandsA shell_start (chunks_of true events)
     /\ second_state (run_sessions commandsA commandsB events)
        = shell_run commandsB shell_start (chunks_of false events))
  /\ (forall (commands chunks : list string),
        let st := shell_run commands shell_start chunks in
        sh_commandIndex st <= length commands
        /\ sh_written st
           = map with_newline (firstn (sh_commandIndex st) commands))
  /\ (forall (commandsA commandsB : list string)
             (optionsA optionsB : ExecutionOptions) (textA textB : string),
        has_prompt textA = true ->
        has_prompt textB = true ->
        let st :=
          run_sessions (fullCommands commandsA optionsA)
            (fullCommands commandsB optionsB)
            [(First, textA); (Second, textB)] in
        sh_written (second_state st) = [with_newline VYOS_COMMANDS.ENTER_CONFIG]
        /\ sh_written (first_state st) = [with_newline VYOS_COMMANDS.ENTER_CONFIG]
        /\ sh_ended (first_state st) = false).
Proof.
  split; [|split].
  - intros commandsA commandsB events. unfold run_sessions.
    rewrite run_sessions_apart, !shell_run_receive. now split.
  - intros commands chunks. apply shell_run_written; [apply Nat.le_0_l|].
    reflexivity.
  - intros commandsA commandsB optionsA optionsB textA textB HA HB.
    assert (Hstep : forall commands options text,
      has_prompt text = true ->
      receive (fullCommands commands options) shell_start text
      = mk_shell_state text 1 true [with_newline VYOS_COMMANDS.ENTER_CONFIG]
          false).
    { intros commands options text Hp. unfold receive, on_data, shell_start.
      cbn [sh_ended sh_output sh_commandIndex sh_shellReady sh_written].
      rewrite Hp. unfold fullCommands.
      cbn [app length nth Nat.ltb Nat.leb orb andb append].
      rewrite andb_true_r. unfold with_newline. f_equal.
      rewrite !length_app. cbn [length]. apply Nat.leb_gt. lia. }
    cbv zeta. unfold run_sessions. cbn [fold_left deliver fst snd].
    cbn [first_state second_state].
    rewrite !Hstep by assumption. cbn [sh_written sh_ended].
    repeat split.
Qed.

Lemma sessions_not_serialised_witness :
  let batch := fullCommands (buildInterfaceCommands eth1_lan) commit_and_save in
  let st := run_sessions batch batch [(First, prompt_chunk); (Second, prompt_chunk)] in
  sh_written (second_state st) = [with_newline "configure"]
  /\ sh_written (first_state st) = [with_newline "configure"]
  /\ sh_ended (first_state st) = false.
Proof.
  apply (proj2 (proj2 sessions_not_serialised)
           (buildInterfaceCommands eth1_lan) (buildInterfaceCommands eth1_lan)
           commit_and_save commit_and_save prompt_chunk prompt_chunk);
    reflexivity.
Defined.

(** C8 (as stated) fails.  Two invocations carry the batch of the scenario
    to the same device.  A prompt arrives for the first, then one for the
    second: the second writes its first statement although the first has
    written one statement of seven and has not ended its stream, let alone
    closed. *)
Lemma second_session_writes_before_first_ends :
  let batch := fullCommands (buildInterfaceCommands eth1_lan) commit_and_save in
  let st := run_sessions batch batch [(First, prompt_chunk); (Second, prompt_chunk)] in
  length batch = 7
  /\ sh_written (second_state st) = [with_newline "configure"]
  /\ sh_commandIndex (first_state st) = 1
  /\ sh_ended (first_state st) = false.
Proof. repeat split. Qed.
